(** * abicheck: declaration extraction and structural-diff classification

    A shallow embedding of [ast.go] (the comparator: [DeclChecker.Check] and
    its helpers) and of the extractor and driver of [abicheck.go]
    ([pkgDecls], [compareDecls]).

    Conventions of the embedding:
    - the parts of [go/ast] the code inspects are inductive types; positions,
      doc comments and struct tags, which the code copies but never reads,
      are left out;
    - [go/types], [go/parser] and [ast.IsExported] are external to the
      repository: they are the fields of the class [External];
    - a Go function that can fail returns [res]: a value, a non-nil [error],
      a run-time panic, or exhaustion of the recursion budget of the model;
    - Go maps are [gmap]s. *)

From Stdlib Require Import ZArith String Ascii List.
From stdpp Require Import base option list strings gmap fin_maps pretty sorting.

Local Open Scope string_scope.

(** ** Results of fallible code *)

Inductive result (E A : Type) : Type :=
  | Ok (a : A)          (* normal return, [err == nil] *)
  | Err (e : E)         (* normal return with a non-nil [error] *)
  | Panic (msg : string)(* run-time panic *)
  | OutOfFuel.          (* the model's recursion budget ran out *)
Arguments Ok {E A} a.
Arguments Err {E A} e.
Arguments Panic {E A} msg.
Arguments OutOfFuel {E A}.

(** Errors made by [errors.New] and [fmt.Errorf] are their messages. *)
Abbreviation res := (result string).

#[global] Instance result_ret {E} : MRet (result E) := fun A a => Ok a.
#[global] Instance result_bind {E} : MBind (result E) := fun A B f m =>
  match m with
  | Ok a => f a
  | Err e => Err e
  | Panic msg => Panic msg
  | OutOfFuel => OutOfFuel
  end.

(** ** The fragment of [go/ast] the checker looks at *)

Record Ident := mkIdent { NamePos : Z; Name : string }.

(** [ast.ChanDir]: a bit set, [SEND | RECV] is a bidirectional channel. *)
Definition SEND : Z := 1.
Definition RECV : Z := 2.

#[local] Unset Elimination Schemes.
Inductive Expr : Type :=
  | BadExpr
  | IdentE (id : Ident)
  | Ellipsis (Elt : Expr)
  | BasicLit (Value : string)
  | ParenExpr (X : Expr)
  | SelectorExpr (X : Expr) (Sel : Ident)
  | StarExpr (X : Expr)
  | ArrayType (Len : option Expr) (Elt : Expr)
  | StructTypeE (st : StructType)
  | FuncTypeE (ft : FuncType)
  | InterfaceTypeE (it : InterfaceType)
  | MapType (Key Value : Expr)
  | ChanTypeE (ct : ChanType)
with Field : Type :=
  | mkField (Names : list Ident) (Type_ : Expr)
with StructType : Type :=
  | mkStructType (Fields : list Field)
with FuncType : Type :=
  | mkFuncType (Params : list Field) (Results : option (list Field))
with InterfaceType : Type :=
  | mkInterfaceType (Methods : list Field)
with ChanType : Type :=
  | mkChanType (Dir : Z) (Value : Expr).
#[local] Set Elimination Schemes.

Definition Field_Names (f : Field) : list Ident :=
  match f with mkField ns _ => ns end.
Definition Field_Type (f : Field) : Expr :=
  match f with mkField _ t => t end.
Definition StructType_Fields (s : StructType) : list Field :=
  match s with mkStructType fs => fs end.
Definition FuncType_Params (f : FuncType) : list Field :=
  match f with mkFuncType ps _ => ps end.
Definition FuncType_Results (f : FuncType) : option (list Field) :=
  match f with mkFuncType _ rs => rs end.
Definition InterfaceType_Methods (i : InterfaceType) : list Field :=
  match i with mkInterfaceType ms => ms end.
Definition ChanType_Dir (c : ChanType) : Z :=
  match c with mkChanType d _ => d end.
Definition ChanType_Value (c : ChanType) : Expr :=
  match c with mkChanType _ v => v end.

(** [reflect.TypeOf] of an expression: the dynamic type of the node. *)
Inductive ExprType :=
  | TBadExpr | TIdent | TEllipsis | TBasicLit | TParenExpr | TSelectorExpr
  | TStarExpr | TArrayType | TStructType | TFuncType | TInterfaceType
  | TMapType | TChanType.

#[global] Instance ExprType_eq_dec : EqDecision ExprType.
Proof. solve_decision. Defined.

Definition reflect_TypeOf_Expr (e : Expr) : ExprType :=
  match e with
  | BadExpr => TBadExpr
  | IdentE _ => TIdent
  | Ellipsis _ => TEllipsis
  | BasicLit _ => TBasicLit
  | ParenExpr _ => TParenExpr
  | SelectorExpr _ _ => TSelectorExpr
  | StarExpr _ => TStarExpr
  | ArrayType _ _ => TArrayType
  | StructTypeE _ => TStructType
  | FuncTypeE _ => TFuncType
  | InterfaceTypeE _ => TInterfaceType
  | MapType _ _ => TMapType
  | ChanTypeE _ => TChanType
  end.

Inductive Token := IMPORT | CONST | TYPE | VAR.

Inductive Spec : Type :=
  | ImportSpec (Path : string)
  | ValueSpec (Names : list Ident) (Type_ : option Expr) (Values : list Expr)
  | TypeSpec (Name : Ident) (Type_ : Expr).

Inductive SpecType := TImportSpec | TValueSpec | TTypeSpec.

#[global] Instance SpecType_eq_dec : EqDecision SpecType.
Proof. solve_decision. Defined.

Definition reflect_TypeOf_Spec (s : Spec) : SpecType :=
  match s with
  | ImportSpec _ => TImportSpec
  | ValueSpec _ _ _ => TValueSpec
  | TypeSpec _ _ => TTypeSpec
  end.

(** A function body; the extractor replaces it by [nil] and nothing reads it. *)
Definition BlockStmt := list string.

(** [ast.Decl] is an interface holding a pointer.  [NilGenDecl] is the
    interface value that holds a nil [*ast.GenDecl]: [pkgDecls] stores one
    for a value spec without names. *)
Inductive Decl : Type :=
  | BadDecl
  | GenDecl (Tok : Token) (Specs : list Spec)
  | NilGenDecl
  | FuncDecl (Recv : option (list Field)) (Name : Ident) (Type_ : FuncType)
             (Body : option BlockStmt).

Inductive DeclType := TBadDecl | TGenDecl | TFuncDecl.

#[global] Instance DeclType_eq_dec : EqDecision DeclType.
Proof. solve_decision. Defined.

Definition reflect_TypeOf_Decl (d : Decl) : DeclType :=
  match d with
  | BadDecl => TBadDecl
  | GenDecl _ _ => TGenDecl
  | NilGenDecl => TGenDecl
  | FuncDecl _ _ _ _ => TFuncDecl
  end.

(** ** External collaborators *)

(** What the code uses of [go/types], [go/ast], [go/parser]:
    - [TypesType]: the non-nil values of [types.Type]; a [types.Type] that
      may be nil is an [option TypesType];
    - [Identical], [TypeString], [IsInterface]: the functions of [go/types];
    - [IsExported]: [ast.IsExported];
    - [ParseFile]: [parser.ParseFile] on a source text, giving the parse
      error or the declarations of the file. *)
Class External := {
  TypesType : Type;
  Identical : option TypesType -> option TypesType -> bool;
  TypeString : option TypesType -> string;
  IsInterface : TypesType -> bool;
  IsExported : string -> bool;
  ParseFile : string -> string + list Decl;
}.

Section Checker.
Context {ext : External}.

(** A [types.Object]: its [Type()], its [String()], and the path of its
    [Pkg()] ([None] for the universe scope). *)
Record Object := mkObject {
  Object_Type : option TypesType;
  Object_String : string;
  Object_Pkg : option string;
}.

(** [types.Info]: [TypeOf], [ObjectOf] and the [Uses] map, all keyed by the
    AST node. *)
Record Info := mkInfo {
  TypeOf : Expr -> option TypesType;
  ObjectOf : Ident -> option Object;
  Uses : Ident -> option Object;
}.

(** ** ast.go *)

Definition None_ : string := "no change".
Definition NonBreaking : string := "non-breaking change".
Definition Breaking : string := "breaking change".

Record DeclChange := mkDeclChange { Change : string; Msg : string }.

Record DeclChecker := mkDeclChecker { binfo : Info; ainfo : Info }.

Definition NewDeclChecker (bi ai : Info) : DeclChecker :=
  {| binfo := bi; ainfo := ai |}.

Definition nonBreaking (msg : string) : DeclChange := mkDeclChange NonBreaking msg.
Definition breaking (msg : string) : DeclChange := mkDeclChange Breaking msg.
Definition none : DeclChange := mkDeclChange None_ "".

(** The zero value [DeclChange{}], returned next to a non-nil error. *)
Definition zeroDeclChange : DeclChange := mkDeclChange "" "".

Record diffResult := mkDiffResult {
  added : list Field;
  removed : list Field;
  modified : list (Field * Field);
}.

Definition emptyDiff : diffResult := mkDiffResult [] [] [].

Definition Added (d : diffResult) : bool := bool_decide (0 < length (added d)).
Definition Removed (d : diffResult) : bool := bool_decide (0 < length (removed d)).
Definition Modified (d : diffResult) : bool := bool_decide (0 < length (modified d)).
Definition Changed (d : diffResult) : bool :=
  bool_decide (0 < length (added d)) || bool_decide (0 < length (removed d))
  || bool_decide (0 < length (modified d)).

(** [strconv.Itoa] on a slice index. *)
Definition strconv_Itoa (i : nat) : string := pretty i.

Definition fieldKey (field : Field) (i : nat) : string :=
  match Field_Names field with
  | n :: _ => Name n
  | [] => strconv_Itoa i
  end.

Definition stripNames (fields : list Field) : list Field :=
  map (fun f => mkField [] (Field_Type f)) fields.

(** [diffFields], first loop: the map from key to after-field; a later
    field with the same key overwrites an earlier one. *)
Fixpoint afterMembers (after : list Field) (i : nat) (m : gmap string Field)
  : gmap string Field :=
  match after with
  | [] => m
  | field :: rest => afterMembers rest (S i) (<[fieldKey field i := field]> m)
  end.

Section WithExprEqual.
(** The functions below call [c.exprEqual], which calls them back.  They
    take it as the parameter [eq]; [exprEqual] further down closes the
    recursion. *)
Variable eq : Expr -> Expr -> res bool.

(** [diffFields], second loop. *)
Fixpoint diffBefore (before : list Field) (i : nat) (m : gmap string Field)
    (r : diffResult) : res (gmap string Field * diffResult) :=
  match before with
  | [] => Ok (m, r)
  | bfield :: rest =>
      let bkey := fieldKey bfield i in
      match m !! bkey with
      | Some afield =>
          same ← eq (Field_Type bfield) (Field_Type afield);
          let r' := if same : bool then r
                    else mkDiffResult (added r) (removed r)
                                      (modified r ++ [(bfield, afield)]) in
          diffBefore rest (S i) (delete bkey m) r'
      | None =>
          diffBefore rest (S i) m
            (mkDiffResult (added r) (removed r ++ [bfield]) (modified r))
      end
  end.

(** Go ranges over the map in an unspecified order; the model takes the order
    of [map_to_list].  The callers read [added] through its length and, when
    the length is one, its only element. *)
Definition diffFields (before after : list Field) : res diffResult :=
  let AfterMembers := afterMembers after 0 ∅ in
  '(AfterMembers, r) ← diffBefore before 0 AfterMembers emptyDiff;
  Ok (mkDiffResult ((map_to_list AfterMembers).*2) (removed r) (modified r)).

Definition checkChan (before after : ChanType) : res DeclChange :=
  same ← eq (ChanType_Value before) (ChanType_Value after);
  if negb same then Ok (breaking "changed channel's type")
  else if negb (bool_decide (ChanType_Dir before = ChanType_Dir after)) then
    if negb (bool_decide (ChanType_Dir after = SEND))
       && negb (bool_decide (ChanType_Dir after = RECV))
    then Ok (nonBreaking "removed channel's direction")
    else Ok (breaking "changed channel's direction")
  else Ok none.

Definition checkInterface (before after : InterfaceType) : res DeclChange :=
  r ← diffFields (InterfaceType_Methods before) (InterfaceType_Methods after);
  if Added r then Ok (breaking "members added")
  else if Modified r then Ok (breaking "members changed types")
  else if Removed r then Ok (nonBreaking "members removed")
  else Ok none.

(** [d.modified = append(d.modified[:i], d.modified[i+1:]...)] for the
    indices of [rmi], highest first; slicing past the end panics. *)
Fixpoint removeAt (rmi : list nat) (m : list (Field * Field))
  : res (list (Field * Field)) :=
  match rmi with
  | [] => Ok m
  | i :: rest =>
      if bool_decide (S i <= length m)
      then removeAt rest (take i m ++ drop (S i) m)
      else Panic "slice bounds out of range"
  end.

Definition removeModified (d : diffResult) (rmi : list nat) : res diffResult :=
  m ← removeAt (reverse (merge_sort Nat.le rmi)) (modified d);
  Ok (mkDiffResult (added d) (removed d) m).

Fixpoint unexportedIndexes (mods : list (Field * Field)) (i : nat)
    (unexported : list nat) : res (list nat) :=
  match mods with
  | [] => Ok unexported
  | md :: rest =>
      match Field_Names (fst md) with
      | [] => Panic "index out of range"
      | bident0 :: _ =>
          if negb (IsExported (Name bident0))
          then unexportedIndexes rest (S i) (unexported ++ [i])
          else unexportedIndexes rest (S i) unexported
      end
  end.

Definition RemoveUnexported (d : diffResult) : res diffResult :=
  unexported ← unexportedIndexes (modified d) 0 [];
  removeModified d unexported.

Definition checkStruct (before after : StructType) : res DeclChange :=
  r ← diffFields (StructType_Fields before) (StructType_Fields after);
  r ← RemoveUnexported r;
  if Removed r then Ok (breaking "members removed")
  else if Modified r then Ok (breaking "members changed types")
  else if Added r then Ok (nonBreaking "members added")
  else Ok none.

Variable chkr : DeclChecker.

Definition RemoveVariadicCompatible (d : diffResult) : diffResult * string :=
  let addsVariadic :=
    if bool_decide (length (added d) = 1) && negb (Removed d) && negb (Modified d)
    then match added d with
         | a0 :: _ => match Field_Type a0 with Ellipsis _ => true | _ => false end
         | [] => false
         end
    else false in
  if addsVariadic
  then (mkDiffResult [] (removed d) (modified d), "added a variadic parameter")
  else if negb (Added d) && negb (Removed d) && bool_decide (length (modified d) = 1)
  then match modified d with
       | (b, a) :: _ =>
           match Field_Type a with
           | Ellipsis elt =>
               if Identical (TypeOf (binfo chkr) (Field_Type b))
                            (TypeOf (ainfo chkr) elt)
               then (mkDiffResult (added d) (removed d) [],
                     "change parameter to variadic")
               else (d, "")
           | _ => (d, "")
           end
       | [] => (d, "")
       end
  else (d, "").

(** [strings.Replace(s, old, new, 1)] for a non-empty [old]. *)
Fixpoint strings_Replace1 (s old new : string) : string :=
  if String.prefix old s
  then new ++ String.substring (String.length old)
                               (String.length s - String.length old) s
  else match s with
       | EmptyString => EmptyString
       | String ch s' => String ch (strings_Replace1 s' old new)
       end.

Definition newline : string := String (ascii_of_nat 10) EmptyString.

Definition exprInterfaceType (uses : Ident -> option Object) (expr : Expr)
  : res InterfaceType :=
  sel ← match expr with
        | StarExpr X =>
            match X with
            | SelectorExpr _ Sel => Ok (Some Sel)
            | IdentE id => Ok (Some id)
            | _ => Ok None
            end
        | SelectorExpr _ Sel => Ok (Some Sel)
        | IdentE id => Ok (Some id)
        | _ => Err "unknown interface type"
        end;
  match sel ≫= uses with
  | None => Err "could not find interface in uses"
  | Some obj =>
      let src := Object_String obj in
      let src := match Object_Pkg obj with
                 | Some path => strings_Replace1 src ("type " ++ path ++ ".") "type "
                 | None => src
                 end in
      let src := "package expr" ++ newline ++ src in
      match ParseFile src with
      | inl err => Err (err ++ " parsing: " ++ src)
      | inr Decls =>
          match Decls with
          | GenDecl _ (TypeSpec _ (InterfaceTypeE it) :: _) :: _ => Ok it
          | [] => Panic "index out of range"
          | GenDecl _ [] :: _ => Panic "index out of range"
          | NilGenDecl :: _ => Panic "nil pointer dereference"
          | _ => Panic "interface conversion"
          end
      end
  end.

Fixpoint interfaceCompatible (mods : list (Field * Field)) (i : nat)
    (compatible : list nat) (msg : string) : res (list nat * string) :=
  match mods with
  | [] => Ok (compatible, msg)
  | md :: rest =>
      let before := Field_Type (fst md) in
      let after := Field_Type (snd md) in
      match TypeOf (binfo chkr) before, TypeOf (ainfo chkr) after with
      | Some btype, Some atype =>
          if IsInterface btype && IsInterface atype then
            bint ← exprInterfaceType (Uses (binfo chkr)) before;
            aint ← exprInterfaceType (Uses (ainfo chkr)) after;
            change ← checkInterface bint aint;
            if negb (String.eqb (Change change) Breaking)
            then interfaceCompatible rest (S i) (compatible ++ [i])
                                     "compatible interface change"
            else interfaceCompatible rest (S i) compatible msg
          else interfaceCompatible rest (S i) compatible msg
      | _, _ => interfaceCompatible rest (S i) compatible msg
      end
  end.

Definition RemoveInterfaceCompatible (d : diffResult) : res (diffResult * string) :=
  '(compatible, msg) ← interfaceCompatible (modified d) 0 [] "";
  d ← removeModified d compatible;
  Ok (d, msg).

Definition checkFunc (before after : FuncType) : res DeclChange :=
  let bparams := stripNames (FuncType_Params before) in
  let aparams := stripNames (FuncType_Params after) in
  r ← diffFields bparams aparams;
  let '(r, variadicMsg) := RemoveVariadicCompatible r in
  '(r, interfaceMsg) ← RemoveInterfaceCompatible r;
  if Changed r then Ok (breaking "parameter types changed") else
  let final :=
    if negb (String.eqb interfaceMsg "") then Ok (nonBreaking interfaceMsg)
    else if negb (String.eqb variadicMsg "") then Ok (nonBreaking variadicMsg)
    else Ok none in
  match FuncType_Results before with
  | Some bres =>
      match FuncType_Results after with
      | None => Ok (breaking "removed return parameter")
      | Some ares =>
          let bresults := stripNames bres in
          let aresults := stripNames ares in
          if bool_decide (0 < length bres) then
            r ← diffFields bresults aresults;
            if Changed r then Ok (breaking "return parameters changed")
            else final
          else final
      end
  | None => final
  end.

End WithExprEqual.

(** [change, _ := c.checkChan(...)] and [change, _ := c.checkFunc(...)] in
    [exprEqual]: the error is discarded, and next to an error the callee
    returns [DeclChange{}]. *)
Definition notBreaking (r : res DeclChange) : res bool :=
  match r with
  | Ok change => Ok (negb (String.eqb (Change change) Breaking))
  | Err _ => Ok (negb (String.eqb (Change zeroDeclChange) Breaking))
  | Panic msg => Panic msg
  | OutOfFuel => OutOfFuel
  end.

(** [exprEqual]; [n] bounds the depth of the calls of [exprEqual]. *)
Fixpoint exprEqual (c : DeclChecker) (n : nat) (before after : Expr) : res bool :=
  match n with
  | 0 => OutOfFuel
  | S n' =>
      if negb (bool_decide (reflect_TypeOf_Expr before = reflect_TypeOf_Expr after))
      then Ok false
      else match before, after with
           | ChanTypeE b, ChanTypeE a => notBreaking (checkChan (exprEqual c n') b a)
           | FuncTypeE b, FuncTypeE a => notBreaking (checkFunc (exprEqual c n') c b a)
           | _, _ =>
               let btype := TypeOf (binfo c) before in
               let atype := TypeOf (ainfo c) after in
               Ok (String.eqb (TypeString btype) (TypeString atype))
           end
  end.

Definition Check (c : DeclChecker) (n : nat) (before after : Decl) : res DeclChange :=
  if negb (bool_decide (reflect_TypeOf_Decl before = reflect_TypeOf_Decl after))
  then Ok (breaking "changed declaration")
  else
    match before, after with
    | GenDecl _ bSpecs, GenDecl _ aSpecs =>
        match bSpecs, aSpecs with
        | bspec0 :: _, aspec0 :: _ =>
            if negb (bool_decide (reflect_TypeOf_Spec bspec0 = reflect_TypeOf_Spec aspec0))
            then Ok (breaking "changed spec")
            else
              match bspec0, aspec0 with
              | ValueSpec bNames _ _, ValueSpec aNames _ _ =>
                  match bNames, aNames with
                  | bname0 :: _, aname0 :: _ =>
                      match ObjectOf (binfo c) bname0, ObjectOf (ainfo c) aname0 with
                      | Some btype, Some atype =>
                          if negb (Identical (Object_Type btype) (Object_Type atype))
                             && negb (String.eqb (Object_String btype) (Object_String atype))
                          then Ok (breaking "changed type")
                          else Ok none
                      | _, _ => Panic "nil pointer dereference"
                      end
                  | _, _ => Panic "index out of range"
                  end
              | TypeSpec _ bType, TypeSpec _ aType =>
                  if negb (bool_decide (reflect_TypeOf_Expr bType = reflect_TypeOf_Expr aType))
                  then Ok (breaking "changed type of value spec")
                  else
                    match bType, aType with
                    | InterfaceTypeE btype, InterfaceTypeE atype =>
                        checkInterface (exprEqual c n) btype atype
                    | StructTypeE btype, StructTypeE atype =>
                        checkStruct (exprEqual c n) btype atype
                    | IdentE btype, IdentE atype =>
                        if negb (String.eqb (Name btype) (Name atype))
                        then Ok (breaking "alias changed its underlying type")
                        else Ok none
                    | _, _ => Ok none
                    end
              | _, _ => Ok none
              end
        | _, _ => Panic "index out of range"
        end
    | FuncDecl _ _ bType _, FuncDecl _ _ aType _ =>
        checkFunc (exprEqual c n) c bType aType
    | BadDecl, BadDecl => Err "unknown declaration type: *ast.BadDecl"
    | _, _ => Panic "nil pointer dereference"
    end.

(** ** abicheck.go *)

(** [token.FileSet], used through [pos(fset, decl)] only. *)
Definition FileSet := Decl -> string.

Record pkg := mkPkg {
  pkg_fset : FileSet;
  pkg_decls : gmap string Decl;
  pkg_info : Info;
}.

Definition pos (fset : FileSet) (decl : Decl) : string := fset decl.

(** The three variables of [pkgDecls]. *)
Record scan := mkScan {
  scan_decls : gmap string Decl;
  scan_priv : gmap string Decl;
  scan_returned : list string;
}.

(** The loop [for j := range s.Names] of [pkgDecls]: it assigns [id] and
    [decl] once per name. *)
Fixpoint splitNames (Tok : Token) (Names : list Ident) (Type_ : option Expr)
    (Values : list Expr) (j : nat) (id : string) (decl : Decl) : string * Decl :=
  match Names with
  | [] => (id, decl)
  | name :: rest =>
      let spec := ValueSpec [name] Type_
                    (match Values !! j with Some v => [v] | None => [] end) in
      splitNames Tok rest Type_ Values (S j) (Name name) (GenDecl Tok [spec])
  end.

Definition store (st : scan) (id : string) (decl : Decl) : scan :=
  if IsExported id
  then mkScan (<[id := decl]> (scan_decls st)) (scan_priv st) (scan_returned st)
  else mkScan (scan_decls st) (<[id := decl]> (scan_priv st)) (scan_returned st).

Fixpoint scanSpecs (Tok : Token) (Specs : list Spec) (st : scan) : scan :=
  match Specs with
  | [] => st
  | ValueSpec Names Type_ Values :: rest =>
      let '(id, decl) := splitNames Tok Names Type_ Values 0 "" NilGenDecl in
      scanSpecs Tok rest (store st id decl)
  | TypeSpec Name_ Type_ :: rest =>
      scanSpecs Tok rest (store st (Name Name_) (GenDecl Tok [TypeSpec Name_ Type_]))
  | ImportSpec _ :: rest => scanSpecs Tok rest st
  end.

Fixpoint returnedTypes (Results : list Field) (returned : list string) : list string :=
  match Results with
  | [] => returned
  | field :: rest =>
      match Field_Type field with
      | IdentE ftype => returnedTypes rest (returned ++ [Name ftype])
      | StarExpr (IdentE ident) => returnedTypes rest (returned ++ [Name ident])
      | _ => returnedTypes rest returned
      end
  end.

(** The receiver name and the identifier of a function declaration: the
    block of [pkgDecls] that starts at [id string = d.Name.Name]. *)
Definition funcId (Recv : option (list Field)) (Name_ : Ident) : res (string * string) :=
  let id := Name Name_ in
  match Recv with
  | Some (field0 :: _) =>
      recv ← match Field_Type field0 with
             | IdentE e => Ok (Name e)
             | StarExpr (IdentE e) => Ok (Name e)
             | StarExpr _ => Panic "interface conversion"
             | _ => Ok ""
             end;
      Ok (recv, recv +:+ "." +:+ id)
  | _ => Ok ("", id)
  end.

Definition scanDecl (astDecl : Decl) (st : scan) : res scan :=
  match astDecl with
  | GenDecl Tok Specs => Ok (scanSpecs Tok Specs st)
  | FuncDecl Recv Name_ Type_ _ =>
      '(recv, id) ← funcId Recv Name_;
      let astDecl := FuncDecl Recv Name_ Type_ None in
      if IsExported (Name Name_) && (String.eqb recv "" || IsExported recv)
      then
        let returned :=
          match FuncType_Results Type_ with
          | Some Results => returnedTypes Results (scan_returned st)
          | None => scan_returned st
          end in
        Ok (mkScan (<[id := astDecl]> (scan_decls st)) (scan_priv st) returned)
      else
        Ok (mkScan (scan_decls st) (<[id := astDecl]> (scan_priv st)) (scan_returned st))
  | NilGenDecl => Panic "nil pointer dereference"
  | BadDecl => Panic "Unknown decl type"
  end.

Fixpoint scanDecls (Decls : list Decl) (st : scan) : res scan :=
  match Decls with
  | [] => Ok st
  | astDecl :: rest => st ← scanDecl astDecl st; scanDecls rest st
  end.

(** A file is the list [file.Decls]. *)
Fixpoint scanFiles (files : list (list Decl)) (st : scan) : res scan :=
  match files with
  | [] => Ok st
  | file :: rest => st ← scanDecls file st; scanFiles rest st
  end.

(** The body of [for rid, decl := range priv]. *)
Definition promoteMethod (id : string) (decls : gmap string Decl)
    (entry : string * Decl) : gmap string Decl :=
  let '(rid, decl) := entry in
  if bool_decide (String.length rid <= String.length id + 1) then decls
  else
    let pid := String.substring 0 (String.length id) rid in
    let pfunc := String.substring (String.length id + 1)
                   (String.length rid - (String.length id + 1)) rid in
    if String.eqb id pid && IsExported pfunc
    then <[rid := decl]> decls
    else decls.

(** The body of [for _, id := range returned]. *)
Definition promote (priv : gmap string Decl) (decls : gmap string Decl)
    (id : string) : gmap string Decl :=
  let decls := match priv !! id with
               | Some d => <[id := d]> decls
               | None => decls
               end in
  foldl (promoteMethod id) decls (map_to_list priv).

Definition pkgDecls (files : list (list Decl)) : res (gmap string Decl) :=
  st ← scanFiles files (mkScan ∅ ∅ []);
  Ok (foldl (promote (scan_priv st)) (scan_decls st) (scan_returned st)).

Record Change_ := mkChange {
  Change_Pkg : string;
  Change_ID : string;
  Change_Msg : string;
  Change_Change : string;
  Change_Pos : string;
  Change_Before : option Decl;
  Change_After : option Decl;
}.

Record diffError := mkDiffError {
  diffError_err : string;
  diffError_pkg : string;
  diffError_bdecl : Decl;
  diffError_adecl : Decl;
}.

(** [for id, bDecl := range bpkg.decls] of [compareDecls]. *)
Fixpoint compareBefore (d : DeclChecker) (n : nat) (pkgName : string)
    (bpkg apkg : pkg) (bdecls : list (string * Decl)) (changes : list Change_)
  : result diffError (list Change_) :=
  match bdecls with
  | [] => Ok changes
  | (id, bDecl) :: rest =>
      match pkg_decls apkg !! id with
      | None =>
          compareBefore d n pkgName bpkg apkg rest
            (changes ++ [mkChange pkgName id "declaration removed" Breaking
                                  (pos (pkg_fset bpkg) bDecl) (Some bDecl) None])
      | Some aDecl =>
          match Check d n bDecl aDecl with
          | Err err => Err (mkDiffError err pkgName bDecl aDecl)
          | Panic msg => Panic msg
          | OutOfFuel => OutOfFuel
          | Ok change =>
              if String.eqb (Change change) None_
              then compareBefore d n pkgName bpkg apkg rest changes
              else compareBefore d n pkgName bpkg apkg rest
                     (changes ++ [mkChange pkgName id (Msg change) (Change change)
                                           (pos (pkg_fset apkg) aDecl)
                                           (Some bDecl) (Some aDecl)])
          end
      end
  end.

(** [for id, aDecl := range apkg.decls] of [compareDecls]. *)
Fixpoint compareAfter (pkgName : string) (bpkg apkg : pkg)
    (adecls : list (string * Decl)) (changes : list Change_) : list Change_ :=
  match adecls with
  | [] => changes
  | (id, aDecl) :: rest =>
      match pkg_decls bpkg !! id with
      | None =>
          compareAfter pkgName bpkg apkg rest
            (changes ++ [mkChange pkgName id "declaration added" NonBreaking
                                  (pos (pkg_fset apkg) aDecl) None (Some aDecl)])
      | Some _ => compareAfter pkgName bpkg apkg rest changes
      end
  end.

(** [for pkgName, bpkg := range c.b] of [compareDecls]. *)
Fixpoint comparePkgs (n : nat) (a : gmap string pkg) (bpkgs : list (string * pkg))
    (changes : list Change_) : result diffError (list Change_) :=
  match bpkgs with
  | [] => Ok changes
  | (pkgName, bpkg) :: rest =>
      match a !! pkgName with
      | None =>
          comparePkgs n a rest
            (changes ++ [mkChange pkgName "" "package removed" Breaking "" None None])
      | Some apkg =>
          let d := NewDeclChecker (pkg_info bpkg) (pkg_info apkg) in
          changes ← compareBefore d n pkgName bpkg apkg
                      (map_to_list (pkg_decls bpkg)) changes;
          comparePkgs n a rest
            (compareAfter pkgName bpkg apkg (map_to_list (pkg_decls apkg)) changes)
      end
  end.

(** The fields [b] and [a] of [Checker]. *)
Record Checker := mkChecker {
  Checker_b : gmap string pkg;
  Checker_a : gmap string pkg;
}.

Definition compareDecls (c : Checker) (n : nat) : result diffError (list Change_) :=
  comparePkgs n (Checker_a c) (map_to_list (Checker_b c)) [].

End Checker.

(** ** Kinds of declarations *)

(** The kind of a declaration, as [Check] tells kinds apart: by the dynamic
    type of the declaration, then of its first spec, then (for a type spec)
    of its type expression. *)
Inductive Kind :=
  | KFunction
  | KImport
  | KValue
  | KType (shape : ExprType).

#[global] Instance Kind_eq_dec : EqDecision Kind.
Proof. solve_decision. Defined.

Definition declKind (d : Decl) : option Kind :=
  match d with
  | FuncDecl _ _ _ _ => Some KFunction
  | GenDecl _ (ImportSpec _ :: _) => Some KImport
  | GenDecl _ (ValueSpec _ _ _ :: _) => Some KValue
  | GenDecl _ (TypeSpec _ t :: _) => Some (KType (reflect_TypeOf_Expr t))
  | _ => None
  end.

(** ** A small resolver, for closed examples *)

Module Toy.

(** Types are their canonical texts; an identifier is exported when it starts
    with an ASCII capital; the parser knows one source text. *)
Definition isUpper (s : string) : bool :=
  match s with
  | String ch _ => (65 <=? nat_of_ascii ch)%nat && (nat_of_ascii ch <=? 90)%nat
  | EmptyString => false
  end.

Definition optEq (x y : option string) : bool :=
  match x, y with
  | Some a, Some b => String.eqb a b
  | None, None => true
  | _, _ => false
  end.

Definition ident (s : string) : Ident := mkIdent 0 s.
Definition tIdent (s : string) : Expr := IdentE (ident s).

#[global] Instance ext : External := {|
  TypesType := string;
  Identical := optEq;
  TypeString := fun t => match t with Some s => s | None => "<nil>" end;
  IsInterface := fun t => String.prefix "interface" t;
  IsExported := isUpper;
  ParseFile := fun src => inl "expected declaration";
|}.

Fixpoint typeText (e : Expr) : option string :=
  match e with
  | IdentE id => Some (Name id)
  | StarExpr X => s ← typeText X; Some ("*" ++ s)
  | Ellipsis Elt => s ← typeText Elt; Some ("[]" ++ s)
  | SelectorExpr X Sel => s ← typeText X; Some (s ++ "." ++ Name Sel)
  | MapType Key Value =>
      k ← typeText Key; v ← typeText Value; Some ("map[" ++ k ++ "]" ++ v)
  | InterfaceTypeE (mkInterfaceType ms) =>
      Some ("interface{" ++ String.concat "; " (map (fun f => fieldKey f 0) ms) ++ "}")
  | _ => None
  end.

(** A function type with the given parameter and result types. *)
Definition fn (params : list Expr) (results : option (list Expr)) : Expr :=
  FuncTypeE (mkFuncType (map (mkField [ident "x"]) params)
                        (option_map (map (mkField [])) results)).

(** A named field, a method. *)
Definition field (name : string) (t : Expr) : Field := mkField [ident name] t.

Definition info : Info := mkInfo typeText (fun _ => None) (fun _ => None).
Definition checker : DeclChecker := NewDeclChecker info info.

End Toy.

(** ** A small package, for closed examples *)

Module Example.
Import Toy.

Definition int : Expr := tIdent "int".

(** [type foo struct { ... }], [func New() *foo], [func (f *foo) Bar()]. *)
Definition fooStruct (fields : list Field) : Decl :=
  GenDecl TYPE [TypeSpec (ident "foo") (StructTypeE (mkStructType fields))].
Definition New : Decl :=
  FuncDecl None (ident "New")
    (mkFuncType [] (Some [mkField [] (StarExpr (tIdent "foo"))]))
    (Some ["return &foo{}"]).
Definition Bar : Decl :=
  FuncDecl (Some [mkField [ident "f"] (StarExpr (tIdent "foo"))]) (ident "Bar")
    (mkFuncType [] None) (Some []).
Definition file (fields : list Field) : list Decl := [fooStruct fields; New; Bar].

(** [interface{ A() }] and [interface{ A(); B() }], written in place. *)
Definition ifaceA : Expr :=
  InterfaceTypeE (mkInterfaceType [field "A" (fn [] None)]).
Definition ifaceAB : Expr :=
  InterfaceTypeE (mkInterfaceType [field "A" (fn [] None); field "B" (fn [] None)]).

(** [func F(x interface{...})] and [func F(cb func(x interface{...}))]. *)
Definition direct (iface : Expr) : Decl :=
  FuncDecl None (ident "F") (mkFuncType [field "x" iface] None) None.
Definition nested (iface : Expr) : Decl :=
  FuncDecl None (ident "F") (mkFuncType [field "cb" (fn [iface] None)] None) None.

(** A revision with the single package [p] declaring [F]. *)
Definition revision (F : Decl) : gmap string pkg :=
  {[ "p" := mkPkg (fun _ => "p.go:1") {[ "F" := F ]} info ]}.

End Example.


(** ** Vocabulary for the extractor *)

(** The identifiers under which the scan stores the specs of a declaration
    block, and a declaration. *)
Definition specIds (specs : list Spec) : list string :=
  specs ≫= fun s =>
    match s with
    | ValueSpec Names _ _ => [fst (splitNames VAR Names None [] 0 "" NilGenDecl)]
    | TypeSpec Name_ _ => [Name Name_]
    | ImportSpec _ => []
    end.

Definition declIds (d : Decl) : list string :=
  match d with
  | GenDecl _ Specs => specIds Specs
  | FuncDecl Recv Name_ _ _ =>
      match funcId Recv Name_ with
      | Ok (_, id) => [id]
      | _ => []
      end
  | _ => []
  end.

(** [rid] passes the test of the loop over [priv] for the returned type [id]. *)
Definition promotedBy {ext : External} (id rid : string) : Prop :=
  ~ String.length rid <= String.length id + 1 /\
  id = String.substring 0 (String.length id) rid /\
  IsExported (String.substring (String.length id + 1)
                (String.length rid - (String.length id + 1)) rid) = true.

(** ** Vocabulary for the field-diff algorithm *)

(** The keys of a field list, the first field being at position [i]. *)
Fixpoint keysFrom (fs : list Field) (i : nat) : list string :=
  match fs with
  | [] => []
  | f :: rest => fieldKey f i :: keysFrom rest (S i)
  end.

Definition fieldKeys (fs : list Field) : list string := keysFrom fs 0.

(** Each before-field with the after-field it is compared with: the entry of
    the lookup under its key, unless an earlier before-field had the same key
    and consumed the entry. *)
Fixpoint matchesFrom (M : gmap string Field) (seen : list string)
    (fs : list Field) (i : nat) : list (Field * option Field) :=
  match fs with
  | [] => []
  | bf :: rest =>
      let k := fieldKey bf i in
      (bf, if bool_decide (k ∈ seen) then None else M !! k)
        :: matchesFrom M (k :: seen) rest (S i)
  end.

Definition matches (before after : list Field) : list (Field * option Field) :=
  matchesFrom (afterMembers after 0 ∅) [] before 0.

Definition removedOf (ms : list (Field * option Field)) : list Field :=
  omap (fun m => match snd m with None => Some (fst m) | Some _ => None end) ms.

Definition modifiedOf (eqb : Expr -> Expr -> bool) (ms : list (Field * option Field))
  : list (Field * Field) :=
  omap (fun m => match snd m with
                 | Some af => if eqb (Field_Type (fst m)) (Field_Type af)
                              then None else Some (fst m, af)
                 | None => None
                 end) ms.

Definition unchangedOf (eqb : Expr -> Expr -> bool) (ms : list (Field * option Field))
  : list (Field * Field) :=
  omap (fun m => match snd m with
                 | Some af => if eqb (Field_Type (fst m)) (Field_Type af)
                              then Some (fst m, af) else None
                 | None => None
                 end) ms.

(** The after-fields with their keys, and those whose key no before-field has. *)
Fixpoint keyedFrom (fs : list Field) (i : nat) : list (string * Field) :=
  match fs with
  | [] => []
  | f :: rest => (fieldKey f i, f) :: keyedFrom rest (S i)
  end.

Definition addedOf (before after : list Field) : list Field :=
  (filter (fun kf => fst kf ∉ fieldKeys before) (keyedFrom after 0)).*2.

(** What the second loop leaves in the lookup. *)
Definition remaining (before after : list Field) : gmap string Field :=
  filter (fun kf => fst kf ∉ fieldKeys before) (afterMembers after 0 ∅).

(** [eq] returns on every pair of fields that [diffFields] compares, with the
    answers [eqb]. *)
Definition returnsOn (eq : Expr -> Expr -> res bool) (eqb : Expr -> Expr -> bool)
    (before after : list Field) : Prop :=
  forall bf af, (bf, Some af) ∈ matches before after ->
    eq (Field_Type bf) (Field_Type af) = Ok (eqb (Field_Type bf) (Field_Type af)).

(** Two lists are aligned when fields at the same position have the same
    key: always so for parameter and result lists, whose keys are positions. *)
Definition aligned (before after : list Field) : Prop :=
  forall j bf af, before !! j = Some bf -> after !! j = Some af ->
    fieldKey bf j = fieldKey af j.

(** The pairs of fields at the same position that [eqb] tells apart. *)
Definition differing (eqb : Expr -> Expr -> bool) (before after : list Field)
  : list (Field * Field) :=
  filter (fun p => eqb (Field_Type (fst p)) (Field_Type (snd p)) = false)
         (zip before after).




(** Declarations of an interface type and of a struct type. *)
Definition interfaceDecl (name : Ident) (methods : list Field) : Decl :=
  GenDecl TYPE [TypeSpec name (InterfaceTypeE (mkInterfaceType methods))].

Definition structDecl (name : Ident) (fields : list Field) : Decl :=
  GenDecl TYPE [TypeSpec name (StructTypeE (mkStructType fields))].

(** The answer of a comparison that returned. *)
Definition answer (eq : Expr -> Expr -> res bool) (b a : Expr) : bool :=
  match eq b a with
  | Ok x => x
  | _ => false
  end.


(** The first name of a field is exported (a field without names counts as
    exported: its name is that of its type). *)
Definition exportedFirst {ext : External} (f : Field) : bool :=
  match Field_Names f with
  | n0 :: _ => IsExported (Name n0)
  | [] => true
  end.

(** The indexes that [RemoveUnexported] collects, the first pair being at
    position [i]. *)
Fixpoint unexportedAt {ext : External} (mods : list (Field * Field)) (i : nat) : list nat :=
  match mods with
  | [] => []
  | md :: rest =>
      (if exportedFirst (fst md) then [] else [i]) ++ unexportedAt rest (S i)
  end.

(** [eq2] answers as [eq1] wherever [eq1] does not run out of fuel. *)
Definition extends (eq1 eq2 : Expr -> Expr -> res bool) : Prop :=
  forall b a, eq1 b a <> OutOfFuel -> eq2 b a = eq1 b a.

(** ** Vocabulary for the further properties *)

(** The body of the loop of [RemoveInterfaceCompatible] on one modified pair:
    whether the loop records the pair as compatible. *)
Definition compatiblePair {ext : External} (eq : Expr -> Expr -> res bool)
    (chkr : DeclChecker) (md : Field * Field) : res bool :=
  let before := Field_Type (fst md) in
  let after := Field_Type (snd md) in
  match TypeOf (binfo chkr) before, TypeOf (ainfo chkr) after with
  | Some btype, Some atype =>
      if IsInterface btype && IsInterface atype then
        bint ← exprInterfaceType (Uses (binfo chkr)) before;
        aint ← exprInterfaceType (Uses (ainfo chkr)) after;
        change ← checkInterface eq bint aint;
        Ok (negb (String.eqb (Change change) Breaking))
      else Ok false
  | _, _ => Ok false
  end.

(** A comparison that returned true. *)
Definition returnsTrue (r : res bool) : bool :=
  match r with
  | Ok true => true
  | _ => false
  end.

(** The positions of the pairs that satisfy [p], the first pair being at
    position [i]. *)
Fixpoint indexesAt (p : Field * Field -> bool) (mods : list (Field * Field)) (i : nat)
  : list nat :=
  match mods with
  | [] => []
  | md :: rest => (if p md then [i] else []) ++ indexesAt p rest (S i)
  end.

(** A function type with the names of its parameters and results erased. *)
Definition eraseNames (f : FuncType) : FuncType :=
  mkFuncType (stripNames (FuncType_Params f))
             (option_map stripNames (FuncType_Results f)).

(** An object of the universe scope with the given text. *)
Definition unqualified {ext : External} (obj : Object) (text : string) : Object :=
  mkObject (Object_Type obj) text None.

(** A declaration without its import specs, and without its body. *)
Definition isImport (s : Spec) : bool :=
  match s with
  | ImportSpec _ => true
  | _ => false
  end.

Definition dropImports (d : Decl) : Decl :=
  match d with
  | GenDecl Tok Specs => GenDecl Tok (filter (fun s => isImport s = false) Specs)
  | _ => d
  end.

Definition dropBody (d : Decl) : Decl :=
  match d with
  | FuncDecl Recv Name_ Type_ _ => FuncDecl Recv Name_ Type_ None
  | _ => d
  end.

(** The declarations on which the scan of [pkgDecls] does not panic. *)
Definition scannable (d : Decl) : bool :=
  match d with
  | GenDecl _ _ => true
  | FuncDecl Recv Name_ _ _ =>
      match funcId Recv Name_ with
      | Ok _ => true
      | _ => false
      end
  | _ => false
  end.

(** The shape of the declarations that [pkgDecls] stores: a function without
    body, a block of one type spec, a block of one value spec with one name
    and at most one value, or the nil block of a value spec without names. *)
Definition flattened (d : Decl) : bool :=
  match d with
  | FuncDecl _ _ _ None => true
  | GenDecl _ [TypeSpec _ _] => true
  | GenDecl _ [ValueSpec [_] _ vs] => bool_decide (length vs <= 1)
  | NilGenDecl => true
  | _ => false
  end.

(** [d] is stored among the exported declarations under [k]. *)
Definition storedPublic {ext : External} (k : string) (d : Decl) : Prop :=
  match d with
  | FuncDecl Recv Name_ _ _ =>
      exists recv, funcId Recv Name_ = Ok (recv, k) /\
        IsExported (Name Name_) && (String.eqb recv "" || IsExported recv) = true
  | _ => IsExported k = true
  end.

(** [d] is a function stored among the exported declarations, with a result
    of type [t] or [*t]. *)
Definition returnedBy {ext : External} (d : Decl) (t : string) : Prop :=
  exists Recv Name_ ft body recv id rs field ti,
    d = FuncDecl Recv Name_ ft body /\
    funcId Recv Name_ = Ok (recv, id) /\
    IsExported (Name Name_) && (String.eqb recv "" || IsExported recv) = true /\
    FuncType_Results ft = Some rs /\ field ∈ rs /\
    (Field_Type field = IdentE ti \/ Field_Type field = StarExpr (IdentE ti)) /\
    Name ti = t.

(** What the scan of [pkgDecls] maintains, for declarations taken from [ds]:
    the shape and the origin of what the two maps hold, and the origin of the
    returned type names. *)
Definition scanInv {ext : External} (ds : list Decl) (st : scan) : Prop :=
  (forall k d, scan_decls st !! k = Some d ->
     flattened d = true /\ storedPublic k d /\ exists d0, d0 ∈ ds /\ k ∈ declIds d0) /\
  (forall k d, scan_priv st !! k = Some d ->
     flattened d = true /\ exists d0, d0 ∈ ds /\ k ∈ declIds d0) /\
  (forall t, t ∈ scan_returned st -> exists d0, d0 ∈ ds /\ returnedBy d0 t).

(** The changes that [compareDecls] owes for the package [pkgName] of the
    before revision, [a] being the packages of the after revision. *)
Inductive reportedIn {ext : External} (n : nat) (a : gmap string pkg)
    (pkgName : string) (bpkg : pkg) : Change_ -> Prop :=
  | reported_package_removed :
      a !! pkgName = None ->
      reportedIn n a pkgName bpkg
        (mkChange pkgName "" "package removed" Breaking "" None None)
  | reported_declaration_removed apkg id bDecl :
      a !! pkgName = Some apkg ->
      pkg_decls bpkg !! id = Some bDecl -> pkg_decls apkg !! id = None ->
      reportedIn n a pkgName bpkg
        (mkChange pkgName id "declaration removed" Breaking
                  (pos (pkg_fset bpkg) bDecl) (Some bDecl) None)
  | reported_declaration_changed apkg id bDecl aDecl change :
      a !! pkgName = Some apkg ->
      pkg_decls bpkg !! id = Some bDecl -> pkg_decls apkg !! id = Some aDecl ->
      Check (NewDeclChecker (pkg_info bpkg) (pkg_info apkg)) n bDecl aDecl = Ok change ->
      Change change <> None_ ->
      reportedIn n a pkgName bpkg
        (mkChange pkgName id (Msg change) (Change change)
                  (pos (pkg_fset apkg) aDecl) (Some bDecl) (Some aDecl))
  | reported_declaration_added apkg id aDecl :
      a !! pkgName = Some apkg ->
      pkg_decls apkg !! id = Some aDecl -> pkg_decls bpkg !! id = None ->
      reportedIn n a pkgName bpkg
        (mkChange pkgName id "declaration added" NonBreaking
                  (pos (pkg_fset apkg) aDecl) None (Some aDecl)).

Definition reported {ext : External} (c : Checker) (n : nat) (ch : Change_) : Prop :=
  exists pkgName bpkg,
    Checker_b c !! pkgName = Some bpkg /\
    reportedIn n (Checker_a c) pkgName bpkg ch.

(** ** The field-diff partition, in the words of the specification *)







(** ** Parameter lists, in the words of the specification *)




(** ** A resolver that knows two interfaces, for closed examples *)

Module Parsed.
Import Toy.

(** [io.Reader] and [io.ReadCloser], cut down to methods without parameters. *)
Definition Read : Field := field "Read" (fn [] None).
Definition Close : Field := field "Close" (fn [] None).

Definition readerText : string := "interface{Read()}".
Definition readCloserText : string := "interface{Read(); Close()}".

Definition parse (src : string) : string + list Decl :=
  if String.eqb src ("package expr" ++ newline ++ "type Reader " ++ readerText)
  then inr [interfaceDecl (ident "Reader") [Read]]
  else if String.eqb src ("package expr" ++ newline ++ "type ReadCloser " ++ readCloserText)
  then inr [interfaceDecl (ident "ReadCloser") [Read; Close]]
  else inl "expected declaration".

#[local] Instance ext : External := {|
  TypesType := string;
  Identical := optEq;
  TypeString := fun t => match t with Some s => s | None => "<nil>" end;
  IsInterface := fun t => String.prefix "interface" t;
  IsExported := isUpper;
  ParseFile := parse;
|}.

(** The objects of the two names of package [io]. *)
Definition readerObj : Object :=
  mkObject (Some readerText) ("type io.Reader " ++ readerText) (Some "io").
Definition readCloserObj : Object :=
  mkObject (Some readCloserText) ("type io.ReadCloser " ++ readCloserText) (Some "io").

Definition object (name : string) : option Object :=
  if String.eqb name "Reader" then Some readerObj
  else if String.eqb name "ReadCloser" then Some readCloserObj
  else None.

Definition typeOf (e : Expr) : option string :=
  match e with
  | SelectorExpr _ Sel =>
      match object (Name Sel) with
      | Some obj => Object_Type obj
      | None => typeText e
      end
  | _ => typeText e
  end.

Definition info : Info := mkInfo typeOf (fun _ => None) (fun id => object (Name id)).
Definition checker : DeclChecker := NewDeclChecker info info.

(** [io.Reader], [io.ReadCloser]. *)
Definition io (name : string) : Expr := SelectorExpr (tIdent "io") (ident name).

End Parsed.

(** ** Theorems *)

Local Open Scope list_scope.

(** *** The field-diff algorithm *)

Section DiffFacts.
Context {ext : External}.

Lemma keysFrom_length fs i : length (keysFrom fs i) = length fs.
Proof. revert i; induction fs as [|f fs IH]; intros i; simpl; [done|by rewrite IH]. Qed.

Lemma keysFrom_lookup fs i j f :
  fs !! j = Some f -> keysFrom fs i !! j = Some (fieldKey f (i + j)).
Proof.
  revert i j; induction fs as [|g fs IH]; intros i [|j] Hj; simplify_eq/=.
  - by rewrite Nat.add_0_r.
  - rewrite (IH (S i) j Hj). do 2 f_equal. lia.
Qed.

Lemma keysFrom_app fs gs i :
  keysFrom (fs ++ gs) i = keysFrom fs i ++ keysFrom gs (i + length fs).
Proof.
  revert i; induction fs as [|f fs IH]; intros i; simpl.
  - by rewrite Nat.add_0_r.
  - rewrite IH. do 3 f_equal. lia.
Qed.

Lemma keyedFrom_fst fs i : (keyedFrom fs i).*1 = keysFrom fs i.
Proof. revert i; induction fs as [|f fs IH]; intros i; simpl; [done|by rewrite IH]. Qed.

Lemma keyedFrom_snd fs i : (keyedFrom fs i).*2 = fs.
Proof. revert i; induction fs as [|f fs IH]; intros i; simpl; [done|by rewrite IH]. Qed.

Lemma elem_of_keyedFrom fs i k f :
  (k, f) ∈ keyedFrom fs i <-> exists j, fs !! j = Some f /\ k = fieldKey f (i + j).
Proof.
  revert i; induction fs as [|g fs IH]; intros i; simpl.
  - split; [by intros ?%elem_of_nil|by intros (j & ? & _)].
  - rewrite elem_of_cons, IH. split.
    + intros [[= -> ->]|(j & Hj & ->)].
      * exists 0. by rewrite Nat.add_0_r.
      * exists (S j). split; [done|]. f_equal; lia.
    + intros ([|j] & Hj & ->); simplify_eq/=.
      * left. by rewrite Nat.add_0_r.
      * right. exists j. split; [done|]. f_equal; lia.
Qed.

(** The lookup built by the first loop holds, under each key, the last
    after-field with that key. *)
Lemma afterMembers_lookup after i m k :
  afterMembers after i m !! k =
    match last (filter (fun kf => fst kf = k) (keyedFrom after i)) with
    | Some kf => Some (snd kf)
    | None => m !! k
    end.
Proof.
  revert i m; induction after as [|f after IH]; intros i m; simpl; [done|].
  rewrite IH. rewrite filter_cons. simpl.
  destruct (decide (fieldKey f i = k)) as [->|Hne].
  - destruct (filter _ (keyedFrom after (S i))) as [|x l] eqn:E.
    + simpl. by rewrite lookup_insert_eq.
    + rewrite last_cons_cons. by destruct (last (x :: l)) eqn:E'; [|by apply last_None in E'].
  - destruct (last _); [done|]. by rewrite lookup_insert_ne.
Qed.

Lemma afterMembers_is_Some after k :
  is_Some (afterMembers after 0 ∅ !! k) <-> k ∈ fieldKeys after.
Proof.
  rewrite afterMembers_lookup. unfold fieldKeys. rewrite <-keyedFrom_fst.
  destruct (last _) as [[k' f]|] eqn:E.
  - apply last_Some_elem_of in E. apply list_elem_of_filter in E as [Hk Hin].
    simpl in Hk; subst. split; [|by eauto].
    intros _. apply list_elem_of_fmap. by exists (k, f).
  - rewrite lookup_empty. split; [by intros [? ?]|].
    intros ((k' & f) & Hk & Hin)%list_elem_of_fmap. simpl in Hk. subst k'.
    apply last_None in E.
    assert ((k, f) ∈ filter (fun kf : string * Field => kf.1 = k) (keyedFrom after 0)) as Hf
      by (by apply list_elem_of_filter).
    rewrite E in Hf. by apply elem_of_nil in Hf.
Qed.

Lemma afterMembers_Some after k af :
  afterMembers after 0 ∅ !! k = Some af ->
  exists j, after !! j = Some af /\ fieldKey af j = k.
Proof.
  rewrite afterMembers_lookup.
  destruct (last _) as [[k' f]|] eqn:E; [|by rewrite lookup_empty].
  intros [= ->]. apply last_Some_elem_of in E.
  apply list_elem_of_filter in E as [Hk Hin]. simpl in Hk; subst.
  apply elem_of_keyedFrom in Hin as (j & Hj & ->). by exists j.
Qed.

Lemma afterMembers_NoDup after j af :
  NoDup (fieldKeys after) ->
  after !! j = Some af ->
  afterMembers after 0 ∅ !! fieldKey af j = Some af.
Proof.
  intros Hnd Hj.
  destruct (afterMembers after 0 ∅ !! fieldKey af j) as [af'|] eqn:E.
  - apply afterMembers_Some in E as (j' & Hj' & Hk).
    assert (j' = j) as ->; [|congruence].
    eapply NoDup_lookup; [exact Hnd| |].
    + unfold fieldKeys. by erewrite keysFrom_lookup.
    + unfold fieldKeys. erewrite keysFrom_lookup by done. simpl. by rewrite Hk.
  - assert (is_Some (afterMembers after 0 ∅ !! fieldKey af j)) as [? ?]; [|congruence].
    apply afterMembers_is_Some. unfold fieldKeys.
    eapply list_elem_of_lookup_2. by erewrite keysFrom_lookup.
Qed.

Lemma diffBefore_spec (eq : Expr -> Expr -> res bool) (eqb : Expr -> Expr -> bool)
    (M : gmap string Field) (before : list Field) :
  forall (i : nat) (m : gmap string Field) (r : diffResult) (seen : list string),
  (forall k, m !! k = if bool_decide (k ∈ seen) then None else M !! k) ->
  (forall bf af, (bf, Some af) ∈ matchesFrom M seen before i ->
     eq (Field_Type bf) (Field_Type af) = Ok (eqb (Field_Type bf) (Field_Type af))) ->
  exists m',
    diffBefore eq before i m r
      = Ok (m', mkDiffResult (added r)
                  (removed r ++ removedOf (matchesFrom M seen before i))
                  (modified r ++ modifiedOf eqb (matchesFrom M seen before i))) /\
    (forall k, m' !! k = if bool_decide (k ∈ keysFrom before i ++ seen)
                          then None else M !! k).
Proof.
  induction before as [|bf rest IH]; intros i m r seen Hm Heq.
  - exists m. simpl. rewrite !app_nil_r. by destruct r.
  - simpl. set (k0 := fieldKey bf i).
    assert (forall (X : Type) (x y : X) k,
      (if bool_decide (k ∈ keysFrom rest (S i) ++ k0 :: seen) then x else y)
      = (if bool_decide (k ∈ k0 :: keysFrom rest (S i) ++ seen) then x else y)) as Hperm.
    { intros X x y k. erewrite bool_decide_ext; [done|].
      rewrite !elem_of_cons, !elem_of_app, !elem_of_cons. tauto. }
    assert (forall bf0 af, (bf0, Some af) ∈ matchesFrom M (k0 :: seen) rest (S i) ->
      eq (Field_Type bf0) (Field_Type af) = Ok (eqb (Field_Type bf0) (Field_Type af)))
      as Heq' by (intros; eapply Heq; simpl; by right).
    rewrite (Hm k0). unfold removedOf, modifiedOf. simpl.
    destruct (bool_decide (k0 ∈ seen)) eqn:Hseen; simpl.
    + destruct (IH (S i) m (mkDiffResult (added r) (removed r ++ [bf]) (modified r))
                  (k0 :: seen)) as (m' & Hrun & Hm'); [|done|].
      { intros k. rewrite Hm. apply bool_decide_eq_true in Hseen.
        destruct (decide (k = k0)) as [->|Hne].
        - rewrite !bool_decide_true; [done|by left|done].
        - erewrite (bool_decide_ext (k ∈ k0 :: seen)); [done|].
          rewrite elem_of_cons. tauto. }
      exists m'. split; [|by intros k; rewrite <-Hperm].
      rewrite Hrun. simpl. by rewrite <-!app_assoc.
    + apply bool_decide_eq_false in Hseen.
      destruct (M !! k0) as [af|] eqn:HM; simpl.
      * rewrite (Heq bf af).
        2:{ simpl. fold k0. rewrite bool_decide_false by done. rewrite HM. by left. }
        simpl.
        destruct (IH (S i) (delete k0 m)
          (if eqb (Field_Type bf) (Field_Type af) then r
           else mkDiffResult (added r) (removed r) (modified r ++ [(bf, af)]))
          (k0 :: seen)) as (m' & Hrun & Hm'); [|done|].
        { intros k. destruct (decide (k = k0)) as [->|Hne].
          - rewrite lookup_delete_eq, bool_decide_true; [done|by left].
          - rewrite lookup_delete_ne by done. rewrite Hm.
            erewrite (bool_decide_ext (k ∈ k0 :: seen)); [done|].
            rewrite elem_of_cons. tauto. }
        exists m'. split; [|by intros k; rewrite <-Hperm].
        rewrite Hrun. unfold removedOf, modifiedOf.
        destruct (eqb (Field_Type bf) (Field_Type af)); simpl; [done|].
        by rewrite <-!app_assoc.
      * destruct (IH (S i) m (mkDiffResult (added r) (removed r ++ [bf]) (modified r))
                  (k0 :: seen)) as (m' & Hrun & Hm'); [|done|].
        { intros k. rewrite Hm. destruct (decide (k = k0)) as [->|Hne].
          - rewrite bool_decide_false by done. rewrite HM.
            by destruct (bool_decide _).
          - erewrite (bool_decide_ext (k ∈ k0 :: seen)); [done|].
          rewrite elem_of_cons. tauto. }
        exists m'. split; [|by intros k; rewrite <-Hperm].
        rewrite Hrun. simpl. by rewrite <-!app_assoc.
Qed.

(** [diffFields] in closed form, whenever the comparisons it makes return. *)
Lemma diffFields_eq (eq : Expr -> Expr -> res bool) (eqb : Expr -> Expr -> bool)
    (before after : list Field) :
  returnsOn eq eqb before after ->
  diffFields eq before after
    = Ok (mkDiffResult ((map_to_list (remaining before after)).*2)
            (removedOf (matches before after))
            (modifiedOf eqb (matches before after))).
Proof.
  intros Hret. unfold diffFields.
  destruct (diffBefore_spec eq eqb (afterMembers after 0 ∅) before 0
              (afterMembers after 0 ∅) emptyDiff [])
    as (m' & Hrun & Hm').
  { intros k. by rewrite bool_decide_false by apply not_elem_of_nil. }
  { exact Hret. }
  rewrite Hrun. simpl.
  assert (m' = remaining before after) as ->; [|done].
  apply map_eq. intros k. rewrite Hm'. rewrite app_nil_r.
  unfold remaining. rewrite map_lookup_filter.
  destruct (afterMembers after 0 ∅ !! k) as [af|] eqn:E; simpl.
  - case_bool_decide as Hk.
    + rewrite option_guard_False; [done|]. simpl. by intros ?.
    + by rewrite option_guard_True.
  - by case_bool_decide.
Qed.

Lemma matchesFrom_length M seen fs i : length (matchesFrom M seen fs i) = length fs.
Proof.
  revert seen i; induction fs as [|f fs IH]; intros seen i; simpl; [done|by rewrite IH].
Qed.

Lemma matchesFrom_lookup M fs : forall seen i j bf,
  fs !! j = Some bf ->
  matchesFrom M seen fs i !! j
  = Some (bf, if bool_decide (fieldKey bf (i + j) ∈ keysFrom (take j fs) i ++ seen)
              then None else M !! fieldKey bf (i + j)).
Proof.
  induction fs as [|f fs IH]; intros seen i [|j] bf Hj; simplify_eq/=.
  - by rewrite Nat.add_0_r.
  - rewrite (IH _ _ _ _ Hj). replace (S i + j) with (i + S j) by lia.
    do 2 f_equal. erewrite bool_decide_ext; [done|].
    rewrite !elem_of_cons, !elem_of_app, !elem_of_cons. tauto.
Qed.

(** Every before-field is matched once, in order. *)
Lemma matchesFrom_fst M seen fs i : (matchesFrom M seen fs i).*1 = fs.
Proof.
  revert seen i; induction fs as [|f fs IH]; intros seen i; simpl; [done|by rewrite IH].
Qed.

Lemma matches_fst before after : (matches before after).*1 = before.
Proof. apply matchesFrom_fst. Qed.

Lemma elem_of_matches before after bf x :
  (bf, x) ∈ matches before after <->
  exists j, before !! j = Some bf /\
    x = if bool_decide (fieldKey bf j ∈ fieldKeys (take j before))
        then None else afterMembers after 0 ∅ !! fieldKey bf j.
Proof.
  unfold matches. split.
  - intros (j & Hj)%list_elem_of_lookup_1.
    assert (is_Some (before !! j)) as [bf' Hbf'].
    { apply lookup_lt_is_Some. apply lookup_lt_Some in Hj.
      by rewrite matchesFrom_length in Hj. }
    rewrite (matchesFrom_lookup _ _ _ _ _ _ Hbf') in Hj. simpl in Hj.
    rewrite app_nil_r in Hj. injection Hj as -> <-. by exists j.
  - intros (j & Hj & ->). eapply list_elem_of_lookup_2.
    rewrite (matchesFrom_lookup _ _ _ _ _ _ Hj). simpl. by rewrite app_nil_r.
Qed.

Lemma matches_aligned before after :
  NoDup (fieldKeys before) -> NoDup (fieldKeys after) -> aligned before after ->
  matches before after
  = zip_with (fun b a => (b, Some a)) before after
    ++ ((fun b => (b, None)) <$> drop (length after) before).
Proof.
  intros Hb Ha Hal. apply list_eq. intros j. unfold matches.
  destruct (before !! j) as [bf|] eqn:Hbf.
  - rewrite (matchesFrom_lookup _ _ _ _ _ _ Hbf). simpl. rewrite app_nil_r.
    rewrite bool_decide_false.
    2:{ intros (j' & Hj')%list_elem_of_lookup_1.
        assert (j' < j) as Hlt.
        { apply lookup_lt_Some in Hj'. rewrite keysFrom_length, length_take in Hj'. lia. }
        assert (j' = j); [|lia].
        eapply (NoDup_lookup _ _ _ _ Hb); unfold fieldKeys.
        - assert (keysFrom before 0 !! j' = keysFrom (take j before ++ drop j before) 0 !! j')
            as -> by (by rewrite take_drop).
          rewrite keysFrom_app, lookup_app_l; [exact Hj'|].
          by apply lookup_lt_Some in Hj'.
        - by erewrite keysFrom_lookup. }
    destruct (after !! j) as [af|] eqn:Haf.
    + rewrite lookup_app_l.
      2:{ rewrite length_zip_with. apply lookup_lt_Some in Hbf, Haf. lia. }
      rewrite lookup_zip_with, Hbf. simpl. rewrite Haf. simpl.
      rewrite (Hal _ _ _ Hbf Haf). by rewrite afterMembers_NoDup.
    + apply lookup_ge_None in Haf.
      rewrite lookup_app_r; rewrite length_zip_with.
      2:{ apply lookup_lt_Some in Hbf. lia. }
      apply lookup_lt_Some in Hbf as Hlt.
      rewrite list_lookup_fmap, lookup_drop.
      replace (length after + (j - length before `min` length after)) with j by lia.
      rewrite Hbf. simpl.
      destruct (afterMembers after 0 ∅ !! fieldKey bf j) as [af|] eqn:E; [|done].
      apply afterMembers_Some in E as (j' & Hj' & Hk).
      apply lookup_lt_Some in Hj' as Hlt'.
      destruct (lookup_lt_is_Some_2 before j') as [bf' Hbf']; [lia|].
      assert (j' = j); [|lia].
      eapply (NoDup_lookup _ _ _ _ Hb); unfold fieldKeys.
      * by erewrite keysFrom_lookup.
      * erewrite keysFrom_lookup by done. simpl.
        by rewrite <-Hk, (Hal _ _ _ Hbf' Hj').
  - apply lookup_ge_None in Hbf.
    rewrite !(proj2 (lookup_ge_None _ _)); [done| |].
    + rewrite length_app, length_zip_with, length_fmap, length_drop. lia.
    + by rewrite matchesFrom_length.
Qed.

Lemma keyedFrom_app fs gs i :
  keyedFrom (fs ++ gs) i = keyedFrom fs i ++ keyedFrom gs (i + length fs).
Proof.
  revert i; induction fs as [|f fs IH]; intros i; simpl.
  - by rewrite Nat.add_0_r.
  - rewrite IH. do 3 f_equal. lia.
Qed.

Lemma elem_of_fieldKeys fs k :
  k ∈ fieldKeys fs <-> exists j f, fs !! j = Some f /\ k = fieldKey f j.
Proof.
  unfold fieldKeys. rewrite <-keyedFrom_fst, list_elem_of_fmap. split.
  - intros ([k' f] & -> & (j & Hj & ->)%elem_of_keyedFrom). by exists j, f.
  - intros (j & f & Hj & ->). exists (fieldKey f j, f). split; [done|].
    apply elem_of_keyedFrom. by exists j.
Qed.

Lemma remaining_lookup before after k af :
  remaining before after !! k = Some af <->
  afterMembers after 0 ∅ !! k = Some af /\ k ∉ fieldKeys before.
Proof. unfold remaining. by rewrite map_lookup_filter_Some. Qed.

(** Something is added exactly when an after-key is no before-key. *)
Lemma added_nil_iff before after :
  (map_to_list (remaining before after)).*2 = [] <->
  (forall k, k ∈ fieldKeys after -> k ∈ fieldKeys before).
Proof.
  assert ((map_to_list (remaining before after)).*2 = [] <-> remaining before after = ∅) as ->.
  { rewrite <-map_to_list_empty_iff. split; [apply fmap_nil_inv|by intros ->]. }
  split.
  - intros Hempty k Hk. apply afterMembers_is_Some in Hk as [af Haf].
    destruct (decide (k ∈ fieldKeys before)) as [|Hn]; [done|].
    assert (remaining before after !! k = Some af) as Hl
      by (by apply remaining_lookup).
    by rewrite Hempty, lookup_empty in Hl.
  - intros Hsub. apply map_eq. intros k. rewrite lookup_empty.
    destruct (remaining before after !! k) as [af|] eqn:E; [|done].
    apply remaining_lookup in E as [Haf Hk]. exfalso. apply Hk, Hsub.
    apply afterMembers_is_Some. by eexists.
Qed.

(** With distinct after-keys, the added fields are the after-fields whose
    key is no before-key. *)
Lemma added_Permutation before after :
  NoDup (fieldKeys after) ->
  (map_to_list (remaining before after)).*2 ≡ₚ addedOf before after.
Proof.
  intros Hnd. unfold addedOf. apply fmap_Permutation.
  apply NoDup_Permutation.
  - apply NoDup_map_to_list.
  - apply NoDup_filter. apply (NoDup_fmap_1 fst). by rewrite keyedFrom_fst.
  - intros [k af]. rewrite elem_of_map_to_list, remaining_lookup.
    rewrite list_elem_of_filter, elem_of_keyedFrom. simpl. split.
    + intros [(j & Hj & <-)%afterMembers_Some Hk]. split; [done|]. by exists j.
    + intros [Hk (j & Hj & ->)]. split; [|done]. by apply afterMembers_NoDup.
Qed.

Lemma addedOf_aligned before after :
  NoDup (fieldKeys after) -> aligned before after ->
  addedOf before after = drop (length before) after.
Proof.
  intros Hnd Hal. unfold addedOf.
  rewrite <-(take_drop (length before) after) at 1.
  rewrite keyedFrom_app, filter_app, fmap_app. simpl.
  assert (filter (fun kf : string * Field => kf.1 ∉ fieldKeys before)
            (keyedFrom (take (length before) after) 0) = []) as ->.
  { apply elem_of_nil_inv. intros [k af].
    rewrite list_elem_of_filter, elem_of_keyedFrom. simpl.
    intros [Hk (j & Hj & ->)]. apply Hk.
    apply lookup_take_Some in Hj as [Hj Hlt].
    destruct (lookup_lt_is_Some_2 before j Hlt) as [bf Hbf].
    apply elem_of_fieldKeys. exists j, bf. split; [done|].
    symmetry. by apply Hal. }
  simpl.
  assert (forall (l : list (string * Field)),
    (forall kf, kf ∈ l -> kf.1 ∉ fieldKeys before) ->
    filter (fun kf : string * Field => kf.1 ∉ fieldKeys before) l = l) as Hid.
  { induction l as [|x l IH]; intros Hall; [done|].
    rewrite filter_cons_True by (apply Hall; by left).
    rewrite IH; [done|]. intros; apply Hall; by right. }
  rewrite Hid; [by rewrite keyedFrom_snd|].
  intros [k af]. rewrite elem_of_keyedFrom. simpl. intros (j & Hj & ->).
  rewrite lookup_drop in Hj.
  intros (j' & bf & Hbf & Hk)%elem_of_fieldKeys.
  apply lookup_lt_Some in Hbf as Hlt, Hj as Hlt2.
  rewrite length_take in *.
  destruct (lookup_lt_is_Some_2 after j') as [af' Haf']; [lia|].
  replace (length before `min` length after) with (length before) in Hk by lia.
  assert (length before + j = j'); [|lia].
  eapply (NoDup_lookup _ _ _ _ Hnd); unfold fieldKeys.
  - by erewrite keysFrom_lookup.
  - erewrite keysFrom_lookup by done. simpl.
    by rewrite Hk, (Hal _ _ _ Hbf Haf').
Qed.

Lemma removedOf_app ms1 ms2 : removedOf (ms1 ++ ms2) = removedOf ms1 ++ removedOf ms2.
Proof. apply omap_app. Qed.

Lemma modifiedOf_app eqb ms1 ms2 :
  modifiedOf eqb (ms1 ++ ms2) = modifiedOf eqb ms1 ++ modifiedOf eqb ms2.
Proof. apply omap_app. Qed.

Lemma removedOf_matched before after :
  removedOf (zip_with (fun b a => (b, Some a)) before after) = [].
Proof.
  revert after; induction before as [|b before IH]; intros [|a after]; simpl; auto.
Qed.

Lemma removedOf_unmatched fs : removedOf ((fun b => (b, None)) <$> fs) = fs.
Proof. induction fs as [|f fs IH]; [done|]. rewrite fmap_cons. unfold removedOf in *. simpl. by f_equal. Qed.

Lemma modifiedOf_unmatched eqb fs : modifiedOf eqb ((fun b => (b, None)) <$> fs) = [].
Proof. induction fs as [|f fs IH]; [done|]. rewrite fmap_cons. unfold modifiedOf in *. by simpl. Qed.

Lemma modifiedOf_matched eqb before after :
  modifiedOf eqb (zip_with (fun b a => (b, Some a)) before after)
  = differing eqb before after.
Proof.
  unfold differing.
  revert after; induction before as [|b before IH]; intros [|a after]; simpl; try done.
  unfold modifiedOf in *. simpl.
  destruct (eqb (Field_Type b) (Field_Type a)) eqn:E; simpl.
  - rewrite filter_cons_False by (simpl; congruence). apply IH.
  - rewrite filter_cons_True by done. f_equal. apply IH.
Qed.

(** On aligned lists with distinct keys the diff is positional. *)
Lemma diffFields_aligned (eq : Expr -> Expr -> res bool) (eqb : Expr -> Expr -> bool)
    (before after : list Field) :
  NoDup (fieldKeys before) -> NoDup (fieldKeys after) -> aligned before after ->
  (forall j bf af, before !! j = Some bf -> after !! j = Some af ->
     eq (Field_Type bf) (Field_Type af) = Ok (eqb (Field_Type bf) (Field_Type af))) ->
  exists r,
    diffFields eq before after = Ok r /\
    added r ≡ₚ drop (length before) after /\
    removed r = drop (length after) before /\
    modified r = differing eqb before after.
Proof.
  intros Hb Ha Hal Heq.
  eexists. split; [|split_and!].
  - apply (diffFields_eq eq eqb). intros bf af.
    rewrite matches_aligned by done. rewrite elem_of_app.
    intros [Hin|Hin].
    + apply list_elem_of_lookup_1 in Hin as (j & Hj).
      apply lookup_zip_with_Some in Hj as (b & a & [= -> ->] & Hbj & Haj).
      by eapply Heq.
    + apply list_elem_of_fmap in Hin as (b & [=] & _).
  - simpl. rewrite added_Permutation by done. by rewrite addedOf_aligned.
  - simpl. rewrite matches_aligned by done.
    by rewrite removedOf_app, removedOf_matched, removedOf_unmatched.
  - simpl. rewrite matches_aligned by done.
    by rewrite modifiedOf_app, modifiedOf_matched, modifiedOf_unmatched, app_nil_r.
Qed.

Lemma keysFrom_stripNames fs i :
  keysFrom (stripNames fs) i = pretty <$> seq i (length fs).
Proof.
  revert i; induction fs as [|f fs IH]; intros i; simpl; [done|]. by rewrite IH.
Qed.

Lemma NoDup_fieldKeys_stripNames fs : NoDup (fieldKeys (stripNames fs)).
Proof.
  unfold fieldKeys. rewrite keysFrom_stripNames.
  apply NoDup_fmap_2; [apply _|apply NoDup_seq].
Qed.

Lemma aligned_stripNames fs gs : aligned (stripNames fs) (stripNames gs).
Proof.
  intros j bf af Hb Ha. unfold stripNames in *.
  rewrite list_lookup_fmap in Hb, Ha.
  destruct (fs !! j), (gs !! j); simplify_eq/=. done.
Qed.


Lemma keyedFrom_lookup fs i j :
  keyedFrom fs i !! j = (fun f => (fieldKey f (i + j), f)) <$> fs !! j.
Proof.
  revert i j; induction fs as [|f fs IH]; intros i [|j]; simpl; try done.
  - by rewrite Nat.add_0_r.
  - rewrite IH. replace (S i + j) with (i + S j) by lia. done.
Qed.




Lemma outcomes_length eqb (ms : list (Field * option Field)) :
  length (removedOf ms) + length (modifiedOf eqb ms) + length (unchangedOf eqb ms)
  = length ms.
Proof.
  unfold removedOf, modifiedOf, unchangedOf.
  induction ms as [|[bf [af|]] ms IH]; [done|..];
    cbn [omap list_omap fst snd]; [|cbn [length]; lia].
  destruct (eqb _ _); cbn [length]; lia.
Qed.





Lemma length_pos_iff {A} (l : list A) : bool_decide (0 < length l) = true <-> l <> [].
Proof.
  rewrite bool_decide_eq_true. destruct l; simpl; split; try done; try lia.
Qed.

Lemma length_pos_false {A} (l : list A) : bool_decide (0 < length l) = false <-> l = [].
Proof.
  rewrite bool_decide_eq_false. destruct l; simpl; split; try done; try lia.
Qed.

Lemma removedOf_nil_iff (ms : list (Field * option Field)) :
  removedOf ms = [] <-> forall bf, (bf, None) ∉ ms.
Proof.
  unfold removedOf. induction ms as [|[bf [af|]] ms IH]; cbn [omap list_omap fst snd].
  - split; [|done]. intros _ bf Hin. by apply elem_of_nil in Hin.
  - rewrite IH. split.
    + intros Hall bf' [[=]|Hin]%elem_of_cons. by eapply Hall.
    + intros Hall bf' Hin. eapply Hall. by right.
  - split; [done|]. intros Hall. exfalso. eapply Hall. by left.
Qed.

Lemma modifiedOf_nil_iff eqb (ms : list (Field * option Field)) :
  modifiedOf eqb ms = [] <->
  forall bf af, (bf, Some af) ∈ ms -> eqb (Field_Type bf) (Field_Type af) = true.
Proof.
  unfold modifiedOf. induction ms as [|[bf [af|]] ms IH]; cbn [omap list_omap fst snd].
  - split; [|done]. intros _ bf af Hin. by apply elem_of_nil in Hin.
  - destruct (eqb (Field_Type bf) (Field_Type af)) eqn:E.
    + rewrite IH. split.
      * intros Hall bf' af' [[= -> ->]|Hin]%elem_of_cons; [done|]. by apply Hall.
      * intros Hall bf' af' Hin. apply Hall. by right.
    + split; [done|]. intros Hall. rewrite Hall in E; [done|by left].
  - rewrite IH. split.
    + intros Hall bf' af' [[=]|Hin]%elem_of_cons. by apply Hall.
    + intros Hall bf' af' Hin. apply Hall. by right.
Qed.

(** [checkInterface] by the three questions it asks of the diff. *)
Lemma checkInterface_cases (eq : Expr -> Expr -> res bool) (eqb : Expr -> Expr -> bool)
    (before after : list Field) :
  returnsOn eq eqb before after ->
  let result := checkInterface eq (mkInterfaceType before) (mkInterfaceType after) in
  ((exists k, k ∈ fieldKeys after /\ k ∉ fieldKeys before) ->
     result = Ok (breaking "members added")) /\
  ((forall k, k ∈ fieldKeys after -> k ∈ fieldKeys before) ->
     ((exists bf af, (bf, Some af) ∈ matches before after /\
                     eqb (Field_Type bf) (Field_Type af) = false) ->
        result = Ok (breaking "members changed types")) /\
     ((forall bf af, (bf, Some af) ∈ matches before after ->
                     eqb (Field_Type bf) (Field_Type af) = true) ->
        ((exists bf, (bf, None) ∈ matches before after) ->
           result = Ok (nonBreaking "members removed")) /\
        ((forall bf, (bf, None) ∉ matches before after) ->
           result = Ok none))).
Proof.
  intros Hret result. subst result. unfold checkInterface. simpl.
  rewrite (diffFields_eq eq eqb) by done. simpl. unfold Added, Modified, Removed. simpl.
  split; [|intros Hsub; split; [|intros Hsame; split]].
  - intros (k & Ha & Hb).
    rewrite (proj2 (length_pos_iff _)); [done|].
    intros Hnil. apply Hb. by apply (proj1 (added_nil_iff _ _) Hnil).
  - intros (bf & af & Hin & Hne).
    rewrite (proj2 (length_pos_false _)) by (by apply added_nil_iff).
    rewrite (proj2 (length_pos_iff _)); [done|].
    intros Hnil. rewrite (proj1 (modifiedOf_nil_iff _ _) Hnil _ _ Hin) in Hne. done.
  - intros (bf & Hin).
    rewrite (proj2 (length_pos_false _)) by (by apply added_nil_iff).
    rewrite (proj2 (length_pos_false _)) by (by apply modifiedOf_nil_iff).
    rewrite (proj2 (length_pos_iff _)); [done|].
    intros Hnil. by eapply (proj1 (removedOf_nil_iff _) Hnil).
  - intros Hnone.
    rewrite (proj2 (length_pos_false _)) by (by apply added_nil_iff).
    rewrite (proj2 (length_pos_false _)) by (by apply modifiedOf_nil_iff).
    rewrite (proj2 (length_pos_false _)) by (by apply removedOf_nil_iff).
    done.
Qed.


End DiffFacts.

Section CheckFacts.
Context {ext : External}.

(** C1: when the kinds of the two declarations differ, [Check] answers
    [Breaking] at once: for every checker and with a recursion budget of any
    size, zero included, so that no type expression is compared; the message
    is one of the three kind-change messages. *)
Theorem C1_kind_change_is_breaking (before after : Decl) (kb ka : Kind) :
  declKind before = Some kb ->
  declKind after = Some ka ->
  kb <> ka ->
  exists msg,
    msg ∈ ["changed declaration"; "changed spec"; "changed type of value spec"] /\
    forall (c : DeclChecker) (n : nat),
      Check c n before after = Ok (breaking msg) /\
      Change (breaking msg) = Breaking.
Proof.
  intros Hb Ha Hne.
  destruct before as [|bt [|[bp|bn bty bv|bn bty] bss]| |br bn bty bb];
    simpl in Hb; try discriminate;
  destruct after as [|at_ [|[ap|an aty av|an aty] ass]| |ar an aty ab];
    simpl in Ha; try discriminate;
  simplify_eq;
  try (exists "changed declaration"; split; [by left|];
       intros c n; split; reflexivity);
  try (exists "changed spec"; split; [by right; left|];
       intros c n; split; reflexivity);
  try congruence.
  exists "changed type of value spec". split; [by right; right; left|]. intros c n.
  split; [|reflexivity].
  unfold Check. simpl.
  rewrite bool_decide_false by congruence. reflexivity.
Qed.

(** C10: two type declarations whose type expressions have the same dynamic
    type, which is none of struct, interface and identifier, compare as "no
    change", whatever the two expressions are. *)
Theorem C10_other_underlying_types_none (c : DeclChecker) (n : nat)
    (btok atok : Token) (bname aname : Ident) (bType aType : Expr)
    (brest arest : list Spec) :
  reflect_TypeOf_Expr bType = reflect_TypeOf_Expr aType ->
  reflect_TypeOf_Expr bType ∉ [TStructType; TInterfaceType; TIdent] ->
  Check c n (GenDecl btok (TypeSpec bname bType :: brest))
            (GenDecl atok (TypeSpec aname aType :: arest)) = Ok none.
Proof.
  intros Hsame Hother. unfold Check. simpl.
  rewrite bool_decide_true by done. simpl.
  destruct bType, aType; simpl in *; try discriminate; try reflexivity;
    exfalso; apply Hother; repeat first [by left | right].
Qed.

End CheckFacts.

(** *** The recursion budget *)

Section FuelFacts.
Context {ext : External}.
Variables eq1 eq2 : Expr -> Expr -> res bool.
Hypothesis Hext : extends eq1 eq2.

Ltac fuel_step H :=
  match type of H with
  | context [mbind _ (eq1 ?b ?a)] =>
      let E := fresh "E" in
      destruct (eq1 b a) eqn:E; simpl in H;
      [ rewrite (Hext b a) by (rewrite E; discriminate); rewrite E; simpl
      | rewrite (Hext b a) by (rewrite E; discriminate); rewrite E; simpl
      | rewrite (Hext b a) by (rewrite E; discriminate); rewrite E; simpl
      | done ]
  end.

Lemma diffBefore_extends before : forall i m r,
  diffBefore eq1 before i m r <> OutOfFuel ->
  diffBefore eq2 before i m r = diffBefore eq1 before i m r.
Proof.
  induction before as [|bf rest IH]; intros i m r H; simpl in *; [done|].
  destruct (m !! fieldKey bf i) as [af|]; [|by apply IH].
  fuel_step H; try done. by apply IH.
Qed.

Lemma diffFields_extends before after :
  diffFields eq1 before after <> OutOfFuel ->
  diffFields eq2 before after = diffFields eq1 before after.
Proof.
  unfold diffFields. intros H.
  rewrite diffBefore_extends; [done|].
  intros E. by rewrite E in H.
Qed.

Lemma checkChan_extends before after :
  checkChan eq1 before after <> OutOfFuel ->
  checkChan eq2 before after = checkChan eq1 before after.
Proof. unfold checkChan. intros H. fuel_step H; done. Qed.

Lemma checkInterface_extends before after :
  checkInterface eq1 before after <> OutOfFuel ->
  checkInterface eq2 before after = checkInterface eq1 before after.
Proof.
  unfold checkInterface. intros H.
  rewrite diffFields_extends; [done|]. intros E. by rewrite E in H.
Qed.

Lemma checkStruct_extends before after :
  checkStruct eq1 before after <> OutOfFuel ->
  checkStruct eq2 before after = checkStruct eq1 before after.
Proof.
  unfold checkStruct. intros H.
  rewrite diffFields_extends; [done|]. intros E. by rewrite E in H.
Qed.

Lemma interfaceCompatible_extends c mods : forall i compatible msg,
  interfaceCompatible eq1 c mods i compatible msg <> OutOfFuel ->
  interfaceCompatible eq2 c mods i compatible msg
  = interfaceCompatible eq1 c mods i compatible msg.
Proof.
  induction mods as [|md mods IH]; intros i compatible msg H; simpl in *; [done|].
  destruct (TypeOf (binfo c) _) as [bt|]; [|by apply IH].
  destruct (TypeOf (ainfo c) _) as [at_|]; [|by apply IH].
  destruct (_ && _); [|by apply IH].
  destruct (exprInterfaceType _ _) as [bint| | |]; simpl in *; try done.
  destruct (exprInterfaceType _ _) as [aint| | |]; simpl in *; try done.
  rewrite checkInterface_extends.
  2:{ intros E. by rewrite E in H. }
  destruct (checkInterface eq1 _ _) as [change| | |]; simpl in *; try done.
  destruct (negb (String.eqb _ _)); by apply IH.
Qed.

Lemma checkFunc_extends c before after :
  checkFunc eq1 c before after <> OutOfFuel ->
  checkFunc eq2 c before after = checkFunc eq1 c before after.
Proof.
  unfold checkFunc. intros H.
  rewrite diffFields_extends.
  2:{ intros E. by rewrite E in H. }
  destruct (diffFields eq1 _ _) as [r| | |]; simpl in *; try done.
  destruct (RemoveVariadicCompatible c r) as [r1 vmsg].
  unfold RemoveInterfaceCompatible in *.
  rewrite interfaceCompatible_extends.
  2:{ intros E. by rewrite E in H. }
  destruct (interfaceCompatible eq1 c _ _ _ _) as [[cs imsg]| | |]; simpl in *; try done.
  destruct (removeModified r1 cs) as [r2| | |]; simpl in *; try done.
  destruct (Changed r2); [done|].
  destruct (FuncType_Results before) as [bres|]; [|done].
  destruct (FuncType_Results after) as [ares|]; [|done].
  destruct (bool_decide _); [|done].
  rewrite diffFields_extends; [done|].
  intros E. by rewrite E in H.
Qed.

End FuelFacts.

Section FuelFacts2.
Context {ext : External}.

Lemma notBreaking_OutOfFuel (r : res DeclChange) :
  notBreaking r <> OutOfFuel -> r <> OutOfFuel.
Proof. by destruct r. Qed.

(** More fuel does not change an answer of [exprEqual]. *)
Lemma exprEqual_S (c : DeclChecker) (n : nat) :
  extends (exprEqual c n) (exprEqual c (S n)).
Proof.
  induction n as [|n IH]; intros b a H; [done|].
  change (exprEqual c (S (S n)) b a) with
    (if negb (bool_decide (reflect_TypeOf_Expr b = reflect_TypeOf_Expr a))
     then Ok false
     else match b, a with
          | ChanTypeE b, ChanTypeE a => notBreaking (checkChan (exprEqual c (S n)) b a)
          | FuncTypeE b, FuncTypeE a => notBreaking (checkFunc (exprEqual c (S n)) c b a)
          | _, _ => Ok (String.eqb (TypeString (TypeOf (binfo c) b))
                                   (TypeString (TypeOf (ainfo c) a)))
          end).
  change (exprEqual c (S n) b a) with
    (if negb (bool_decide (reflect_TypeOf_Expr b = reflect_TypeOf_Expr a))
     then Ok false
     else match b, a with
          | ChanTypeE b, ChanTypeE a => notBreaking (checkChan (exprEqual c n) b a)
          | FuncTypeE b, FuncTypeE a => notBreaking (checkFunc (exprEqual c n) c b a)
          | _, _ => Ok (String.eqb (TypeString (TypeOf (binfo c) b))
                                   (TypeString (TypeOf (ainfo c) a)))
          end) in *.
  destruct (negb _); [done|].
  destruct b, a; try done.
  - rewrite (checkFunc_extends _ _ IH); [done|]. by apply notBreaking_OutOfFuel.
  - rewrite (checkChan_extends _ _ IH); [done|]. by apply notBreaking_OutOfFuel.
Qed.

Lemma exprEqual_fuel_mono (c : DeclChecker) (n k : nat) :
  extends (exprEqual c n) (exprEqual c (n + k)).
Proof.
  induction k as [|k IH]; intros b a H.
  - by rewrite Nat.add_0_r.
  - replace (n + S k) with (S (n + k)) by lia.
    rewrite exprEqual_S; [by apply IH|]. by rewrite IH.
Qed.

(** More fuel does not change an answer of [Check]. *)
Lemma Check_fuel_mono (c : DeclChecker) (n k : nat) (before after : Decl) :
  Check c n before after <> OutOfFuel ->
  Check c (n + k) before after = Check c n before after.
Proof.
  pose proof (exprEqual_fuel_mono c n k) as Hext.
  unfold Check. destruct (negb _); [done|].
  destruct before as [|bt [|bs0 bss]| |br bn bty bb],
           after as [|at_ [|as0 ass]| |ar an aty ab]; try done.
  - destruct (negb _); [done|].
    destruct bs0, as0; try done.
    destruct (negb _); [done|].
    destruct Type_, Type_0; try done.
    + by apply checkStruct_extends.
    + by apply checkInterface_extends.
  - by apply checkFunc_extends.
Qed.

End FuelFacts2.

(** *** Interfaces *)

Section InterfaceFacts.
Context {ext : External}.

Lemma matches_one_two (a a' b : Ident) (tA tA' tB : Expr) :
  Name a = Name a' -> Name a <> Name b ->
  matches [mkField [a] tA] [mkField [a'] tA'; mkField [b] tB]
    = [(mkField [a] tA, Some (mkField [a'] tA'))] /\
  matches [mkField [a'] tA'; mkField [b] tB] [mkField [a] tA]
    = [(mkField [a'] tA', Some (mkField [a] tA)); (mkField [b] tB, None)].
Proof.
  intros Ha Hab. unfold matches.
  cbn [matchesFrom afterMembers fieldKey Field_Names]. split.
  - rewrite bool_decide_false by apply not_elem_of_nil.
    rewrite lookup_insert_ne by congruence. by rewrite Ha, lookup_insert_eq.
  - rewrite bool_decide_false by apply not_elem_of_nil.
    rewrite <-Ha, lookup_insert_eq.
    rewrite bool_decide_false by (rewrite list_elem_of_singleton; congruence).
    rewrite lookup_insert_ne by done. by rewrite lookup_empty.
Qed.

(** X29: for two declarations of interface types whose method comparisons
    return, [eqb] giving their answers: a method under a key that the before
    list does not have makes the change breaking "members added"; a method
    whose type compares as different from the type of the after method of its
    key makes it breaking; with neither, a method that finds no after method
    makes it non-breaking "members removed"; with none of the three the
    answer is "no change".  In particular [{A}] to [{A, B}] is breaking and
    [{A, B}] to [{A}] is non-breaking, when the types of the two [A] compare
    as equal. *)
Theorem Check_interface_members (c : DeclChecker) (n : nat) (bname aname : Ident)
    (before after : list Field) (eqb : Expr -> Expr -> bool) :
  returnsOn (exprEqual c n) eqb before after ->
  let result := Check c n (interfaceDecl bname before) (interfaceDecl aname after) in
  ((exists k, k ∈ fieldKeys after /\ k ∉ fieldKeys before) ->
     result = Ok (breaking "members added")) /\
  ((exists bf af, (bf, Some af) ∈ matches before after /\
                  eqb (Field_Type bf) (Field_Type af) = false) ->
     exists msg, result = Ok (breaking msg)) /\
  ((forall k, k ∈ fieldKeys after -> k ∈ fieldKeys before) ->
   (forall bf af, (bf, Some af) ∈ matches before after ->
                  eqb (Field_Type bf) (Field_Type af) = true) ->
     ((exists bf, (bf, None) ∈ matches before after) ->
        result = Ok (nonBreaking "members removed")) /\
     ((forall bf, (bf, None) ∉ matches before after) ->
        result = Ok none)) /\
  (forall (a a' b : Ident) (tA tA' tB : Expr),
     Name a = Name a' -> Name a <> Name b ->
     exprEqual c n tA tA' = Ok true -> exprEqual c n tA' tA = Ok true ->
     Check c n (interfaceDecl bname [mkField [a] tA])
               (interfaceDecl aname [mkField [a'] tA'; mkField [b] tB])
       = Ok (breaking "members added") /\
     Check c n (interfaceDecl bname [mkField [a'] tA'; mkField [b] tB])
               (interfaceDecl aname [mkField [a] tA])
       = Ok (nonBreaking "members removed")).
Proof.
  intros Hret result.
  assert (forall bs as_, Check c n (interfaceDecl bname bs) (interfaceDecl aname as_)
            = checkInterface (exprEqual c n) (mkInterfaceType bs) (mkInterfaceType as_))
    as HCheck by reflexivity.
  subst result. rewrite HCheck.
  destruct (checkInterface_cases (exprEqual c n) eqb before after Hret)
    as (Hadd & Hrest).
  split_and!.
  - exact Hadd.
  - intros Hmod.
    destruct ((map_to_list (remaining before after)).*2) as [|x l] eqn:E.
    + exists "members changed types".
      apply Hrest; [by apply added_nil_iff|done].
    + exists "members added". apply Hadd.
      destruct (decide (Forall (fun k => k ∈ fieldKeys before) (fieldKeys after)))
        as [Hall|Hex].
      * rewrite Forall_forall in Hall.
        apply added_nil_iff in Hall. by rewrite Hall in E.
      * apply not_Forall_Exists in Hex; [|apply _].
        apply Exists_exists in Hex as (k & ? & ?). by exists k.
  - intros Hsub Hsame. by apply Hrest.
  - intros a a' b tA tA' tB Ha Hab HeqA HeqA'.
    destruct (matches_one_two a a' b tA tA' tB Ha Hab) as [Hm1 Hm2].
    rewrite !HCheck. split.
    + apply (checkInterface_cases (exprEqual c n) (fun _ _ => true)).
      * intros bf af. rewrite Hm1. by intros [= -> ->]%list_elem_of_singleton.
      * exists (Name b). unfold fieldKeys. cbn [keysFrom fieldKey Field_Names].
        split.
        -- apply elem_of_cons. right. by apply list_elem_of_singleton.
        -- rewrite list_elem_of_singleton. congruence.
    + apply (checkInterface_cases (exprEqual c n) (fun _ _ => true)).
      * intros bf af. rewrite Hm2.
        intros [[= -> ->]|[=]%list_elem_of_singleton]%elem_of_cons. done.
      * intros k. unfold fieldKeys. cbn [keysFrom fieldKey Field_Names].
        rewrite list_elem_of_singleton. intros ->.
        apply elem_of_cons. by left.
      * done.
      * exists (mkField [b] tB). rewrite Hm2.
        apply elem_of_cons. right. by apply list_elem_of_singleton.
Qed.

End InterfaceFacts.

(** *** Structs *)

Section StructFacts.
Context {ext : External}.

Lemma unexportedIndexes_spec (mods : list (Field * Field)) :
  (forall md, md ∈ mods -> Field_Names (fst md) <> []) ->
  forall i acc, unexportedIndexes mods i acc = Ok (acc ++ unexportedAt mods i).
Proof.
  induction mods as [|md mods IH]; intros Hnamed i acc; simpl.
  - by rewrite app_nil_r.
  - assert (Field_Names md.1 <> []) as Hmd by (apply Hnamed; by left).
    unfold exportedFirst.
    destruct (Field_Names md.1) as [|n0 ns]; [done|].
    destruct (IsExported (Name n0)); simpl; rewrite IH;
      try (intros; apply Hnamed; by right); [done|by rewrite <-app_assoc].
Qed.

Lemma unexportedAt_bounds mods : forall i j, j ∈ unexportedAt mods i -> i <= j.
Proof.
  induction mods as [|md mods IH]; intros i j Hj; simpl in Hj.
  - by apply elem_of_nil in Hj.
  - apply elem_of_app in Hj as [Hj|Hj].
    + destruct (exportedFirst md.1); [by apply elem_of_nil in Hj|].
      apply list_elem_of_singleton in Hj. lia.
    + apply IH in Hj. lia.
Qed.

Lemma unexportedAt_Sorted mods i : Sorted Nat.le (unexportedAt mods i).
Proof.
  revert i; induction mods as [|md mods IH]; intros i; simpl; [constructor|].
  destruct (exportedFirst md.1); simpl; [apply IH|].
  constructor; [apply IH|].
  destruct (unexportedAt mods (S i)) as [|j l] eqn:E; constructor.
  assert (S i <= j); [|lia].
  apply (unexportedAt_bounds mods). rewrite E. by left.
Qed.

Lemma merge_sort_Sorted (l : list nat) : Sorted Nat.le l -> merge_sort Nat.le l = l.
Proof.
  intros Hs. apply (Sorted_unique Nat.le); [|done|apply merge_sort_Permutation].
  apply (Sorted_merge_sort Nat.le).
Qed.

Lemma removeAt_app (l1 l2 : list nat) : forall m,
  removeAt (l1 ++ l2) m = removeAt l1 m ≫= removeAt l2.
Proof.
  induction l1 as [|i l1 IH]; intros m; simpl; [done|].
  destruct (bool_decide _); [apply IH|done].
Qed.

Lemma removeAt_unexported (mods : list (Field * Field)) : forall pre,
  removeAt (reverse (unexportedAt mods (length pre))) (pre ++ mods)
  = Ok (pre ++ filter (fun md => exportedFirst (fst md) = true) mods).
Proof.
  induction mods as [|md mods IH]; intros pre; simpl; [done|].
  rewrite reverse_app, removeAt_app.
  specialize (IH (pre ++ [md])). rewrite length_app in IH. simpl in IH.
  replace (length pre + 1) with (S (length pre)) in IH by lia.
  rewrite <-app_assoc in IH. simpl in IH. rewrite IH. simpl.
  destruct (exportedFirst md.1) eqn:E; simpl.
  - rewrite filter_cons_True by exact E. by rewrite <-app_assoc.
  - rewrite filter_cons_False by (simpl; rewrite E; discriminate).
    set (F := filter (fun md0 : Field * Field => exportedFirst md0.1 = true) mods).
    rewrite bool_decide_true.
    2:{ rewrite !length_app. simpl. lia. }
    assert (take (length pre) ((pre ++ [md]) ++ F) = pre) as ->.
    { rewrite <-app_assoc. apply take_app_length. }
    assert (drop (S (length pre)) ((pre ++ [md]) ++ F) = F) as ->; [|done].
    apply drop_app_length'. rewrite length_app. simpl. lia.
Qed.

(** [RemoveUnexported] keeps the modified pairs whose before-field has an
    exported first name, provided every modified before-field has a name. *)
Lemma RemoveUnexported_named (d : diffResult) :
  (forall md, md ∈ modified d -> Field_Names (fst md) <> []) ->
  RemoveUnexported d
  = Ok (mkDiffResult (added d) (removed d)
          (filter (fun md => exportedFirst (fst md) = true) (modified d))).
Proof.
  intros Hnamed. unfold RemoveUnexported.
  rewrite unexportedIndexes_spec by done. simpl.
  unfold removeModified.
  rewrite merge_sort_Sorted by apply unexportedAt_Sorted.
  pose proof (removeAt_unexported (modified d) []) as Hrm. simpl in Hrm.
  by rewrite Hrm.
Qed.

(** It panics as soon as a modified before-field has no name. *)
Lemma unexportedIndexes_panics (mods1 mods2 : list (Field * Field)) (md : Field * Field) :
  (forall md', md' ∈ mods1 -> Field_Names (fst md') <> []) ->
  Field_Names (fst md) = [] ->
  forall i acc, unexportedIndexes (mods1 ++ md :: mods2) i acc = Panic "index out of range".
Proof.
  intros Hnamed Hmd. induction mods1 as [|md1 mods1 IH]; intros i acc; simpl.
  - by rewrite Hmd.
  - assert (Field_Names md1.1 <> []) as H1 by (apply Hnamed; by left).
    destruct (Field_Names md1.1); [done|].
    destruct (negb _); apply IH; intros; apply Hnamed; by right.
Qed.

Lemma elem_of_modifiedOf eqb (ms : list (Field * option Field)) bf af :
  (bf, af) ∈ modifiedOf eqb ms <->
  (bf, Some af) ∈ ms /\ eqb (Field_Type bf) (Field_Type af) = false.
Proof.
  unfold modifiedOf. rewrite list_elem_of_omap. split.
  - intros ([b [a|]] & Hin & Hsome); simpl in Hsome; [|done].
    destruct (eqb _ _) eqn:E; [done|]. by injection Hsome as -> ->.
  - intros [Hin E]. exists (bf, Some af). split; [done|]. simpl. by rewrite E.
Qed.

Lemma unexportedIndexes_unnamed (mods : list (Field * Field)) :
  (exists md, md ∈ mods /\ Field_Names (fst md) = []) ->
  forall i acc, unexportedIndexes mods i acc = Panic "index out of range".
Proof.
  induction mods as [|md mods IH]; intros (md' & Hin & Hmd') i acc.
  - by apply elem_of_nil in Hin.
  - simpl. destruct (Field_Names md.1) as [|n0 ns] eqn:E; [done|].
    apply elem_of_cons in Hin as [->|Hin]; [congruence|].
    destruct (negb _); apply IH; by exists md'.
Qed.

(** [checkStruct] by the questions it asks of the diff, when every modified
    before-field has a name. *)
Lemma checkStruct_cases (eq : Expr -> Expr -> res bool) (eqb : Expr -> Expr -> bool)
    (before after : list Field) :
  returnsOn eq eqb before after ->
  (forall bf af, (bf, Some af) ∈ matches before after ->
     eqb (Field_Type bf) (Field_Type af) = false -> Field_Names bf <> []) ->
  let result := checkStruct eq (mkStructType before) (mkStructType after) in
  ((exists bf, (bf, None) ∈ matches before after) ->
     result = Ok (breaking "members removed")) /\
  ((forall bf, (bf, None) ∉ matches before after) ->
     ((exists bf af, (bf, Some af) ∈ matches before after /\
                     eqb (Field_Type bf) (Field_Type af) = false /\
                     exportedFirst bf = true) ->
        result = Ok (breaking "members changed types")) /\
     ((forall bf af, (bf, Some af) ∈ matches before after ->
                     eqb (Field_Type bf) (Field_Type af) = false ->
                     exportedFirst bf = false) ->
        ((exists k, k ∈ fieldKeys after /\ k ∉ fieldKeys before) ->
           result = Ok (nonBreaking "members added")) /\
        ((forall k, k ∈ fieldKeys after -> k ∈ fieldKeys before) ->
           result = Ok none))).
Proof.
  intros Hret Hnamed result. subst result. unfold checkStruct. simpl.
  rewrite (diffFields_eq eq eqb) by done. simpl.
  rewrite RemoveUnexported_named.
  2:{ simpl. intros [bf af] [Hin E]%elem_of_modifiedOf. by eapply Hnamed. }
  simpl. unfold Added, Modified, Removed. simpl.
  set (kept := filter _ (modifiedOf eqb (matches before after))).
  split; [|intros Hnone; split; [|intros Hunexp; split]].
  - intros (bf & Hin).
    rewrite (proj2 (length_pos_iff _)); [done|].
    intros Hnil. by eapply (proj1 (removedOf_nil_iff _) Hnil).
  - intros (bf & af & Hin & E & Hexp).
    rewrite (proj2 (length_pos_false _)) by (by apply removedOf_nil_iff).
    rewrite (proj2 (length_pos_iff _)); [done|].
    apply (elem_of_not_nil (bf, af)). apply list_elem_of_filter.
    split; [done|]. by apply elem_of_modifiedOf.
  - intros (k & Ha & Hb).
    rewrite (proj2 (length_pos_false _)) by (by apply removedOf_nil_iff).
    rewrite (proj2 (length_pos_false kept)).
    2:{ apply elem_of_nil_inv. intros [bf af].
        intros [Hexp [Hin E]%elem_of_modifiedOf]%list_elem_of_filter.
        simpl in Hexp. rewrite (Hunexp bf af Hin E) in Hexp. done. }
    rewrite (proj2 (length_pos_iff _)); [done|].
    intros Hnil. apply Hb. by apply (proj1 (added_nil_iff _ _) Hnil).
  - intros Hsub.
    rewrite (proj2 (length_pos_false _)) by (by apply removedOf_nil_iff).
    rewrite (proj2 (length_pos_false kept)).
    2:{ apply elem_of_nil_inv. intros [bf af].
        intros [Hexp [Hin E]%elem_of_modifiedOf]%list_elem_of_filter.
        simpl in Hexp. rewrite (Hunexp bf af Hin E) in Hexp. done. }
    rewrite (proj2 (length_pos_false _)) by (by apply added_nil_iff).
    done.
Qed.

(** [checkStruct] panics when a field without names (an embedded field)
    finds a field of another type under its key. *)
Lemma checkStruct_embedded_panics (eq : Expr -> Expr -> res bool)
    (eqb : Expr -> Expr -> bool) (before after : list Field) :
  returnsOn eq eqb before after ->
  (exists bf af, (bf, Some af) ∈ matches before after /\
     eqb (Field_Type bf) (Field_Type af) = false /\ Field_Names bf = []) ->
  checkStruct eq (mkStructType before) (mkStructType after)
  = Panic "index out of range".
Proof.
  intros Hret (bf & af & Hin & E & Hnames). unfold checkStruct. simpl.
  rewrite (diffFields_eq eq eqb) by done. simpl.
  unfold RemoveUnexported. simpl.
  rewrite unexportedIndexes_unnamed; [done|].
  exists (bf, af). split; [|done]. by apply elem_of_modifiedOf.
Qed.

End StructFacts.

(** *** Functions *)

Section FuncFacts.
Context {ext : External}.

Lemma RemoveVariadicCompatible_inv (c : DeclChecker) (d d' : diffResult) (msg : string) :
  RemoveVariadicCompatible c d = (d', msg) ->
  (msg = "added a variadic parameter" /\
   removed d = [] /\ modified d = [] /\
   (exists a0 elt, added d = [a0] /\ Field_Type a0 = Ellipsis elt) /\
   d' = mkDiffResult [] [] []) \/
  (msg = "change parameter to variadic" /\
   added d = [] /\ removed d = [] /\
   (exists b a elt, modified d = [(b, a)] /\ Field_Type a = Ellipsis elt /\
      Identical (TypeOf (binfo c) (Field_Type b)) (TypeOf (ainfo c) elt) = true) /\
   d' = mkDiffResult [] [] []) \/
  (msg = "" /\ d' = d).
Proof.
  unfold RemoveVariadicCompatible, Added, Removed, Modified.
  destruct d as [[|a0 [|a1 ad]] [|r0 rm] [|[b a] [|m1 md]]]; simpl;
    intros Heq; try (injection Heq as <- <-; by right; right);
    repeat match type of Heq with
    | context [match ?t with _ => _ end] => destruct t eqn:?
    end;
    injection Heq as <- <-;
    first [ by right; right
          | left; split_and!; try done; do 2 eexists; done
          | left; split_and!; try done;
            match goal with
            | H : match Field_Type ?f with _ => _ end = true |- _ =>
                destruct (Field_Type f) eqn:?; try discriminate
            end; do 2 eexists; done
          | right; left; split_and!; try done; do 3 eexists; done ].
Qed.


Lemma RemoveInterfaceCompatible_nil (eq : Expr -> Expr -> res bool) (c : DeclChecker)
    (d : diffResult) :
  modified d = [] -> RemoveInterfaceCompatible eq c d = Ok (d, "").
Proof.
  destruct d as [ad rm md]. simpl. intros ->. reflexivity.
Qed.










End FuncFacts.

(** *** Channels *)

Section ChanFacts.
Context {ext : External}.

(** X30: the answers of [checkChan].  Element types that compare as
    different are breaking "changed channel's type"; with element types that
    compare as equal, a direction that differs is non-breaking "removed
    channel's direction" when the after side is bidirectional and breaking
    "changed channel's direction" when the after side is send-only or
    receive-only; [exprEqual], which calls [checkChan], takes the two channel
    types for equal exactly when this answer is not breaking. *)
Theorem checkChan_verdicts (c : DeclChecker) (n : nat) (before after : ChanType) :
  (exprEqual c n (ChanType_Value before) (ChanType_Value after) = Ok false ->
     checkChan (exprEqual c n) before after = Ok (breaking "changed channel's type") /\
     exprEqual c (S n) (ChanTypeE before) (ChanTypeE after) = Ok false) /\
  (exprEqual c n (ChanType_Value before) (ChanType_Value after) = Ok true ->
     ChanType_Dir before <> ChanType_Dir after ->
     (ChanType_Dir after = Z.lor SEND RECV ->
        checkChan (exprEqual c n) before after
          = Ok (nonBreaking "removed channel's direction") /\
        exprEqual c (S n) (ChanTypeE before) (ChanTypeE after) = Ok true) /\
     (ChanType_Dir after = SEND \/ ChanType_Dir after = RECV ->
        checkChan (exprEqual c n) before after
          = Ok (breaking "changed channel's direction") /\
        exprEqual c (S n) (ChanTypeE before) (ChanTypeE after) = Ok false)).
Proof.
  split.
  - intros Heq. assert (checkChan (exprEqual c n) before after
                        = Ok (breaking "changed channel's type")) as Hc.
    { unfold checkChan. by rewrite Heq. }
    split; [done|]. simpl. by rewrite Hc.
  - intros Heq Hdir. split.
    + intros Ha. assert (checkChan (exprEqual c n) before after
                        = Ok (nonBreaking "removed channel's direction")) as Hc.
      { unfold checkChan. rewrite Heq. simpl.
        rewrite (bool_decide_false _ Hdir). simpl.
        rewrite Ha. reflexivity. }
      split; [done|]. simpl. by rewrite Hc.
    + intros Ha. assert (checkChan (exprEqual c n) before after
                        = Ok (breaking "changed channel's direction")) as Hc.
      { unfold checkChan. rewrite Heq. simpl.
        rewrite (bool_decide_false _ Hdir). simpl.
        by destruct Ha as [-> | ->]. }
      split; [done|]. simpl. by rewrite Hc.
Qed.

End ChanFacts.

(** *** The extractor *)

Section ExtractFacts.
Context {ext : External}.

Lemma splitNames_snoc Tok ns l Type_ Values : forall j id decl,
  splitNames Tok (ns ++ [l]) Type_ Values j id decl
  = (Name l,
     GenDecl Tok [ValueSpec [l] Type_
                    (match Values !! (j + length ns) with
                     | Some v => [v] | None => [] end)]).
Proof.
  induction ns as [|n0 ns IH]; intros j id decl; simpl.
  - by rewrite Nat.add_0_r.
  - rewrite IH. by replace (S j + length ns) with (j + S (length ns)) by lia.
Qed.

(** C7: of a value spec with several names the extractor keeps one
    declaration only, that of the last name: the map returned for a block
    [var n1, ..., nk, l T = values] has the single key [l] (and is empty when
    [l] is unexported). *)
Theorem C7_only_last_name_kept (Tok : Token) (ns : list Ident) (l : Ident)
    (Type_ : option Expr) (Values : list Expr) :
  pkgDecls [[GenDecl Tok [ValueSpec (ns ++ [l]) Type_ Values]]]
  = Ok (if IsExported (Name l)
        then {[ Name l := GenDecl Tok [ValueSpec [l] Type_
                            (match Values !! length ns with
                             | Some v => [v] | None => [] end)] ]}
        else ∅).
Proof.
  unfold pkgDecls. simpl. rewrite splitNames_snoc. unfold store. simpl.
  destruct (IsExported (Name l)); simpl; [|done].
  by rewrite insert_empty.
Qed.

Lemma scanDecls_app ds1 ds2 st :
  scanDecls (ds1 ++ ds2) st = scanDecls ds1 st ≫= scanDecls ds2.
Proof.
  revert st; induction ds1 as [|d ds1 IH]; intros st; simpl; [done|].
  destruct (scanDecl d st); simpl; auto.
Qed.

Lemma scanFiles_concat files st : scanFiles files st = scanDecls (concat files) st.
Proof.
  revert st; induction files as [|f files IH]; intros st; simpl; [done|].
  rewrite scanDecls_app. destruct (scanDecls f st); simpl; auto.
Qed.

Lemma scanSpecs_app Tok ss1 ss2 st :
  scanSpecs Tok (ss1 ++ ss2) st = scanSpecs Tok ss2 (scanSpecs Tok ss1 st).
Proof.
  revert st; induction ss1 as [|[p|ns t vs|nm t] ss1 IH]; intros st; simpl; try done.
  destruct (splitNames _ _ _ _ _ _ _). apply IH.
Qed.

Lemma splitNames_fst Tok Tok' Names Type_ Type' Values Values' : forall j j' id decl decl',
  fst (splitNames Tok Names Type_ Values j id decl)
  = fst (splitNames Tok' Names Type' Values' j' id decl').
Proof.
  induction Names as [|n0 ns IH]; intros; simpl; [done|]. apply IH.
Qed.

(** The scan only adds to [returned]. *)
Lemma returnedTypes_mono rs : forall acc x, x ∈ acc -> x ∈ returnedTypes rs acc.
Proof.
  induction rs as [|f rs IH]; intros acc x Hx; simpl; [done|].
  destruct (Field_Type f) as [| | | | | |[]| | | | | |]; try by apply IH.
  all: apply IH, elem_of_app; by left.
Qed.

Lemma returnedTypes_records rs : forall acc field t,
  field ∈ rs ->
  Field_Type field = IdentE t \/ Field_Type field = StarExpr (IdentE t) ->
  Name t ∈ returnedTypes rs acc.
Proof.
  induction rs as [|f rs IH]; intros acc field t Hin Ht; [by apply elem_of_nil in Hin|].
  apply elem_of_cons in Hin as [<-|Hin]; simpl.
  - destruct Ht as [-> | ->]; apply returnedTypes_mono, elem_of_app; right;
      by apply list_elem_of_singleton.
  - destruct (Field_Type f) as [| | | | | |[]| | | | | |]; by eapply IH.
Qed.

Lemma scanSpecs_returned Tok ss st :
  scan_returned (scanSpecs Tok ss st) = scan_returned st.
Proof.
  revert st; induction ss as [|[p|ns t vs|nm t] ss IH]; intros st; simpl; try done.
  - destruct (splitNames _ _ _ _ _ _ _). rewrite IH. unfold store.
    by destruct (IsExported _).
  - rewrite IH. unfold store. by destruct (IsExported _).
Qed.

Lemma scanDecl_returned_mono d st st' x :
  scanDecl d st = Ok st' -> x ∈ scan_returned st -> x ∈ scan_returned st'.
Proof.
  destruct d as [|Tok ss| |Recv nm ft body]; simpl; try discriminate.
  - intros [= <-]. by rewrite scanSpecs_returned.
  - destruct (funcId Recv nm) as [[recv id]| | |]; simpl; try discriminate.
    destruct (_ && _); intros [= <-] Hx; simpl; [|done].
    destruct (FuncType_Results ft); [|done]. by apply returnedTypes_mono.
Qed.

Lemma scanDecls_returned_mono ds : forall st st' x,
  scanDecls ds st = Ok st' -> x ∈ scan_returned st -> x ∈ scan_returned st'.
Proof.
  induction ds as [|d ds IH]; intros st st' x; simpl.
  - by intros [= <-].
  - destruct (scanDecl d st) as [st1| | |] eqn:E; simpl; try discriminate.
    intros Hrun Hx. eapply IH; [done|]. by eapply scanDecl_returned_mono.
Qed.

(** A declaration leaves alone the private entries it does not store. *)
Lemma scanSpecs_priv_other Tok ss : forall st id,
  id ∉ specIds ss ->
  scan_priv (scanSpecs Tok ss st) !! id = scan_priv st !! id.
Proof.
  induction ss as [|s ss IH]; intros st id Hid; [done|].
  assert (id ∉ specIds ss) as Hss.
  { intros Hin. apply Hid. unfold specIds in *. rewrite bind_cons.
    apply elem_of_app. by right. }
  destruct s as [p|ns t vs|nm t]; simpl.
  - by apply IH.
  - destruct (splitNames Tok ns t vs 0 "" NilGenDecl) as [id' decl] eqn:E.
    rewrite IH by done. unfold store.
    destruct (IsExported id'); simpl; [done|].
    apply lookup_insert_ne. intros <-. apply Hid.
    unfold specIds. rewrite bind_cons. apply elem_of_app. left.
    apply list_elem_of_singleton.
    rewrite (splitNames_fst VAR Tok ns None t [] vs 0 0 "" NilGenDecl NilGenDecl).
    by rewrite E.
  - rewrite IH by done. unfold store.
    destruct (IsExported (Name nm)); simpl; [done|].
    apply lookup_insert_ne. intros <-. apply Hid.
    unfold specIds. rewrite bind_cons. apply elem_of_app. left.
    by apply list_elem_of_singleton.
Qed.

Lemma scanDecl_priv_other d st st' id :
  scanDecl d st = Ok st' -> id ∉ declIds d ->
  scan_priv st' !! id = scan_priv st !! id.
Proof.
  destruct d as [|Tok ss| |Recv nm ft body]; simpl; try discriminate.
  - intros [= <-] Hid. by apply scanSpecs_priv_other.
  - destruct (funcId Recv nm) as [[recv id']| | |]; simpl; try discriminate.
    destruct (_ && _); intros [= <-] Hid; simpl; [done|].
    apply lookup_insert_ne. intros <-. apply Hid. by apply list_elem_of_singleton.
Qed.

Lemma scanDecls_priv_other ds : forall st st' id,
  scanDecls ds st = Ok st' -> id ∉ ds ≫= declIds ->
  scan_priv st' !! id = scan_priv st !! id.
Proof.
  induction ds as [|d ds IH]; intros st st' id; simpl.
  - by intros [= <-].
  - destruct (scanDecl d st) as [st1| | |] eqn:E; simpl; try discriminate.
    intros Hrun Hid. try rewrite bind_cons in Hid.
    rewrite (IH st1 st' id Hrun); [|intros ?; apply Hid, elem_of_app; by right].
    eapply scanDecl_priv_other; [done|].
    intros ?; apply Hid, elem_of_app; by left.
Qed.

Lemma substring_0_length (s : string) : String.substring 0 (String.length s) s = s.
Proof. induction s as [|ch s IH]; simpl; [done|by rewrite IH]. Qed.

Lemma substring_0_app (s1 s2 : string) :
  String.substring 0 (String.length s1) (s1 +:+ s2) = s1.
Proof.
  induction s1 as [|ch s1 IH]; simpl; [by destruct s2|by rewrite IH].
Qed.

Lemma substring_skip_app (s1 s2 : string) :
  String.substring (String.length s1) (String.length s2) (s1 +:+ s2) = s2.
Proof.
  induction s1 as [|ch s1 IH]; simpl; [apply substring_0_length|done].
Qed.

Lemma string_length_app (s1 s2 : string) :
  String.length (s1 +:+ s2) = String.length s1 + String.length s2.
Proof. induction s1 as [|ch s1 IH]; simpl; [done|by rewrite IH]. Qed.

(** A method identifier [id.m] with an exported, non-empty [m] passes. *)
Lemma promotedBy_method (id m : string) :
  m <> "" -> IsExported m = true -> promotedBy id (id +:+ "." +:+ m).
Proof.
  intros Hm Hexp. unfold promotedBy.
  assert (String.length (id +:+ "." +:+ m) = String.length id + 1 + String.length m)
    as Hlen by (rewrite !string_length_app; simpl; lia).
  rewrite Hlen. split_and!.
  - destruct m; [done|]. simpl. lia.
  - by rewrite substring_0_app.
  - replace (String.length id + 1 + String.length m - (String.length id + 1))
      with (String.length m) by lia.
    replace (String.length id + 1) with (String.length (id +:+ ".")).
    2:{ rewrite string_length_app. simpl. lia. }
    replace (id +:+ "." +:+ m) with ((id +:+ ".") +:+ m).
    2:{ clear. induction id as [|ch id IH]; [done|exact (f_equal (String ch) IH)]. }
    by rewrite substring_skip_app.
Qed.

Section WithPriv.
Variable priv : gmap string Decl.

Lemma promoteMethods_lookup (id k : string) (d : Decl) (l : list (string * Decl)) :
  forall decls,
  (forall rid decl, (rid, decl) ∈ l -> priv !! rid = Some decl) ->
  priv !! k = Some d ->
  decls !! k = Some d \/ ((k, d) ∈ l /\ promotedBy id k) ->
  foldl (promoteMethod id) decls l !! k = Some d.
Proof.
  induction l as [|[rid decl] l IH]; intros decls Hl Hk Hor; simpl.
  - destruct Hor as [?|[Hin _]]; [done|by apply elem_of_nil in Hin].
  - apply IH; [intros; apply Hl; by right|done|].
    assert (priv !! rid = Some decl) as Hrid by (apply Hl; by left).
    destruct Hor as [Hd|[Hin Hp]].
    + left. unfold promoteMethod.
      destruct (bool_decide _); [done|]. destruct (_ && _); [|done].
      destruct (decide (rid = k)) as [->|Hne].
      * rewrite lookup_insert_eq. congruence.
      * by rewrite lookup_insert_ne.
    + apply elem_of_cons in Hin as [[= <- <-]|Hin]; [|by right].
      left. unfold promoteMethod. destruct Hp as (Hlen & Hpid & Hexp).
      rewrite bool_decide_false by done.
      rewrite <-Hpid, String.eqb_refl, Hexp. simpl. apply lookup_insert_eq.
Qed.

Lemma promote_lookup (id k : string) (d : Decl) (decls : gmap string Decl) :
  priv !! k = Some d ->
  decls !! k = Some d \/ k = id \/ promotedBy id k ->
  promote priv decls id !! k = Some d.
Proof.
  intros Hk Hor. unfold promote.
  apply promoteMethods_lookup; [|done|].
  { intros rid decl. apply elem_of_map_to_list. }
  destruct Hor as [Hd|[->|Hp]].
  - left. destruct (priv !! id) as [d'|] eqn:E; [|done].
    destruct (decide (id = k)) as [->|Hne].
    + rewrite lookup_insert_eq. congruence.
    + by rewrite lookup_insert_ne.
  - left. rewrite Hk. apply lookup_insert_eq.
  - right. split; [|done]. by apply elem_of_map_to_list.
Qed.

(** What the loop over [returned] promotes. *)
Lemma promoteAll_lookup (k : string) (d : Decl) (returned : list string) :
  forall decls,
  priv !! k = Some d ->
  decls !! k = Some d \/ (exists id, id ∈ returned /\ (k = id \/ promotedBy id k)) ->
  foldl (promote priv) decls returned !! k = Some d.
Proof.
  induction returned as [|id returned IH]; intros decls Hk Hor; simpl.
  - destruct Hor as [?|(id & Hin & _)]; [done|by apply elem_of_nil in Hin].
  - apply IH; [done|].
    destruct Hor as [Hd|(id' & Hin & Hhit)].
    + left. apply promote_lookup; auto.
    + apply elem_of_cons in Hin as [->|Hin].
      * left. apply promote_lookup; auto.
      * right. by exists id'.
Qed.

End WithPriv.

Lemma scanDecls_split ds1 d ds2 st0 st :
  scanDecls (ds1 ++ d :: ds2) st0 = Ok st ->
  exists st1 st2, scanDecls ds1 st0 = Ok st1 /\ scanDecl d st1 = Ok st2 /\
                  scanDecls ds2 st2 = Ok st.
Proof.
  rewrite scanDecls_app. intros Hrun.
  destruct (scanDecls ds1 st0) as [st1| | |]; simpl in Hrun; try discriminate.
  destruct (scanDecl d st1) as [st2| | |] eqn:E; simpl in Hrun; try discriminate.
  by exists st1, st2.
Qed.

(** The result types of an exported function are recorded. *)
Lemma scan_records_results ds st0 st Recv Fname ft body recv id rs field t :
  scanDecls ds st0 = Ok st ->
  FuncDecl Recv Fname ft body ∈ ds ->
  funcId Recv Fname = Ok (recv, id) ->
  IsExported (Name Fname) = true -> recv = "" \/ IsExported recv = true ->
  FuncType_Results ft = Some rs -> field ∈ rs ->
  Field_Type field = IdentE t \/ Field_Type field = StarExpr (IdentE t) ->
  Name t ∈ scan_returned st.
Proof.
  intros Hrun (ds1 & ds2 & ->)%list_elem_of_split Hid Hexp Hrecv Hres Hin Ht.
  apply scanDecls_split in Hrun as (st1 & st2 & _ & Hd & Hrest).
  eapply scanDecls_returned_mono; [exact Hrest|].
  simpl in Hd. rewrite Hid in Hd. simpl in Hd. rewrite Hexp in Hd.
  assert ((String.eqb recv "" || IsExported recv) = true) as Hor.
  { destruct Hrecv as [->| ->]; [done|]. by rewrite orb_true_r. }
  rewrite Hor in Hd. simpl in Hd. injection Hd as <-. simpl. rewrite Hres.
  by eapply returnedTypes_records.
Qed.

(** An unexported type declaration ends up in the private set, unless a later
    declaration is stored under its name. *)
Lemma scan_stores_private_type ds1 Tok ss1 nm ty ss2 ds2 st0 st :
  scanDecls (ds1 ++ GenDecl Tok (ss1 ++ TypeSpec nm ty :: ss2) :: ds2) st0 = Ok st ->
  IsExported (Name nm) = false ->
  Name nm ∉ specIds ss2 -> Name nm ∉ ds2 ≫= declIds ->
  scan_priv st !! Name nm = Some (GenDecl Tok [TypeSpec nm ty]).
Proof.
  intros Hrun Hunexp Hss2 Hds2.
  apply scanDecls_split in Hrun as (st1 & st2 & _ & Hd & Hrest).
  rewrite (scanDecls_priv_other _ _ _ _ Hrest Hds2).
  simpl in Hd. injection Hd as <-.
  rewrite scanSpecs_app. simpl.
  rewrite scanSpecs_priv_other by done.
  unfold store. rewrite Hunexp. simpl. apply lookup_insert_eq.
Qed.

(** So does a function or method that is not public. *)
Lemma scan_stores_private_func ds1 Recv Fname ft body ds2 st0 st recv id :
  scanDecls (ds1 ++ FuncDecl Recv Fname ft body :: ds2) st0 = Ok st ->
  funcId Recv Fname = Ok (recv, id) ->
  IsExported (Name Fname) && (String.eqb recv "" || IsExported recv) = false ->
  id ∉ ds2 ≫= declIds ->
  scan_priv st !! id = Some (FuncDecl Recv Fname ft None).
Proof.
  intros Hrun Hid Hpriv Hds2.
  apply scanDecls_split in Hrun as (st1 & st2 & _ & Hd & Hrest).
  rewrite (scanDecls_priv_other _ _ _ _ Hrest Hds2).
  simpl in Hd. rewrite Hid in Hd. simpl in Hd. rewrite Hpriv in Hd.
  injection Hd as <-. simpl. apply lookup_insert_eq.
Qed.

(** X28: let an exported function (or exported method of an exported type)
    have a result of type [t] or [*t], [t] unexported, and let [pkgDecls]
    return.  Then the map of compared declarations holds the declaration of
    the type [t], alone in its group, and every method of [t] with an
    exported name, without its body (each unless a later declaration is
    stored under the same identifier; the names are not empty). *)
Theorem unexported_result_type_promoted (files : list (list Decl)) (m : gmap string Decl)
    (Recv : option (list Field)) (Fname : Ident) (ft : FuncType)
    (body : option BlockStmt) (recv id : string) (rs : list Field)
    (field : Field) (t : Ident) :
  pkgDecls files = Ok m ->
  FuncDecl Recv Fname ft body ∈ concat files ->
  funcId Recv Fname = Ok (recv, id) ->
  IsExported (Name Fname) = true -> recv = "" \/ IsExported recv = true ->
  FuncType_Results ft = Some rs -> field ∈ rs ->
  Field_Type field = IdentE t \/ Field_Type field = StarExpr (IdentE t) ->
  IsExported (Name t) = false ->
  (forall ds1 Tok ss1 nm ty ss2 ds2,
     concat files = ds1 ++ GenDecl Tok (ss1 ++ TypeSpec nm ty :: ss2) :: ds2 ->
     Name nm = Name t ->
     Name t ∉ specIds ss2 -> Name t ∉ ds2 ≫= declIds ->
     m !! Name t = Some (GenDecl Tok [TypeSpec nm ty])) /\
  (forall ds1 Recv' Mname mft mbody ds2,
     concat files = ds1 ++ FuncDecl Recv' Mname mft mbody :: ds2 ->
     funcId Recv' Mname = Ok (Name t, Name t +:+ "." +:+ Name Mname) ->
     IsExported (Name Mname) = true -> Name Mname <> "" -> Name t <> "" ->
     Name t +:+ "." +:+ Name Mname ∉ ds2 ≫= declIds ->
     m !! (Name t +:+ "." +:+ Name Mname) = Some (FuncDecl Recv' Mname mft None)).
Proof.
  intros Hpkg Hin Hid Hexp Hrecv Hres Hfield Htype Hunexp.
  unfold pkgDecls in Hpkg.
  destruct (scanFiles files (mkScan ∅ ∅ [])) as [st| | |] eqn:Hscan;
    simpl in Hpkg; try discriminate.
  injection Hpkg as <-. rewrite scanFiles_concat in Hscan.
  assert (Name t ∈ scan_returned st) as Hret
    by (by eapply (scan_records_results (concat files))).
  split.
  - intros ds1 Tok ss1 nm ty ss2 ds2 Hsplit Hnm Hss2 Hds2.
    rewrite Hsplit in Hscan.
    apply promoteAll_lookup.
    + rewrite <-Hnm. eapply scan_stores_private_type; [done| |by rewrite Hnm..].
      by rewrite Hnm.
    + right. exists (Name t). auto.
  - intros ds1 Recv' Mname mft mbody ds2 Hsplit Hid' Hmexp Hmne Htne Hds2.
    rewrite Hsplit in Hscan.
    apply promoteAll_lookup.
    + eapply scan_stores_private_func; [done..| |done].
      rewrite Hunexp. apply String.eqb_neq in Htne. rewrite Htne.
      by rewrite andb_false_r.
    + right. exists (Name t). split; [done|]. right. by apply promotedBy_method.
Qed.

End ExtractFacts.

(** *** The driver *)

Section DriverFacts.
Context {ext : External}.

Lemma compareBefore_Err d n pkgName bpkg apkg l : forall changes de,
  compareBefore d n pkgName bpkg apkg l changes = Err de ->
  diffError_pkg de = pkgName /\
  exists id, (id, diffError_bdecl de) ∈ l /\
             pkg_decls apkg !! id = Some (diffError_adecl de) /\
             Check d n (diffError_bdecl de) (diffError_adecl de)
               = Err (diffError_err de).
Proof.
  induction l as [|[id bDecl] l IH]; intros changes de Hrun; simpl in Hrun; [done|].
  destruct (pkg_decls apkg !! id) as [aDecl|] eqn:Ea.
  - destruct (Check d n bDecl aDecl) as [change|err|msg|] eqn:EC; try discriminate.
    + destruct (String.eqb _ _); apply IH in Hrun as (? & id' & ? & ?);
        (split; [done|]; exists id'; split; [by right|done]).
    + injection Hrun as <-. simpl. split; [done|]. exists id.
      split; [by left|done].
  - apply IH in Hrun as (? & id' & ? & ?).
    split; [done|]. exists id'. split; [by right|done].
Qed.

Lemma compareBefore_Ok d n pkgName bpkg apkg l : forall changes changes',
  compareBefore d n pkgName bpkg apkg l changes = Ok changes' ->
  forall id bDecl aDecl, (id, bDecl) ∈ l -> pkg_decls apkg !! id = Some aDecl ->
    exists change, Check d n bDecl aDecl = Ok change.
Proof.
  induction l as [|[id0 bDecl0] l IH]; intros changes changes' Hrun id bDecl aDecl Hin Ha.
  - by apply elem_of_nil in Hin.
  - simpl in Hrun. apply elem_of_cons in Hin as [[= -> ->]|Hin].
    + rewrite Ha in Hrun.
      destruct (Check d n bDecl0 aDecl) as [change| | |]; try discriminate.
      by exists change.
    + destruct (pkg_decls apkg !! id0) as [aDecl0|]; [|by eapply IH].
      destruct (Check d n bDecl0 aDecl0) as [change| | |]; try discriminate.
      destruct (String.eqb _ _); by eapply IH.
Qed.

(** X25: an error of [compareDecls] is the error of [Check] on a pair of
    declarations under one identifier, tagged with the package and the pair. *)
Lemma compareDecls_error_tagged (c : Checker) (n : nat) (de : diffError) :
  compareDecls c n = Err de ->
  exists bpkg apkg id,
    Checker_b c !! diffError_pkg de = Some bpkg /\
    Checker_a c !! diffError_pkg de = Some apkg /\
    pkg_decls bpkg !! id = Some (diffError_bdecl de) /\
    pkg_decls apkg !! id = Some (diffError_adecl de) /\
    Check (NewDeclChecker (pkg_info bpkg) (pkg_info apkg)) n
          (diffError_bdecl de) (diffError_adecl de) = Err (diffError_err de).
Proof.
  unfold compareDecls.
  assert (forall l changes,
    (forall p, p ∈ l -> p ∈ map_to_list (Checker_b c)) ->
    comparePkgs n (Checker_a c) l changes = Err de ->
    exists bpkg apkg id,
      Checker_b c !! diffError_pkg de = Some bpkg /\
      Checker_a c !! diffError_pkg de = Some apkg /\
      pkg_decls bpkg !! id = Some (diffError_bdecl de) /\
      pkg_decls apkg !! id = Some (diffError_adecl de) /\
      Check (NewDeclChecker (pkg_info bpkg) (pkg_info apkg)) n
            (diffError_bdecl de) (diffError_adecl de) = Err (diffError_err de)) as Hgen.
  { induction l as [|[pkgName bpkg] l IH]; intros changes Hsub Hrun; simpl in Hrun;
      [done|].
    assert (forall p, p ∈ l -> p ∈ map_to_list (Checker_b c)) as Hsub'
      by (intros; apply Hsub; by right).
    destruct (Checker_a c !! pkgName) as [apkg|] eqn:Ea; [|by eapply IH].
    destruct (compareBefore _ n pkgName bpkg apkg _ changes) as [cs|de'| |] eqn:EB;
      simpl in Hrun; try discriminate; [by eapply IH|].
    injection Hrun as ->.
    apply compareBefore_Err in EB as (Hpkg & id & Hin & Ha & HC).
    exists bpkg, apkg, id. rewrite Hpkg. split_and!; try done.
    - apply elem_of_map_to_list, Hsub. by left.
    - by apply elem_of_map_to_list. }
  apply Hgen. auto.
Qed.

(** X26: when [compareDecls] returns changes, every pair of declarations
    under one identifier was classified. *)
Lemma compareDecls_classifies_all (c : Checker) (n : nat) (changes : list Change_)
    (pkgName id : string) (bpkg apkg : pkg) (bDecl aDecl : Decl) :
  compareDecls c n = Ok changes ->
  Checker_b c !! pkgName = Some bpkg -> Checker_a c !! pkgName = Some apkg ->
  pkg_decls bpkg !! id = Some bDecl -> pkg_decls apkg !! id = Some aDecl ->
  exists change,
    Check (NewDeclChecker (pkg_info bpkg) (pkg_info apkg)) n bDecl aDecl = Ok change.
Proof.
  unfold compareDecls. intros Hrun Hb Ha Hbd Had.
  apply elem_of_map_to_list in Hb.
  revert Hrun Hb. generalize (@nil Change_) as cs0. generalize (map_to_list (Checker_b c)).
  induction l as [|[pkgName0 bpkg0] l IH]; intros cs0 Hrun Hin.
  - by apply elem_of_nil in Hin.
  - simpl in Hrun. apply elem_of_cons in Hin as [[= <- <-]|Hin].
    + rewrite Ha in Hrun.
      destruct (compareBefore _ n pkgName bpkg apkg _ cs0) as [cs| | |] eqn:EB;
        simpl in Hrun; try discriminate.
      eapply compareBefore_Ok; [exact EB| |done].
      by apply elem_of_map_to_list.
    + destruct (Checker_a c !! pkgName0) as [apkg0|]; [|by eapply IH].
      destruct (compareBefore _ n pkgName0 bpkg0 apkg0 _ cs0) as [cs| | |];
        simpl in Hrun; try discriminate. by eapply IH.
Qed.

End DriverFacts.

(** *** Further properties: the field-diff algorithm *)

Section DiffExtra.
Context {ext : External}.

(** A run of the second loop that returns made every comparison return. *)
Lemma diffBefore_Ok_returns (eq : Expr -> Expr -> res bool) (M : gmap string Field)
    (before : list Field) :
  forall i m r seen res_,
  (forall k, m !! k = if bool_decide (k ∈ seen) then None else M !! k) ->
  diffBefore eq before i m r = Ok res_ ->
  forall bf af, (bf, Some af) ∈ matchesFrom M seen before i ->
    eq (Field_Type bf) (Field_Type af) = Ok (answer eq (Field_Type bf) (Field_Type af)).
Proof.
  induction before as [|bf0 rest IH]; intros i m r seen res_ Hm Hrun bf af Hin.
  - by apply elem_of_nil in Hin.
  - simpl in Hrun, Hin. set (k0 := fieldKey bf0 i) in *.
    rewrite (Hm k0) in Hrun.
    apply elem_of_cons in Hin as [Hhead|Hin].
    + injection Hhead as -> Hsome.
      destruct (bool_decide (k0 ∈ seen)); [done|].
      rewrite <-Hsome in Hrun.
      unfold answer. destruct (eq (Field_Type bf0) (Field_Type af)); done.
    + destruct (bool_decide (k0 ∈ seen)) eqn:Hseen.
      * eapply (IH (S i) m _ (k0 :: seen)); [|exact Hrun|exact Hin].
        intros k. rewrite Hm. apply bool_decide_eq_true in Hseen.
        destruct (decide (k = k0)) as [->|Hne].
        -- rewrite !bool_decide_true; [done|by left|done].
        -- erewrite (bool_decide_ext (k ∈ k0 :: seen)); [done|].
           rewrite elem_of_cons. tauto.
      * apply bool_decide_eq_false in Hseen.
        destruct (M !! k0) as [af0|] eqn:HM.
        -- destruct (eq (Field_Type bf0) (Field_Type af0)) as [same| | |];
             simpl in Hrun; try discriminate.
           eapply (IH (S i) (delete k0 m) _ (k0 :: seen)); [|exact Hrun|exact Hin].
           intros k. destruct (decide (k = k0)) as [->|Hne].
           ++ rewrite lookup_delete_eq, bool_decide_true; [done|by left].
           ++ rewrite lookup_delete_ne by done. rewrite Hm.
              erewrite (bool_decide_ext (k ∈ k0 :: seen)); [done|].
              rewrite elem_of_cons. tauto.
        -- eapply (IH (S i) m _ (k0 :: seen)); [|exact Hrun|exact Hin].
           intros k. rewrite Hm. destruct (decide (k = k0)) as [->|Hne].
           ++ rewrite bool_decide_false by done. rewrite HM.
              by destruct (bool_decide _).
           ++ erewrite (bool_decide_ext (k ∈ k0 :: seen)); [done|].
              rewrite elem_of_cons. tauto.
Qed.

(** A diff that returns is the closed form, with the answers that were given. *)
Lemma diffFields_Ok_inv (eq : Expr -> Expr -> res bool) (before after : list Field)
    (r : diffResult) :
  diffFields eq before after = Ok r ->
  returnsOn eq (answer eq) before after /\
  r = mkDiffResult ((map_to_list (remaining before after)).*2)
        (removedOf (matches before after))
        (modifiedOf (answer eq) (matches before after)).
Proof.
  intros Hrun.
  assert (returnsOn eq (answer eq) before after) as Hret.
  { unfold diffFields in Hrun.
    destruct (diffBefore eq before 0 (afterMembers after 0 ∅) emptyDiff)
      as [res_| | |] eqn:E; simpl in Hrun; try discriminate.
    intros bf af Hin.
    eapply (diffBefore_Ok_returns eq (afterMembers after 0 ∅) before 0 _ _ []);
      [|exact E|exact Hin].
    intros k. by rewrite bool_decide_false by apply not_elem_of_nil. }
  split; [done|].
  rewrite (diffFields_eq eq (answer eq)) in Hrun by done. by injection Hrun.
Qed.


Lemma omap_sublist {A B} (f : A -> option B) (g : A -> B) (l : list A) :
  (forall x y, f x = Some y -> y = g x) -> omap f l `sublist_of` (g <$> l).
Proof.
  intros Hfg. induction l as [|x l IH]; [done|].
  cbn [omap list_omap fmap list_fmap].
  destruct (f x) as [y|] eqn:E.
  - rewrite (Hfg _ _ E). by apply sublist_skip.
  - by apply sublist_cons.
Qed.

Lemma last_filter_split {A} (P : A -> Prop) `{forall x, Decision (P x)} (l : list A) (x : A) :
  last (filter P l) = Some x ->
  exists l1 l2, l = l1 ++ x :: l2 /\ P x /\ Forall (fun y => ~ P y) l2.
Proof.
  induction l as [|y l IH]; [done|].
  intros Hlast.
  destruct (last (filter P l)) as [z|] eqn:E.
  - destruct (decide (P y)) as [Hy|Hy].
    + rewrite filter_cons_True in Hlast by done.
      destruct (filter P l) as [|w ws] eqn:Ef; [done|].
      change (last (y :: w :: ws)) with (last (w :: ws)) in Hlast.
      rewrite E in Hlast. injection Hlast as <-.
      destruct (IH eq_refl) as (l1 & l2 & -> & Hz & Hall).
      by exists (y :: l1), l2.
    + rewrite filter_cons_False in Hlast by done.
      rewrite E in Hlast. injection Hlast as <-.
      destruct (IH eq_refl) as (l1 & l2 & -> & Hz & Hall).
      by exists (y :: l1), l2.
  - apply last_None in E.
    destruct (decide (P y)) as [Hy|Hy].
    + rewrite filter_cons_True, E in Hlast by done. injection Hlast as <-.
      exists [], l. split; [done|]. split; [done|].
      apply Forall_forall. intros w Hw Pw.
      assert (w ∈ filter P l) as Hin by (apply list_elem_of_filter; done).
      rewrite E in Hin. by apply elem_of_nil in Hin.
    + rewrite filter_cons_False, E in Hlast by done. done.
Qed.

(** The entry that the first loop leaves under a key is the last after-field
    with that key. *)
Lemma afterMembers_Some_last after k af :
  afterMembers after 0 ∅ !! k = Some af ->
  exists j, after !! j = Some af /\ fieldKey af j = k /\
    forall j' f', j < j' -> after !! j' = Some f' -> fieldKey f' j' <> k.
Proof.
  rewrite afterMembers_lookup.
  destruct (last (filter (fun kf => kf.1 = k) (keyedFrom after 0))) as [kf|] eqn:E;
    [|by rewrite lookup_empty].
  intros [= <-].
  apply last_filter_split in E as (l1 & l2 & Hsplit & Hk & Hall).
  exists (length l1).
  assert (keyedFrom after 0 !! length l1 = Some kf) as Hat.
  { rewrite Hsplit. by rewrite list_lookup_middle. }
  rewrite keyedFrom_lookup in Hat.
  destruct (after !! length l1) as [f|] eqn:Hf; [|done].
  injection Hat as <-. simpl in *. split; [done|]. split; [done|].
  intros j' f' Hlt Hf' Hkey.
  assert (keyedFrom after 0 !! j' = Some (fieldKey f' j', f')) as Hat'.
  { rewrite keyedFrom_lookup, Hf'. done. }
  rewrite Hsplit in Hat'.
  rewrite lookup_app_r in Hat' by lia.
  destruct (j' - length l1) as [|d] eqn:Hd; [lia|].
  simpl in Hat'.
  rewrite Forall_forall in Hall.
  apply (Hall (fieldKey f' j', f')); [|done].
  by eapply list_elem_of_lookup_2.
Qed.

(** X1: a diff that returns reports fields of its inputs only: the removed
    fields and the before-halves of the modified pairs are sublists of the
    before list, in its order; the after-half of a modified pair is an
    after-field that compared different; every added field is an after-field;
    and no before-field is counted twice. *)
Theorem diffFields_reports_inputs (eq : Expr -> Expr -> res bool)
    (before after : list Field) (r : diffResult) :
  diffFields eq before after = Ok r ->
  removed r `sublist_of` before /\
  (modified r).*1 `sublist_of` before /\
  (forall b a, (b, a) ∈ modified r ->
     a ∈ after /\ eq (Field_Type b) (Field_Type a) = Ok false) /\
  (forall f, f ∈ added r -> f ∈ after) /\
  length (removed r) + length (modified r) <= length before.
Proof.
  intros Hrun. apply diffFields_Ok_inv in Hrun as [Hret ->]. simpl.
  split; [|split; [|split; [|split]]].
  - rewrite <-(matches_fst before after) at 2.
    apply omap_sublist. intros [bf x] y. simpl. destruct x; congruence.
  - rewrite <-(matches_fst before after) at 2.
    unfold modifiedOf.
    induction (matches before after) as [|[bf x] ms IH]; [done|].
    cbn [omap list_omap fmap list_fmap fst snd].
    destruct x as [af|]; [|by apply sublist_cons].
    destruct (answer eq (Field_Type bf) (Field_Type af)); [by apply sublist_cons|].
    cbn [fmap list_fmap fst]. by apply sublist_skip.
  - intros b a Hin. apply elem_of_modifiedOf in Hin as [Hin Hans].
    split.
    + apply elem_of_matches in Hin as (j & _ & Hx).
      destruct (bool_decide _); [done|].
      symmetry in Hx. apply afterMembers_Some in Hx as (j' & Hj' & _).
      by eapply list_elem_of_lookup_2.
    + rewrite (Hret _ _ Hin). by rewrite Hans.
  - intros f Hin. apply list_elem_of_fmap in Hin as ([k f'] & -> & Hin).
    apply elem_of_map_to_list in Hin. apply remaining_lookup in Hin as [Hin _].
    apply afterMembers_Some in Hin as (j' & Hj' & _).
    by eapply list_elem_of_lookup_2.
  - pose proof (outcomes_length (answer eq) (matches before after)) as Hlen.
    unfold matches in Hlen at 4. rewrite matchesFrom_length in Hlen. lia.
Qed.

(** X2: a diff that returns reports an added field exactly when some key of
    the after list is no key of the before list, whatever the types are. *)
Theorem diffFields_added_iff (eq : Expr -> Expr -> res bool)
    (before after : list Field) (r : diffResult) :
  diffFields eq before after = Ok r ->
  Added r = true <-> exists k, k ∈ fieldKeys after /\ k ∉ fieldKeys before.
Proof.
  intros Hrun. apply diffFields_Ok_inv in Hrun as [_ ->].
  unfold Added. simpl. rewrite length_pos_iff.
  rewrite added_nil_iff. split.
  - intros Hnot.
    destruct (decide (Exists (fun k => k ∉ fieldKeys before) (fieldKeys after)))
      as [Hex|Hnex].
    + apply Exists_exists in Hex as (k & ? & ?). by exists k.
    + exfalso. apply Hnot. intros k Hk.
      destruct (decide (k ∈ fieldKeys before)) as [|Hn]; [done|].
      exfalso. apply Hnex. apply Exists_exists. by exists k.
  - intros (k & Hk & Hn) Hall. by apply Hn, Hall.
Qed.

(** A before-field whose key an earlier before-field has is removed. *)
Lemma removed_repeated_key (eq : Expr -> Expr -> res bool)
    (before after : list Field) (r : diffResult) (i j : nat) (bi bj : Field) :
  diffFields eq before after = Ok r ->
  before !! i = Some bi -> before !! j = Some bj -> i < j ->
  fieldKey bi i = fieldKey bj j ->
  bj ∈ removed r.
Proof.
  intros Hrun Hi Hj Hlt Hkey. apply diffFields_Ok_inv in Hrun as [_ ->]. simpl.
  unfold removedOf. apply list_elem_of_omap. exists (bj, None). split; [|done].
  apply elem_of_matches. exists j. split; [done|].
  rewrite bool_decide_true; [done|].
  apply elem_of_fieldKeys. exists i, bi. split; [|done].
  rewrite lookup_take_lt by done. done.
Qed.

(** X3: a before-field whose key an earlier before-field has is recorded as
    removed, whatever the after list holds: the earlier field consumed the
    entry of the lookup. *)
Theorem diffFields_repeated_key_removed (eq : Expr -> Expr -> res bool)
    (before after : list Field) (r : diffResult) (i j : nat) (bi bj : Field) :
  diffFields eq before after = Ok r ->
  before !! i = Some bi -> before !! j = Some bj -> i < j ->
  fieldKey bi i = fieldKey bj j ->
  bj ∈ removed r /\ Changed r = true.
Proof.
  intros Hrun Hi Hj Hlt Hkey.
  pose proof (removed_repeated_key _ _ _ _ _ _ _ _ Hrun Hi Hj Hlt Hkey) as Hin.
  split; [done|].
  unfold Changed.
  assert (removed r <> []) as Hne.
  { intros E. rewrite E in Hin. by apply elem_of_nil in Hin. }
  apply length_pos_iff in Hne. rewrite Hne. by rewrite orb_true_r.
Qed.

(** X4: an after-field that a later after-field with the same key
    overwrites in the lookup is invisible to the diff: it is neither added nor
    the after-half of a modified pair. *)
Theorem diffFields_shadowed_after_field (eq : Expr -> Expr -> res bool)
    (before after : list Field) (r : diffResult) (i j : nat) (f g : Field) :
  diffFields eq before after = Ok r ->
  after !! i = Some f -> after !! j = Some g -> i < j ->
  fieldKey f i = fieldKey g j ->
  (forall i', after !! i' = Some f -> i' = i) ->
  (f ∉ added r) /\ forall b, (b, f) ∉ modified r.
Proof.
  intros Hrun Hi Hj Hlt Hkey Honce. apply diffFields_Ok_inv in Hrun as [_ ->]. simpl.
  assert (forall k, afterMembers after 0 ∅ !! k <> Some f) as Hno.
  { intros k Hk. apply afterMembers_Some_last in Hk as (i' & Hi' & Hk & Hlast).
    apply Honce in Hi' as ->. apply (Hlast j g Hlt Hj). congruence. }
  split.
  - intros Hin. apply list_elem_of_fmap in Hin as ([k f'] & -> & Hin).
    apply elem_of_map_to_list in Hin. apply remaining_lookup in Hin as [Hin _].
    by apply Hno in Hin.
  - intros b Hin. apply elem_of_modifiedOf in Hin as [Hin _].
    apply elem_of_matches in Hin as (j' & _ & Hx).
    destruct (bool_decide _); [done|]. symmetry in Hx. by apply Hno in Hx.
Qed.


Lemma stripNames_lookup fs j :
  stripNames fs !! j = (fun f => mkField [] (Field_Type f)) <$> fs !! j.
Proof. revert j. induction fs as [|f fs IH]; intros [|j]; simpl; auto. Qed.

Lemma stripNames_length fs : length (stripNames fs) = length fs.
Proof. unfold stripNames. by rewrite length_map. Qed.

(** X5: lists without names (parameters, results) are compared by position:
    the removed fields are the before-fields past the length of the after
    list, the added ones the after-fields past the length of the before list,
    the modified pairs the positions that compare different; and nothing
    changed exactly when the lengths agree and every position compares equal. *)
Theorem diffFields_positional (eq : Expr -> Expr -> res bool)
    (before after : list Field) (r : diffResult) :
  diffFields eq (stripNames before) (stripNames after) = Ok r ->
  removed r = drop (length after) (stripNames before) /\
  added r ≡ₚ drop (length before) (stripNames after) /\
  modified r = differing (answer eq) (stripNames before) (stripNames after) /\
  (Changed r = false <->
   length before = length after /\
   forall j bf af, before !! j = Some bf -> after !! j = Some af ->
     eq (Field_Type bf) (Field_Type af) = Ok true).
Proof.
  intros Hrun.
  pose proof (diffFields_Ok_inv _ _ _ _ Hrun) as [Hret _].
  assert (forall j bf af, stripNames before !! j = Some bf ->
            stripNames after !! j = Some af ->
            eq (Field_Type bf) (Field_Type af)
            = Ok (answer eq (Field_Type bf) (Field_Type af))) as Hpos.
  { intros j bf af Hb Ha. apply Hret.
    rewrite matches_aligned
      by (apply NoDup_fieldKeys_stripNames || apply aligned_stripNames).
    apply elem_of_app. left.
    apply elem_of_lookup_zip_with. by exists j, bf, af. }
  destruct (diffFields_aligned eq (answer eq) (stripNames before) (stripNames after))
    as (r' & Hrun' & Hadd & Hrem & Hmod);
    [apply NoDup_fieldKeys_stripNames..|apply aligned_stripNames|exact Hpos|].
  rewrite Hrun in Hrun'. injection Hrun' as <-.
  pose proof (stripNames_length before) as Hlb.
  pose proof (stripNames_length after) as Hla.
  rewrite Hlb in Hadd. rewrite Hla in Hrem.
  split; [done|]. split; [done|]. split; [done|].
  unfold Changed. rewrite !orb_false_iff, !length_pos_false.
  rewrite Hrem, Hmod. split.
  - intros [[Ha Hr] Hm].
    rewrite Ha in Hadd. apply Permutation_nil_l in Hadd. symmetry in Hadd.
    apply drop_nil_inv in Hadd. apply drop_nil_inv in Hr.
    rewrite Hla in Hadd. rewrite Hlb in Hr.
    split; [lia|].
    intros j bf af Hb Ha'.
    assert (stripNames before !! j = Some (mkField [] (Field_Type bf))) as Hsb
      by (by rewrite stripNames_lookup, Hb).
    assert (stripNames after !! j = Some (mkField [] (Field_Type af))) as Hsa
      by (by rewrite stripNames_lookup, Ha').
    pose proof (Hpos _ _ _ Hsb Hsa) as Heq. simpl in Heq. rewrite Heq. f_equal.
    destruct (answer eq (Field_Type bf) (Field_Type af)) eqn:Hans; [done|].
    exfalso.
    assert ((mkField [] (Field_Type bf), mkField [] (Field_Type af))
              ∈ differing (answer eq) (stripNames before) (stripNames after)) as Hin.
    { unfold differing. apply list_elem_of_filter. split; [done|].
      apply elem_of_lookup_zip_with.
      by exists j, (mkField [] (Field_Type bf)), (mkField [] (Field_Type af)). }
    rewrite Hm in Hin. by apply elem_of_nil in Hin.
  - intros [Hlen Hall].
    assert (added r = []) as Ha.
    { rewrite drop_ge in Hadd by lia. by apply Permutation_nil_r in Hadd. }
    split; [split; [done|]|].
    + apply drop_ge. lia.
    + unfold differing.
      destruct (filter _ (zip (stripNames before) (stripNames after)))
        as [|[bf af] rest] eqn:Ef; [done|].
      assert ((bf, af) ∈ filter (fun p => answer eq (Field_Type p.1) (Field_Type p.2) = false)
                (zip (stripNames before) (stripNames after))) as Hin
        by (rewrite Ef; left).
      apply list_elem_of_filter in Hin as [Hans Hin]. simpl in Hans.
      apply elem_of_lookup_zip_with in Hin as (j & bf' & af' & [= -> ->] & Hsb & Hsa).
      rewrite stripNames_lookup in Hsb, Hsa.
      destruct (before !! j) as [b0|] eqn:Hb; [|done].
      destruct (after !! j) as [a0|] eqn:Ha0; [|done].
      injection Hsb as <-. injection Hsa as <-. simpl in Hans.
      unfold answer in Hans. rewrite (Hall _ _ _ Hb Ha0) in Hans. done.
Qed.


Lemma Check_interfaceDecl c n bname aname before after :
  Check c n (interfaceDecl bname before) (interfaceDecl aname after)
  = checkInterface (exprEqual c n) (mkInterfaceType before) (mkInterfaceType after).
Proof. reflexivity. Qed.

Lemma Check_structDecl c n bname aname before after :
  Check c n (structDecl bname before) (structDecl aname after)
  = checkStruct (exprEqual c n) (mkStructType before) (mkStructType after).
Proof. reflexivity. Qed.

Lemma RemoveUnexported_keeps (d d' : diffResult) :
  RemoveUnexported d = Ok d' -> added d' = added d /\ removed d' = removed d.
Proof.
  unfold RemoveUnexported, removeModified. intros H.
  destruct (unexportedIndexes (modified d) 0 []) as [u| | |]; simpl in H; try done.
  destruct (removeAt _ (modified d)) as [m| | |]; simpl in H; try done.
  by injection H as <-.
Qed.

(** X6: an interface or struct declaration compared with itself is
    classified as no change, when the keys of its fields are pairwise distinct
    and every field type compares equal to itself. *)
Theorem Check_same_fields_none (c : DeclChecker) (n : nat) (bname aname : Ident)
    (fs : list Field) :
  NoDup (fieldKeys fs) ->
  (forall f, f ∈ fs -> exprEqual c n (Field_Type f) (Field_Type f) = Ok true) ->
  Check c n (interfaceDecl bname fs) (interfaceDecl aname fs) = Ok none /\
  Check c n (structDecl bname fs) (structDecl aname fs) = Ok none.
Proof.
  intros Hnd Hrefl.
  destruct (diffFields_aligned (exprEqual c n) (fun _ _ => true) fs fs)
    as (r & Hrun & Hadd & Hrem & Hmod); [done|done|by intros j bf af -> [= ->]| |].
  { intros j bf af Hb Ha. rewrite Hb in Ha. injection Ha as <-.
    apply Hrefl. by eapply list_elem_of_lookup_2. }
  rewrite drop_all in Hadd, Hrem. apply Permutation_nil_r in Hadd.
  assert (modified r = []) as Hm.
  { rewrite Hmod. unfold differing.
    induction (zip fs fs) as [|p l IH]; [done|].
    by rewrite filter_cons_False. }
  destruct r as [ad rm md]. simpl in *. subst ad rm md.
  rewrite Check_interfaceDecl, Check_structDecl.
  unfold checkInterface, checkStruct. simpl. rewrite Hrun, Hm. by split.
Qed.

(** X7: a declaration whose field list repeats a key (two blank fields of
    a struct, say) is never classified as no change, not even against itself:
    an interface is never [none], and a struct, when [Check] returns, is
    breaking with members removed. *)
Theorem Check_repeated_key_never_none (c : DeclChecker) (n : nat) (bname aname : Ident)
    (before after : list Field) (i j : nat) (bi bj : Field) :
  before !! i = Some bi -> before !! j = Some bj -> i < j ->
  fieldKey bi i = fieldKey bj j ->
  Check c n (interfaceDecl bname before) (interfaceDecl aname after) <> Ok none /\
  (forall ch, Check c n (structDecl bname before) (structDecl aname after) = Ok ch ->
     ch = breaking "members removed").
Proof.
  intros Hi Hj Hlt Hkey.
  rewrite Check_interfaceDecl, Check_structDecl.
  unfold checkInterface, checkStruct. simpl.
  destruct (diffFields (exprEqual c n) before after) as [r| | |] eqn:Hrun;
    simpl; [|done..].
  pose proof (removed_repeated_key _ _ _ _ _ _ _ _ Hrun Hi Hj Hlt Hkey) as Hin.
  assert (Removed r = true) as Hrem.
  { unfold Removed. apply length_pos_iff. intros E. rewrite E in Hin.
    by apply elem_of_nil in Hin. }
  split.
  - rewrite Hrem.
    destruct (Added r); [done|]. by destruct (Modified r).
  - intros ch. destruct (RemoveUnexported r) as [r'| | |] eqn:Hru; simpl; [|done..].
    apply RemoveUnexported_keeps in Hru as [_ Hkeep].
    unfold Removed in *. rewrite Hkeep, Hrem. by intros [= <-].
Qed.

(** X8: [Check] panics with an index out of range on two struct
    declarations as soon as a before-field without names finds, under its
    key, an after-field whose type compares different. *)
Theorem Check_embedded_field_panics (c : DeclChecker) (n : nat) (bname aname : Ident)
    (eqb : Expr -> Expr -> bool) (before after : list Field) (bf af : Field) :
  returnsOn (exprEqual c n) eqb before after ->
  (bf, Some af) ∈ matches before after ->
  eqb (Field_Type bf) (Field_Type af) = false ->
  Field_Names bf = [] ->
  Check c n (structDecl bname before) (structDecl aname after)
  = Panic "index out of range".
Proof.
  intros Hret Hin Hne Hnames. rewrite Check_structDecl.
  apply (checkStruct_embedded_panics _ eqb); [done|]. by exists bf, af.
Qed.

End DiffExtra.

(** *** Further properties: the exceptions of [checkFunc] *)

Section FuncExtra.
Context {ext : External}.

Lemma indexesAt_bounds p mods : forall i j, j ∈ indexesAt p mods i -> i <= j.
Proof.
  induction mods as [|md mods IH]; intros i j Hj; simpl in Hj.
  - by apply elem_of_nil in Hj.
  - apply elem_of_app in Hj as [Hj|Hj].
    + destruct (p md); [|by apply elem_of_nil in Hj].
      apply list_elem_of_singleton in Hj. lia.
    + apply IH in Hj. lia.
Qed.

Lemma indexesAt_Sorted p mods i : Sorted Nat.le (indexesAt p mods i).
Proof.
  revert i; induction mods as [|md mods IH]; intros i; simpl; [constructor|].
  destruct (p md); simpl; [|apply IH].
  constructor; [apply IH|].
  destruct (indexesAt p mods (S i)) as [|j l] eqn:E; constructor.
  assert (S i <= j); [|lia].
  apply (indexesAt_bounds p mods). rewrite E. by left.
Qed.

Lemma removeAt_indexesAt p (mods : list (Field * Field)) : forall pre,
  removeAt (reverse (indexesAt p mods (length pre))) (pre ++ mods)
  = Ok (pre ++ filter (fun md => p md = false) mods).
Proof.
  induction mods as [|md mods IH]; intros pre; simpl; [done|].
  rewrite reverse_app, removeAt_app.
  specialize (IH (pre ++ [md])). rewrite length_app in IH. simpl in IH.
  replace (length pre + 1) with (S (length pre)) in IH by lia.
  rewrite <-app_assoc in IH. simpl in IH. rewrite IH. simpl.
  destruct (p md) eqn:E; simpl.
  - rewrite filter_cons_False by (rewrite E; discriminate).
    set (F := filter (fun md0 : Field * Field => p md0 = false) mods).
    rewrite bool_decide_true.
    2:{ rewrite !length_app. simpl. lia. }
    assert (take (length pre) ((pre ++ [md]) ++ F) = pre) as ->.
    { rewrite <-app_assoc. apply take_app_length. }
    assert (drop (S (length pre)) ((pre ++ [md]) ++ F) = F) as ->; [|done].
    apply drop_app_length'. rewrite length_app. simpl. lia.
  - rewrite filter_cons_True by exact E. by rewrite <-app_assoc.
Qed.

Lemma removeModified_indexesAt p (d : diffResult) :
  removeModified d (indexesAt p (modified d) 0)
  = Ok (mkDiffResult (added d) (removed d)
          (filter (fun md => p md = false) (modified d))).
Proof.
  unfold removeModified.
  rewrite merge_sort_Sorted by apply indexesAt_Sorted.
  pose proof (removeAt_indexesAt p (modified d) []) as Hrm. simpl in Hrm.
  by rewrite Hrm.
Qed.

(** The loop of [RemoveInterfaceCompatible], when its body returns on every
    pair. *)
Lemma interfaceCompatible_spec (eq : Expr -> Expr -> res bool) (c : DeclChecker)
    (mods : list (Field * Field)) :
  (forall md, md ∈ mods -> exists x, compatiblePair eq c md = Ok x) ->
  forall i compatible msg,
  interfaceCompatible eq c mods i compatible msg
  = Ok (compatible ++ indexesAt (fun md => returnsTrue (compatiblePair eq c md)) mods i,
        if existsb (fun md => returnsTrue (compatiblePair eq c md)) mods
        then "compatible interface change" else msg).
Proof.
  induction mods as [|md mods IH]; intros Hall i compatible msg.
  - simpl. by rewrite app_nil_r.
  - destruct (Hall md) as [x Hx]; [by left|].
    assert (forall md', md' ∈ mods -> exists x, compatiblePair eq c md' = Ok x) as Hall'
      by (intros; apply Hall; by right).
    cbn [interfaceCompatible indexesAt existsb]. rewrite Hx.
    unfold compatiblePair in Hx.
    destruct (TypeOf (binfo c) (Field_Type md.1)) as [bt|];
      [destruct (TypeOf (ainfo c) (Field_Type md.2)) as [at_|]|].
    + destruct (IsInterface bt && IsInterface at_).
      * destruct (exprInterfaceType (Uses (binfo c)) (Field_Type md.1))
          as [bint| | |]; simpl in Hx |- *; try discriminate.
        destruct (exprInterfaceType (Uses (ainfo c)) (Field_Type md.2))
          as [aint| | |]; simpl in Hx |- *; try discriminate.
        destruct (checkInterface eq bint aint) as [change| | |];
          simpl in Hx |- *; try discriminate.
        injection Hx as <-.
        destruct (negb (String.eqb (Change change) Breaking)); simpl.
        -- rewrite IH by done. rewrite <-app_assoc. simpl.
           by destruct (existsb _ mods).
        -- by rewrite IH.
      * injection Hx as <-. simpl. by rewrite IH.
    + injection Hx as <-. simpl. by rewrite IH.
    + injection Hx as <-. simpl. by rewrite IH.
Qed.

(** The loop stops at the first pair on which its body returns an error. *)
Lemma interfaceCompatible_Err (eq : Expr -> Expr -> res bool) (c : DeclChecker)
    (pre post : list (Field * Field)) (md : Field * Field) (e : string) :
  (forall md', md' ∈ pre -> exists x, compatiblePair eq c md' = Ok x) ->
  compatiblePair eq c md = Err e ->
  forall i compatible msg,
  interfaceCompatible eq c (pre ++ md :: post) i compatible msg = Err e.
Proof.
  intros Hall Hmd. induction pre as [|md0 pre IH]; intros i compatible msg.
  - simpl. unfold compatiblePair in Hmd.
    destruct (TypeOf (binfo c) (Field_Type md.1)) as [bt|];
      [destruct (TypeOf (ainfo c) (Field_Type md.2)) as [at_|]|]; try discriminate.
    destruct (IsInterface bt && IsInterface at_); [|discriminate].
    destruct (exprInterfaceType (Uses (binfo c)) (Field_Type md.1))
      as [bint| | |]; simpl in *; try discriminate; [|congruence].
    destruct (exprInterfaceType (Uses (ainfo c)) (Field_Type md.2))
      as [aint| | |]; simpl in *; try discriminate; [|congruence].
    destruct (checkInterface eq bint aint) as [change| | |];
      simpl in *; try discriminate. congruence.
  - destruct (Hall md0) as [x Hx]; [by left|].
    assert (forall md', md' ∈ pre -> exists x, compatiblePair eq c md' = Ok x) as Hall'
      by (intros; apply Hall; by right).
    simpl. unfold compatiblePair in Hx.
    destruct (TypeOf (binfo c) (Field_Type md0.1)) as [bt|];
      [destruct (TypeOf (ainfo c) (Field_Type md0.2)) as [at_|]|]; try by apply IH.
    destruct (IsInterface bt && IsInterface at_); [|by apply IH].
    destruct (exprInterfaceType (Uses (binfo c)) (Field_Type md0.1))
      as [bint| | |]; simpl in *; try discriminate.
    destruct (exprInterfaceType (Uses (ainfo c)) (Field_Type md0.2))
      as [aint| | |]; simpl in *; try discriminate.
    destruct (checkInterface eq bint aint) as [change| | |];
      simpl in *; try discriminate.
    destruct (negb _); by apply IH.
Qed.

(** X9: when the loop body of [RemoveInterfaceCompatible] returns on every
    modified pair, the function drops exactly the pairs that the body found
    compatible, keeps the others in their order, leaves the added and removed
    fields alone, and its message is set exactly when a pair was dropped. *)
Theorem RemoveInterfaceCompatible_filter (eq : Expr -> Expr -> res bool)
    (c : DeclChecker) (d : diffResult) :
  (forall md, md ∈ modified d -> exists x, compatiblePair eq c md = Ok x) ->
  RemoveInterfaceCompatible eq c d
  = Ok (mkDiffResult (added d) (removed d)
          (filter (fun md => returnsTrue (compatiblePair eq c md) = false) (modified d)),
        if existsb (fun md => returnsTrue (compatiblePair eq c md)) (modified d)
        then "compatible interface change" else "").
Proof.
  intros Hall. unfold RemoveInterfaceCompatible.
  rewrite interfaceCompatible_spec by done. simpl.
  by rewrite removeModified_indexesAt.
Qed.

(** X10: [RemoveInterfaceCompatible] returns the error of the first modified
    pair on which its loop body fails, whatever follows that pair. *)
Theorem RemoveInterfaceCompatible_first_error (eq : Expr -> Expr -> res bool)
    (c : DeclChecker) (d : diffResult) (pre post : list (Field * Field))
    (md : Field * Field) (e : string) :
  modified d = pre ++ md :: post ->
  (forall md', md' ∈ pre -> exists x, compatiblePair eq c md' = Ok x) ->
  compatiblePair eq c md = Err e ->
  RemoveInterfaceCompatible eq c d = Err e.
Proof.
  intros Hd Hall Hmd. unfold RemoveInterfaceCompatible. rewrite Hd.
  by rewrite (interfaceCompatible_Err eq c pre post md e).
Qed.

(** X11: [RemoveUnexported] panics exactly when some modified pair has a
    before-field without names; otherwise it keeps the modified pairs whose
    before-field has an exported first name, in their order, and leaves the
    added and removed fields alone. *)
Theorem RemoveUnexported_outcome (d : diffResult) :
  RemoveUnexported d
  = if bool_decide (Forall (fun md => Field_Names (fst md) <> []) (modified d))
    then Ok (mkDiffResult (added d) (removed d)
               (filter (fun md => exportedFirst (fst md) = true) (modified d)))
    else Panic "index out of range".
Proof.
  case_bool_decide as Hall.
  - apply RemoveUnexported_named. by apply Forall_forall.
  - unfold RemoveUnexported. rewrite unexportedIndexes_unnamed; [done|].
    apply not_Forall_Exists in Hall; [|apply _].
    apply Exists_exists in Hall as (md & Hin & Hmd). exists md. split; [done|].
    destruct (Field_Names md.1) eqn:E; [done|].
    exfalso. apply Hmd. simpl. by rewrite E.
Qed.

(** X12: [RemoveVariadicCompatible] either returns no message and the diff
    as it was, or one of its two messages and a diff without changes; the
    second happens only on a diff with no removed field and exactly one added
    or modified field. *)
Theorem RemoveVariadicCompatible_outcome (c : DeclChecker) (d : diffResult) :
  let '(d', msg) := RemoveVariadicCompatible c d in
  (msg = "" /\ d' = d) \/
  (msg ∈ ["added a variadic parameter"; "change parameter to variadic"] /\
   Changed d' = false /\ removed d = [] /\
   length (added d) + length (modified d) = 1).
Proof.
  destruct (RemoveVariadicCompatible c d) as [d' msg] eqn:E.
  apply RemoveVariadicCompatible_inv in E
    as [(-> & Hr & Hm & (a0 & elt & Ha & _) & ->)|
        [(-> & Ha & Hr & (b & a & elt & Hm & _) & ->)|[-> ->]]].
  - right. rewrite Ha, Hm. repeat split; try done. by left.
  - right. rewrite Ha, Hm. repeat split; try done. right; by left.
  - by left.
Qed.

End FuncExtra.

(** *** Further properties: functions and interfaces *)

Section FuncExtra2.
Context {ext : External}.

Lemma stripNames_idemp fs : stripNames (stripNames fs) = stripNames fs.
Proof. induction fs as [|f fs IH]; simpl; [done|]. by rewrite <-IH at 2. Qed.

(** X13: [checkFunc] gives the same answer on the two function types with
    the names of all parameters and results erased; in particular the number
    of names that share a type does not count. *)
Theorem checkFunc_ignores_names (eq : Expr -> Expr -> res bool) (c : DeclChecker)
    (before after : FuncType) :
  checkFunc eq c before after = checkFunc eq c (eraseNames before) (eraseNames after).
Proof.
  destruct before as [bp bres], after as [ap ares].
  unfold checkFunc, eraseNames. simpl. rewrite !stripNames_idemp.
  destruct bres as [bres|], ares as [ares|]; simpl; try done.
  rewrite !stripNames_idemp, stripNames_length. done.
Qed.

(** [checkFunc] reaches its verdict on the parameters first. *)
Lemma checkFunc_split (eq : Expr -> Expr -> res bool) (c : DeclChecker)
    (bp ap : list Field) (bres ares : option (list Field)) :
  checkFunc eq c (mkFuncType bp bres) (mkFuncType ap ares)
  = ch ← checkFunc eq c (mkFuncType bp None) (mkFuncType ap None);
    if String.eqb (Change ch) Breaking then Ok ch else
    match bres with
    | None => Ok ch
    | Some bs =>
        match ares with
        | None => Ok (breaking "removed return parameter")
        | Some as_ =>
            if bool_decide (0 < length bs) then
              r ← diffFields eq (stripNames bs) (stripNames as_);
              if Changed r then Ok (breaking "return parameters changed") else Ok ch
            else Ok ch
        end
    end.
Proof.
  unfold checkFunc. simpl.
  destruct (diffFields eq (stripNames bp) (stripNames ap)) as [r| | |]; simpl; try done.
  destruct (RemoveVariadicCompatible c r) as [r1 vmsg].
  destruct (RemoveInterfaceCompatible eq c r1) as [[r2 imsg]| | |]; simpl; try done.
  destruct (Changed r2); simpl; [done|].
  destruct (negb (String.eqb imsg "")); simpl; [done|].
  destruct (negb (String.eqb vmsg "")); simpl; done.
Qed.

(** X14: the rule of [checkFunc] on results, at its edges.  With the verdict
    [ch] on the parameters alone: a function without result list keeps [ch]
    whatever results the after side has; so does one with an empty result
    list against any result list; a breaking [ch] stands whatever the results
    are; and, [ch] not being breaking, a result list (even an empty one)
    against no result list is breaking. *)
Theorem checkFunc_results_edges (eq : Expr -> Expr -> res bool) (c : DeclChecker)
    (bp ap : list Field) (ch : DeclChange) :
  checkFunc eq c (mkFuncType bp None) (mkFuncType ap None) = Ok ch ->
  (forall ares, checkFunc eq c (mkFuncType bp None) (mkFuncType ap ares) = Ok ch) /\
  (forall ares, checkFunc eq c (mkFuncType bp (Some [])) (mkFuncType ap (Some ares)) = Ok ch) /\
  (forall bres ares,
     Change ch = Breaking ->
     checkFunc eq c (mkFuncType bp bres) (mkFuncType ap ares) = Ok ch) /\
  (forall bres,
     Change ch <> Breaking ->
     checkFunc eq c (mkFuncType bp (Some bres)) (mkFuncType ap None)
     = Ok (breaking "removed return parameter")).
Proof.
  intros Hp. split_and!.
  - intros ares. rewrite checkFunc_split, Hp. simpl. by destruct (String.eqb _ _).
  - intros ares. rewrite checkFunc_split, Hp. simpl. by destruct (String.eqb _ _).
  - intros bres ares Hb. rewrite checkFunc_split, Hp. simpl. by rewrite Hb.
  - intros bres Hnb. rewrite checkFunc_split, Hp. simpl.
    destruct (String.eqb (Change ch) Breaking) eqn:E; [|done].
    by apply String.eqb_eq in E.
Qed.

(** X15: with a verdict on the parameters that is not breaking and a
    non-empty result list before, [checkFunc] keeps that verdict when the two
    result lists have the same length and compare equal position by position,
    and otherwise answers breaking with return parameters changed. *)
Theorem checkFunc_results_positional (eq : Expr -> Expr -> res bool) (c : DeclChecker)
    (bp ap bres ares : list Field) (ch : DeclChange) (r : diffResult) :
  checkFunc eq c (mkFuncType bp None) (mkFuncType ap None) = Ok ch ->
  Change ch <> Breaking ->
  bres <> [] ->
  diffFields eq (stripNames bres) (stripNames ares) = Ok r ->
  let result := checkFunc eq c (mkFuncType bp (Some bres)) (mkFuncType ap (Some ares)) in
  let same := length bres = length ares /\
              forall j bf af, bres !! j = Some bf -> ares !! j = Some af ->
                eq (Field_Type bf) (Field_Type af) = Ok true in
  (same -> result = Ok ch) /\
  (~ same -> result = Ok (breaking "return parameters changed")).
Proof.
  intros Hp Hnb Hne Hrun result same. subst result.
  rewrite checkFunc_split, Hp. simpl.
  destruct (String.eqb (Change ch) Breaking) eqn:E;
    [by apply String.eqb_eq in E|].
  rewrite bool_decide_true by (destruct bres; [done|simpl; lia]).
  rewrite Hrun. simpl.
  destruct (diffFields_positional _ _ _ _ Hrun) as (_ & _ & _ & Hch).
  split.
  - intros Hs. apply Hch in Hs. by rewrite Hs.
  - intros Hns. destruct (Changed r); [done|]. exfalso. apply Hns. by apply Hch.
Qed.

Lemma prefix_app (s1 s2 : string) : String.prefix s1 (s1 +:+ s2) = true.
Proof.
  induction s1 as [|ch s1 IH]; simpl; [by destruct s2|].
  by destruct (ascii_dec ch ch).
Qed.

Lemma string_app_assoc (s1 s2 s3 : string) : (s1 +:+ s2) +:+ s3 = s1 +:+ (s2 +:+ s3).
Proof. induction s1 as [|ch s1 IH]; [done|]. exact (f_equal (String ch) IH). Qed.

(** [strings.Replace(s, old, new, 1)] when [s] starts with [old]. *)
Lemma strings_Replace1_prefix (old rest new : string) :
  strings_Replace1 (old +:+ rest) old new = new +:+ rest.
Proof.
  assert (forall s, strings_Replace1 s old new
            = if String.prefix old s
              then new +:+ String.substring (String.length old)
                             (String.length s - String.length old) s
              else match s with
                   | EmptyString => EmptyString
                   | String ch s' => String ch (strings_Replace1 s' old new)
                   end) as Hunfold by (by intros []).
  rewrite Hunfold, prefix_app, string_length_app.
  replace (String.length old + String.length rest - String.length old)
    with (String.length rest) by lia.
  by rewrite substring_skip_app.
Qed.

(** X16: [exprInterfaceType] cuts the package qualifier from the text of the
    object before it parses it: an object of package [path] with the text
    [type path.rest] gives what an object of the universe scope with the text
    [type rest] gives. *)
Theorem exprInterfaceType_strips_package (obj : Object) (path rest : string) (expr : Expr) :
  Object_Pkg obj = Some path ->
  Object_String obj = "type " +:+ path +:+ "." +:+ rest ->
  exprInterfaceType (fun _ => Some obj) expr
  = exprInterfaceType (fun _ => Some (unqualified obj ("type " +:+ rest))) expr.
Proof.
  intros Hpkg Hstr. unfold exprInterfaceType.
  destruct expr as [| | | | |X Sel|X| | | | | |]; simpl; try done.
  all: try (destruct X; simpl; try done).
  all: rewrite Hpkg, Hstr;
    replace ("type " +:+ path +:+ "." +:+ rest)
      with (("type " +:+ path +:+ ".") +:+ rest)
      by (by rewrite !string_app_assoc);
    by rewrite strings_Replace1_prefix.
Qed.

End FuncExtra2.

(** *** Further properties: errors *)

Section ErrorFacts.
Context {ext : External}.

Lemma exprEqual_not_Err (c : DeclChecker) (n : nat) (b a : Expr) (e : string) :
  exprEqual c n b a <> Err e.
Proof.
  destruct n as [|n]; [done|]. simpl.
  destruct (negb _); [done|].
  destruct b, a; try done.
  - by destruct (checkFunc _ _ _ _).
  - by destruct (checkChan _ _ _).
Qed.

Section NoErr.
Variable eq : Expr -> Expr -> res bool.
Hypothesis eq_not_Err : forall b a e, eq b a <> Err e.

Lemma diffBefore_not_Err before : forall i m r e, diffBefore eq before i m r <> Err e.
Proof.
  induction before as [|bf rest IH]; intros i m r e; simpl; [done|].
  destruct (m !! fieldKey bf i) as [af|]; [|apply IH].
  destruct (eq (Field_Type bf) (Field_Type af)) as [same| | |] eqn:E; simpl;
    [apply IH| |done..].
  by apply eq_not_Err in E.
Qed.

Lemma diffFields_not_Err before after e : diffFields eq before after <> Err e.
Proof.
  unfold diffFields.
  destruct (diffBefore eq before 0 (afterMembers after 0 ∅) emptyDiff)
    as [[m r]| | |] eqn:E; simpl; try done.
  by apply diffBefore_not_Err in E.
Qed.

Lemma checkInterface_not_Err before after e : checkInterface eq before after <> Err e.
Proof.
  unfold checkInterface.
  destruct (diffFields eq _ _) as [r| | |] eqn:E; simpl; try done.
  - destruct (Added r); [done|]. destruct (Modified r); [done|]. by destruct (Removed r).
  - by apply diffFields_not_Err in E.
Qed.

Lemma removeAt_not_Err rmi : forall m e, removeAt rmi m <> Err e.
Proof.
  induction rmi as [|i rmi IH]; intros m e; simpl; [done|].
  destruct (bool_decide _); [apply IH|done].
Qed.

Lemma removeModified_not_Err d rmi e : removeModified d rmi <> Err e.
Proof.
  unfold removeModified.
  destruct (removeAt _ (modified d)) as [m| | |] eqn:E; simpl; try done.
  by apply removeAt_not_Err in E.
Qed.

Lemma unexportedIndexes_not_Err mods : forall i acc e, unexportedIndexes mods i acc <> Err e.
Proof.
  induction mods as [|md mods IH]; intros i acc e; simpl; [done|].
  destruct (Field_Names md.1); [done|]. destruct (negb _); apply IH.
Qed.

Lemma checkStruct_not_Err before after e : checkStruct eq before after <> Err e.
Proof.
  unfold checkStruct, RemoveUnexported.
  destruct (diffFields eq _ _) as [r| | |] eqn:E; simpl; try done.
  - destruct (unexportedIndexes (modified r) 0 []) as [u| | |] eqn:Eu; simpl; try done.
    + destruct (removeModified r u) as [r'| | |] eqn:Er; simpl; try done.
      * destruct (Removed r'); [done|]. destruct (Modified r'); [done|].
        by destruct (Added r').
      * by apply removeModified_not_Err in Er.
    + by apply unexportedIndexes_not_Err in Eu.
  - by apply diffFields_not_Err in E.
Qed.

Lemma interfaceCompatible_Err_inv (c : DeclChecker) mods : forall i compatible msg e,
  interfaceCompatible eq c mods i compatible msg = Err e ->
  exists md, md ∈ mods /\
    (exprInterfaceType (Uses (binfo c)) (Field_Type md.1) = Err e \/
     exprInterfaceType (Uses (ainfo c)) (Field_Type md.2) = Err e).
Proof.
  induction mods as [|md mods IH]; intros i compatible msg e; simpl; [done|].
  assert (forall i compatible msg,
    interfaceCompatible eq c mods i compatible msg = Err e ->
    exists md0, md0 ∈ md :: mods /\
      (exprInterfaceType (Uses (binfo c)) (Field_Type md0.1) = Err e \/
       exprInterfaceType (Uses (ainfo c)) (Field_Type md0.2) = Err e)) as Hrest.
  { intros i' c' m' H. apply IH in H as (md0 & Hin & H). exists md0. split; [by right|done]. }
  destruct (TypeOf (binfo c) (Field_Type md.1)) as [bt|];
    [destruct (TypeOf (ainfo c) (Field_Type md.2)) as [at_|]|]; try apply Hrest.
  destruct (IsInterface bt && IsInterface at_); [|apply Hrest].
  destruct (exprInterfaceType (Uses (binfo c)) (Field_Type md.1))
    as [bint| | |] eqn:Eb; simpl; try done.
  2:{ intros [= ->]. exists md. split; [by left|by left]. }
  destruct (exprInterfaceType (Uses (ainfo c)) (Field_Type md.2))
    as [aint| | |] eqn:Ea; simpl; try done.
  2:{ intros [= ->]. exists md. split; [by left|by right]. }
  destruct (checkInterface eq bint aint) as [change| | |] eqn:Ec; simpl; try done.
  - destruct (negb _); apply Hrest.
  - by apply checkInterface_not_Err in Ec.
Qed.

(** A modified pair is made of a before-field and an after-field. *)
Lemma modified_from_inputs (before after : list Field) (r : diffResult) (b a : Field) :
  diffFields eq before after = Ok r -> (b, a) ∈ modified r -> b ∈ before /\ a ∈ after.
Proof.
  intros Hrun Hin. apply diffFields_Ok_inv in Hrun as [_ ->]. simpl in Hin.
  apply elem_of_modifiedOf in Hin as [Hin _].
  apply elem_of_matches in Hin as (j & Hj & Hx). split.
  - by eapply list_elem_of_lookup_2.
  - destruct (bool_decide _); [done|].
    symmetry in Hx. apply afterMembers_Some in Hx as (j' & Hj' & _).
    by eapply list_elem_of_lookup_2.
Qed.

Lemma elem_of_stripNames (f : Field) (fs : list Field) :
  f ∈ stripNames fs -> exists f0, f0 ∈ fs /\ Field_Type f = Field_Type f0.
Proof.
  intros (j & Hj)%list_elem_of_lookup_1. rewrite stripNames_lookup in Hj.
  destruct (fs !! j) as [f0|] eqn:E; [|done]. injection Hj as <-.
  exists f0. split; [by eapply list_elem_of_lookup_2|done].
Qed.

(** An error of [checkFunc] is the error of [exprInterfaceType] on the type
    of a parameter of one of the two function types. *)
Lemma checkFunc_Err_params (c : DeclChecker) (before after : FuncType) (e : string) :
  checkFunc eq c before after = Err e ->
  exists bf af, bf ∈ FuncType_Params before /\ af ∈ FuncType_Params after /\
    (exprInterfaceType (Uses (binfo c)) (Field_Type bf) = Err e \/
     exprInterfaceType (Uses (ainfo c)) (Field_Type af) = Err e).
Proof.
  unfold checkFunc.
  destruct (diffFields eq (stripNames (FuncType_Params before))
              (stripNames (FuncType_Params after))) as [r| | |] eqn:E; simpl; try done.
  2:{ by apply diffFields_not_Err in E. }
  destruct (RemoveVariadicCompatible c r) as [r1 vmsg] eqn:EV.
  unfold RemoveInterfaceCompatible.
  destruct (interfaceCompatible eq c (modified r1) 0 [] "") as [[cmp msg]| | |] eqn:Ei;
    simpl; try done.
  - destruct (removeModified r1 cmp) as [r2| | |] eqn:Er; simpl; try done.
    2:{ by apply removeModified_not_Err in Er. }
    destruct (Changed r2); [done|].
    assert (forall x : res DeclChange,
      x = (if negb (String.eqb msg "") then Ok (nonBreaking msg)
           else if negb (String.eqb vmsg "") then Ok (nonBreaking vmsg) else Ok none) ->
      x <> Err e) as Hfinal.
    { intros x ->. destruct (negb _); [done|]. by destruct (negb _). }
    destruct (FuncType_Results before) as [bres|]; [|by intros H%Hfinal].
    destruct (FuncType_Results after) as [ares|]; [|done].
    destruct (bool_decide _); [|by intros H%Hfinal].
    destruct (diffFields eq (stripNames bres) (stripNames ares)) as [r3| | |] eqn:E3;
      simpl; try done.
    + destruct (Changed r3); [done|]. by intros H%Hfinal.
    + by apply diffFields_not_Err in E3.
  - intros [= ->].
    apply interfaceCompatible_Err_inv in Ei as ([b a] & Hin & Herr).
    assert ((b, a) ∈ modified r) as Hin'.
    { apply RemoveVariadicCompatible_inv in EV
        as [(_ & _ & _ & _ & ->)|[(_ & _ & _ & _ & ->)|[_ ->]]];
        [by apply elem_of_nil in Hin|by apply elem_of_nil in Hin|done]. }
    destruct (modified_from_inputs _ _ _ _ _ E Hin') as [Hb Ha].
    apply elem_of_stripNames in Hb as (bf & Hbf & Hbt).
    apply elem_of_stripNames in Ha as (af & Haf & Hat).
    exists bf, af. simpl in Herr. rewrite Hbt, Hat in Herr. done.
Qed.

End NoErr.

(** X17: [exprEqual] never returns an error, and [Check] returns one in two
    situations only: on two bad declarations, with the text of the unknown
    declaration type, and on two function declarations, where the error is
    the one that [exprInterfaceType] returns on the type of a parameter of
    the before function (resolved with the before uses) or of a parameter of
    the after function (resolved with the after uses).  Type and value
    declarations never produce an error. *)
Theorem Check_error_sources (c : DeclChecker) (n : nat) :
  (forall b a e, exprEqual c n b a <> Err e) /\
  (forall before after e,
     Check c n before after = Err e ->
     (before = BadDecl /\ after = BadDecl /\
      e = "unknown declaration type: *ast.BadDecl") \/
     (exists bRecv bName bType bBody aRecv aName aType aBody bf af,
        before = FuncDecl bRecv bName bType bBody /\
        after = FuncDecl aRecv aName aType aBody /\
        bf ∈ FuncType_Params bType /\ af ∈ FuncType_Params aType /\
        (exprInterfaceType (Uses (binfo c)) (Field_Type bf) = Err e \/
         exprInterfaceType (Uses (ainfo c)) (Field_Type af) = Err e))).
Proof.
  split; [apply exprEqual_not_Err|].
  intros before after e. unfold Check. destruct (negb _); [done|].
  destruct before as [|btok bSpecs| |bRecv bName bType bBody],
           after as [|atok aSpecs| |aRecv aName aType aBody]; try done.
  - intros [= <-]. by left.
  - destruct bSpecs as [|bspec0 ?], aSpecs as [|aspec0 ?]; try done.
    destruct (negb _); [done|].
    destruct bspec0 as [|bNames ? ?|? bT], aspec0 as [|aNames ? ?|? aT]; try done.
    + destruct bNames as [|bname0 ?], aNames as [|aname0 ?]; try done.
      destruct (ObjectOf (binfo c) bname0), (ObjectOf (ainfo c) aname0); try done.
      by destruct (_ && _).
    + destruct (negb _); [done|].
      destruct bT, aT; try done.
      * by destruct (negb _).
      * intros H. by apply checkStruct_not_Err in H; [|apply exprEqual_not_Err].
      * intros H. by apply checkInterface_not_Err in H; [|apply exprEqual_not_Err].
  - intros H. right.
    apply checkFunc_Err_params in H as (bf & af & ? & ? & ?); [|apply exprEqual_not_Err].
    by exists bRecv, bName, bType, bBody, aRecv, aName, aType, aBody, bf, af.
Qed.

End ErrorFacts.

(** *** Further properties: the extractor *)

Section ExtractExtra.
Context {ext : External}.

Lemma scanSpecs_dropImports Tok ss : forall st,
  scanSpecs Tok (filter (fun s => isImport s = false) ss) st = scanSpecs Tok ss st.
Proof.
  induction ss as [|s ss IH]; intros st; [done|].
  destruct s as [p|ns t vs|nm t].
  - rewrite filter_cons_False by (simpl; congruence). simpl. apply IH.
  - rewrite filter_cons_True by done. simpl.
    destruct (splitNames Tok ns t vs 0 "" NilGenDecl). apply IH.
  - rewrite filter_cons_True by done. simpl. apply IH.
Qed.

Lemma scanDecls_ext (f : Decl -> Decl) :
  (forall d st, scanDecl (f d) st = scanDecl d st) ->
  forall ds st, scanDecls (f <$> ds) st = scanDecls ds st.
Proof.
  intros Hf. induction ds as [|d ds IH]; intros st; [done|].
  cbn [fmap list_fmap scanDecls]. rewrite Hf.
  destruct (scanDecl d st); simpl; [apply IH|done..].
Qed.

Lemma pkgDecls_ext (f : Decl -> Decl) :
  (forall d st, scanDecl (f d) st = scanDecl d st) ->
  forall files : list (list Decl), pkgDecls (fmap (M:=list) f <$> files) = pkgDecls files.
Proof.
  intros Hf files. unfold pkgDecls. rewrite !scanFiles_concat.
  assert (concat (fmap (M:=list) f <$> files) = f <$> concat files) as ->.
  { induction files as [|file files IH]; [done|].
    cbn [fmap list_fmap concat]. by rewrite fmap_app, <-IH. }
  by rewrite (scanDecls_ext f Hf).
Qed.

(** X18: [pkgDecls] gives the same result on the files without their import
    specs, and on the files without their function bodies. *)
Theorem pkgDecls_ignores_imports_and_bodies (files : list (list Decl)) :
  pkgDecls (fmap (M:=list) dropImports <$> files) = pkgDecls files /\
  pkgDecls (fmap (M:=list) dropBody <$> files) = pkgDecls files.
Proof.
  split; apply pkgDecls_ext; intros [|Tok ss| |Recv nm ft body] st; try done.
  simpl. by rewrite scanSpecs_dropImports.
Qed.

Lemma scanDecl_outcome d st :
  match scanDecl d st with
  | Ok _ => scannable d = true
  | Panic _ => scannable d = false
  | _ => False
  end.
Proof.
  destruct d as [|Tok ss| |Recv nm ft body]; simpl; try done.
  unfold funcId.
  destruct Recv as [[|field0 ?]|]; simpl; try by destruct (_ && _).
  destruct (Field_Type field0) as [| | | | | |X| | | | | |]; simpl;
    try by destruct (_ && _).
  destruct X; simpl; try done; by destruct (_ && _).
Qed.

Lemma scanDecls_outcome ds : forall st,
  match scanDecls ds st with
  | Ok _ => Forall (fun d => scannable d = true) ds
  | Panic _ => ~ Forall (fun d => scannable d = true) ds
  | _ => False
  end.
Proof.
  induction ds as [|d ds IH]; intros st; simpl; [done|].
  pose proof (scanDecl_outcome d st) as Hd.
  destruct (scanDecl d st) as [st'| |msg|]; simpl; try done.
  - specialize (IH st'). destruct (scanDecls ds st'); try done.
    + by constructor.
    + intros H. apply Forall_cons in H as [_ H]. by apply IH.
  - intros H. apply Forall_cons in H as [H _]. congruence.
Qed.

(** X19: [pkgDecls] returns a map exactly when every declaration of the
    files is a declaration block or a function whose receiver the scan can
    name; otherwise it panics.  It has no other outcome. *)
Theorem pkgDecls_outcome (files : list (list Decl)) :
  match pkgDecls files with
  | Ok _ => Forall (fun d => scannable d = true) (concat files)
  | Panic _ => ~ Forall (fun d => scannable d = true) (concat files)
  | _ => False
  end.
Proof.
  unfold pkgDecls. rewrite scanFiles_concat.
  pose proof (scanDecls_outcome (concat files) (mkScan ∅ ∅ [])) as H.
  by destruct (scanDecls _ _).
Qed.


Lemma splitNames_shape Tok Names Type_ Values : forall j id decl,
  (decl = NilGenDecl \/ exists n vs, decl = GenDecl Tok [ValueSpec [n] Type_ vs]
                                    /\ length vs <= 1) ->
  let d := snd (splitNames Tok Names Type_ Values j id decl) in
  d = NilGenDecl \/ exists n vs, d = GenDecl Tok [ValueSpec [n] Type_ vs] /\ length vs <= 1.
Proof.
  induction Names as [|name rest IH]; intros j id decl Hd; simpl; [done|].
  apply IH. right. eexists _, _. split; [done|].
  destruct (Values !! j); simpl; lia.
Qed.

Lemma store_inv ds st id decl :
  scanInv ds st ->
  flattened decl = true ->
  (IsExported id = true -> storedPublic id decl) ->
  (exists d0, d0 ∈ ds /\ id ∈ declIds d0) ->
  scanInv ds (store st id decl).
Proof.
  intros (Hd & Hp & Hr) Hflat Hpub Horig. unfold store.
  destruct (IsExported id) eqn:E; (split; [|split]); simpl; try done.
  - intros k d [[<- <-]|[_ H]]%lookup_insert_Some; [|by apply Hd].
    split; [done|]. split; [by apply Hpub|done].
  - intros k d [[<- <-]|[_ H]]%lookup_insert_Some; [|by apply Hp]. done.
Qed.

Lemma scanSpecs_inv ds Tok ss0 : GenDecl Tok ss0 ∈ ds ->
  forall ss st, (forall s, s ∈ ss -> s ∈ ss0) -> scanInv ds st ->
  scanInv ds (scanSpecs Tok ss st).
Proof.
  intros Hin. induction ss as [|s ss IH]; intros st Hsub Hinv; [done|].
  assert (forall s', s' ∈ ss -> s' ∈ ss0) as Hsub' by (intros; apply Hsub; by right).
  assert (s ∈ ss0) as Hs by (apply Hsub; by left).
  destruct s as [p|ns t vs|nm t]; simpl.
  - by apply IH.
  - destruct (splitNames Tok ns t vs 0 "" NilGenDecl) as [id decl] eqn:E.
    apply IH; [done|].
    pose proof (splitNames_shape Tok ns t vs 0 "" NilGenDecl (or_introl eq_refl)) as Hsh.
    rewrite E in Hsh. simpl in Hsh.
    apply store_inv; [done| | |].
    + destruct Hsh as [->|(n & vs' & -> & Hlen)]; [done|]. simpl.
      by apply bool_decide_eq_true.
    + intros Hexp. by destruct Hsh as [->|(n & vs' & -> & Hlen)].
    + exists (GenDecl Tok ss0). split; [done|]. simpl. unfold specIds.
      apply list_elem_of_bind. exists (ValueSpec ns t vs). split; [|done].
      apply list_elem_of_singleton.
      rewrite (splitNames_fst VAR Tok ns None t [] vs 0 0 "" NilGenDecl NilGenDecl).
      by rewrite E.
  - apply IH; [done|]. apply store_inv; [done|done|done|].
    exists (GenDecl Tok ss0). split; [done|]. simpl. unfold specIds.
    apply list_elem_of_bind. exists (TypeSpec nm t). split; [|done]. by left.
Qed.

Lemma returnedTypes_from rs : forall acc t,
  t ∈ returnedTypes rs acc ->
  t ∈ acc \/ exists field ti, field ∈ rs /\
    (Field_Type field = IdentE ti \/ Field_Type field = StarExpr (IdentE ti)) /\
    Name ti = t.
Proof.
  induction rs as [|field rs IH]; intros acc t Ht; simpl in Ht; [by left|].
  assert (t ∈ returnedTypes rs acc -> t ∈ acc \/ exists field0 ti, field0 ∈ field :: rs /\
    (Field_Type field0 = IdentE ti \/ Field_Type field0 = StarExpr (IdentE ti)) /\
    Name ti = t) as Hskip.
  { intros H. apply IH in H as [H|(f & ti & Hf & Hty & Hn)]; [by left|].
    right. exists f, ti. split; [by right|done]. }
  destruct (Field_Type field) as [|ftype| | | | |X| | | | | |] eqn:Ety; try by apply Hskip.
  - apply IH in Ht as [Ht|(f & ti & Hf & Hty & Hn)].
    + apply elem_of_app in Ht as [Ht|Ht]; [by left|].
      apply list_elem_of_singleton in Ht. right. exists field, ftype.
      split; [by left|]. split; [by left|done].
    + right. exists f, ti. split; [by right|done].
  - destruct X as [|ident| | | | | | | | | | |]; try by apply Hskip.
    apply IH in Ht as [Ht|(f & ti & Hf & Hty & Hn)].
    + apply elem_of_app in Ht as [Ht|Ht]; [by left|].
      apply list_elem_of_singleton in Ht. right. exists field, ident.
      split; [by left|]. split; [by right|done].
    + right. exists f, ti. split; [by right|done].
Qed.

Lemma scanDecl_inv ds d st st' :
  d ∈ ds -> scanInv ds st -> scanDecl d st = Ok st' -> scanInv ds st'.
Proof.
  intros Hin Hinv Hscan.
  destruct d as [|Tok ss| |Recv nm ft body]; simpl in Hscan; try done.
  - injection Hscan as <-. by apply (scanSpecs_inv ds Tok ss).
  - destruct (funcId Recv nm) as [[recv id]| | |] eqn:Efid; simpl in Hscan; try done.
    destruct Hinv as (Hd & Hp & Hr).
    assert (exists d0, d0 ∈ ds /\ id ∈ declIds d0) as Horig.
    { exists (FuncDecl Recv nm ft body). split; [done|]. simpl. rewrite Efid. by left. }
    destruct (IsExported (Name nm) && (String.eqb recv "" || IsExported recv)) eqn:E;
      injection Hscan as <-; (split; [|split]); simpl; try done.
    + intros k d [[<- <-]|[_ H]]%lookup_insert_Some; [|by apply Hd].
      split; [done|]. split; [|done]. simpl. by exists recv.
    + intros t Ht.
      destruct (FuncType_Results ft) as [rs|] eqn:Ers; [|by apply Hr].
      apply returnedTypes_from in Ht as [Ht|(field & ti & Hf & Hty & Hn)];
        [by apply Hr|].
      exists (FuncDecl Recv nm ft body). split; [done|].
      by exists Recv, nm, ft, body, recv, id, rs, field, ti.
    + intros k d [[<- <-]|[_ H]]%lookup_insert_Some; [|by apply Hp]. done.
Qed.

Lemma scanDecls_inv ds ds' : forall st st',
  (forall d, d ∈ ds' -> d ∈ ds) -> scanInv ds st -> scanDecls ds' st = Ok st' ->
  scanInv ds st'.
Proof.
  induction ds' as [|d ds' IH]; intros st st' Hsub Hinv Hscan; simpl in Hscan.
  - by injection Hscan as <-.
  - destruct (scanDecl d st) as [st1| | |] eqn:E; simpl in Hscan; try done.
    eapply (IH st1); [intros; apply Hsub; by right| |done].
    eapply scanDecl_inv; [|done..]. apply Hsub. by left.
Qed.

Lemma scanFiles_inv files st :
  scanFiles files (mkScan ∅ ∅ []) = Ok st -> scanInv (concat files) st.
Proof.
  rewrite scanFiles_concat. apply scanDecls_inv; [done|].
  split; [|split]; simpl.
  - intros k d. by rewrite lookup_empty.
  - intros k d. by rewrite lookup_empty.
  - intros t Ht. by apply elem_of_nil in Ht.
Qed.

Section PromoteFrom.
Variable priv : gmap string Decl.

Lemma promoteMethods_from (id k : string) (d : Decl) (l : list (string * Decl)) :
  forall decls,
  foldl (promoteMethod id) decls l !! k = Some d ->
  decls !! k = Some d \/ ((k, d) ∈ l /\ promotedBy id k).
Proof.
  induction l as [|[rid decl] l IH]; intros decls H; simpl in H; [by left|].
  apply IH in H as [H|[Hin Hp]]; [|right; split; [by right|done]].
  unfold promoteMethod in H.
  case_bool_decide as Hlen; [by left|].
  destruct (String.eqb id _ && IsExported _) eqn:E; [|by left].
  apply lookup_insert_Some in H as [[<- <-]|[_ H]]; [|by left].
  right. split; [by left|].
  apply andb_true_iff in E as [E1 E2]. apply String.eqb_eq in E1.
  by split.
Qed.

Lemma promote_from (id k : string) (d : Decl) (decls : gmap string Decl) :
  promote priv decls id !! k = Some d ->
  decls !! k = Some d \/ (priv !! k = Some d /\ (k = id \/ promotedBy id k)).
Proof.
  unfold promote. intros H.
  apply promoteMethods_from in H as [H|[Hin Hp]].
  - destruct (priv !! id) as [d0|] eqn:E; [|by left].
    apply lookup_insert_Some in H as [[<- <-]|[_ H]]; [|by left].
    right. split; [done|by left].
  - apply elem_of_map_to_list in Hin. right. split; [done|by right].
Qed.

Lemma promoteAll_from (k : string) (d : Decl) (returned : list string) :
  forall decls,
  foldl (promote priv) decls returned !! k = Some d ->
  decls !! k = Some d \/
  (priv !! k = Some d /\ exists id, id ∈ returned /\ (k = id \/ promotedBy id k)).
Proof.
  induction returned as [|id returned IH]; intros decls H; simpl in H; [by left|].
  apply IH in H as [H|(Hp & id' & Hin & Hk)].
  - apply promote_from in H as [H|[Hp Hk]]; [by left|].
    right. split; [done|]. exists id. split; [by left|done].
  - right. split; [done|]. exists id'. split; [by right|done].
Qed.

End PromoteFrom.

(** X20: every declaration that [pkgDecls] returns is flattened (a function
    without body, or a block of a single spec, of a single name for a value
    spec), and its key is an identifier of a declaration of the files. *)
Theorem pkgDecls_flattened (files : list (list Decl)) (m : gmap string Decl)
    (k : string) (d : Decl) :
  pkgDecls files = Ok m -> m !! k = Some d ->
  flattened d = true /\ exists d0, d0 ∈ concat files /\ k ∈ declIds d0.
Proof.
  unfold pkgDecls. intros Hrun Hk.
  destruct (scanFiles files (mkScan ∅ ∅ [])) as [st| | |] eqn:Escan; try done.
  simpl in Hrun. injection Hrun as <-.
  apply scanFiles_inv in Escan as (Hd & Hp & _).
  apply promoteAll_from in Hk as [Hk|[Hk _]].
  - by destruct (Hd _ _ Hk) as (? & _ & ?).
  - by apply Hp.
Qed.

(** X21: a declaration is in the result of [pkgDecls] only if the scan
    stored it among the exported declarations, or its key is the name of a
    type that an exported function of the files returns, or passes the method
    test for such a name. *)
Theorem pkgDecls_provenance (files : list (list Decl)) (m : gmap string Decl)
    (k : string) (d : Decl) :
  pkgDecls files = Ok m -> m !! k = Some d ->
  storedPublic k d \/
  exists t d0, d0 ∈ concat files /\ returnedBy d0 t /\ (k = t \/ promotedBy t k).
Proof.
  unfold pkgDecls. intros Hrun Hk.
  destruct (scanFiles files (mkScan ∅ ∅ [])) as [st| | |] eqn:Escan; try done.
  simpl in Hrun. injection Hrun as <-.
  apply scanFiles_inv in Escan as (Hd & _ & Hr).
  apply promoteAll_from in Hk as [Hk|(_ & t & Ht & Hkt)].
  - left. by destruct (Hd _ _ Hk) as (_ & ? & _).
  - right. destruct (Hr _ Ht) as (d0 & Hin & Hret). by exists t, d0.
Qed.

End ExtractExtra.

Section PromoteExtra.
Context {ext : External}.

(** The test of the loop over [priv] does not look at the byte between the
    type name and the method name. *)
Lemma promotedBy_any_separator (id m : string) (ch : ascii) :
  m <> "" -> IsExported m = true -> promotedBy id (id +:+ String ch m).
Proof.
  intros Hm Hexp. unfold promotedBy.
  assert (String.length (id +:+ String ch m) = String.length id + 1 + String.length m)
    as Hlen by (rewrite !string_length_app; simpl; lia).
  rewrite Hlen. split_and!.
  - destruct m; [done|]. simpl. lia.
  - by rewrite substring_0_app.
  - replace (String.length id + 1 + String.length m - (String.length id + 1))
      with (String.length m) by lia.
    replace (id +:+ String ch m) with ((id +:+ String ch "") +:+ m)
      by (by rewrite string_app_assoc).
    replace (String.length id + 1) with (String.length (id +:+ String ch "")).
    2:{ rewrite string_length_app. simpl. lia. }
    by rewrite substring_skip_app.
Qed.

(** X22: the method test of [pkgDecls] does not look at the byte between
    type name and method name: an unexported function whose name is a
    returned type name, any one byte, and an exported name is promoted into
    the result. *)
Theorem pkgDecls_promotes_any_separator (files : list (list Decl))
    (m : gmap string Decl) (ds1 ds2 : list Decl) (Fname : Ident) (ft : FuncType)
    (body : option BlockStmt) (t M : string) (ch : ascii) (d0 : Decl) :
  pkgDecls files = Ok m ->
  concat files = ds1 ++ FuncDecl None Fname ft body :: ds2 ->
  Name Fname = t +:+ String ch M ->
  M <> "" -> IsExported M = true -> IsExported (Name Fname) = false ->
  d0 ∈ concat files -> returnedBy d0 t ->
  Name Fname ∉ ds2 ≫= declIds ->
  m !! Name Fname = Some (FuncDecl None Fname ft None).
Proof.
  intros Hpkg Hsplit Hname HM Hexp Hunexp Hd0 Hret Hlast.
  unfold pkgDecls in Hpkg.
  destruct (scanFiles files (mkScan ∅ ∅ [])) as [st| | |] eqn:Hscan;
    simpl in Hpkg; try discriminate.
  injection Hpkg as <-. rewrite scanFiles_concat in Hscan.
  destruct Hret as (Recv & nm & ft0 & body0 & recv & id & rs & field & ti
                    & -> & Hid & Hpub & Hres & Hfield & Hty & <-).
  apply andb_true_iff in Hpub as [Hpub1 Hpub2].
  assert (Name ti ∈ scan_returned st) as Hreturned.
  { eapply (scan_records_results (concat files)); try done.
    apply orb_true_iff in Hpub2 as [H|H]; [left; by apply String.eqb_eq|by right]. }
  rewrite Hsplit in Hscan.
  apply promoteAll_lookup.
  - eapply scan_stores_private_func; [done|done| |done].
    by rewrite Hunexp.
  - right. exists (Name ti). split; [done|]. right. rewrite Hname.
    by apply promotedBy_any_separator.
Qed.

End PromoteExtra.

Section KeepExtra.
Context {ext : External}.

Lemma scanSpecs_decls_other Tok ss : forall st id,
  id ∉ specIds ss ->
  scan_decls (scanSpecs Tok ss st) !! id = scan_decls st !! id.
Proof.
  induction ss as [|s ss IH]; intros st id Hid; [done|].
  assert (id ∉ specIds ss) as Hss.
  { intros Hin. apply Hid. unfold specIds in *. rewrite bind_cons.
    apply elem_of_app. by right. }
  destruct s as [p|ns t vs|nm t]; simpl.
  - by apply IH.
  - destruct (splitNames Tok ns t vs 0 "" NilGenDecl) as [id' decl] eqn:E.
    rewrite IH by done. unfold store.
    destruct (IsExported id'); simpl; [|done].
    apply lookup_insert_ne. intros <-. apply Hid.
    unfold specIds. rewrite bind_cons. apply elem_of_app. left.
    apply list_elem_of_singleton.
    rewrite (splitNames_fst VAR Tok ns None t [] vs 0 0 "" NilGenDecl NilGenDecl).
    by rewrite E.
  - rewrite IH by done. unfold store.
    destruct (IsExported (Name nm)); simpl; [|done].
    apply lookup_insert_ne. intros <-. apply Hid.
    unfold specIds. rewrite bind_cons. apply elem_of_app. left.
    by apply list_elem_of_singleton.
Qed.

Lemma scanDecl_decls_other d st st' id :
  scanDecl d st = Ok st' -> id ∉ declIds d ->
  scan_decls st' !! id = scan_decls st !! id.
Proof.
  destruct d as [|Tok ss| |Recv nm ft body]; simpl; try discriminate.
  - intros [= <-] Hid. by apply scanSpecs_decls_other.
  - destruct (funcId Recv nm) as [[recv id']| | |]; simpl; try discriminate.
    destruct (_ && _); intros [= <-] Hid; simpl; [|done].
    apply lookup_insert_ne. intros <-. apply Hid. by apply list_elem_of_singleton.
Qed.

Lemma scanDecls_decls_other ds : forall st st' id,
  scanDecls ds st = Ok st' -> id ∉ ds ≫= declIds ->
  scan_decls st' !! id = scan_decls st !! id.
Proof.
  induction ds as [|d ds IH]; intros st st' id; simpl.
  - by intros [= <-].
  - destruct (scanDecl d st) as [st1| | |] eqn:E; simpl; try discriminate.
    intros Hrun Hid. try rewrite bind_cons in Hid.
    rewrite (IH st1 st' id Hrun); [|intros ?; apply Hid, elem_of_app; by right].
    eapply scanDecl_decls_other; [done|].
    intros ?; apply Hid, elem_of_app; by left.
Qed.

Section Other.
Variable priv : gmap string Decl.

Lemma promoteMethods_other (id k : string) (l : list (string * Decl)) :
  forall decls,
  (forall rid decl, (rid, decl) ∈ l -> rid <> k) ->
  foldl (promoteMethod id) decls l !! k = decls !! k.
Proof.
  induction l as [|[rid decl] l IH]; intros decls Hl; simpl; [done|].
  rewrite IH by (intros; eapply Hl; by right).
  unfold promoteMethod.
  destruct (bool_decide _); [done|].
  destruct (_ && _); [|done].
  apply lookup_insert_ne. eapply Hl. by left.
Qed.

Lemma promote_other (id k : string) (decls : gmap string Decl) :
  priv !! k = None -> promote priv decls id !! k = decls !! k.
Proof.
  intros Hk. unfold promote.
  rewrite promoteMethods_other.
  - destruct (priv !! id) as [d|] eqn:E; [|done].
    apply lookup_insert_ne. congruence.
  - intros rid decl Hin%elem_of_map_to_list. congruence.
Qed.

Lemma promoteAll_other (k : string) (returned : list string) :
  forall decls,
  priv !! k = None -> foldl (promote priv) decls returned !! k = decls !! k.
Proof.
  induction returned as [|id returned IH]; intros decls Hk; simpl; [done|].
  rewrite IH by done. by apply promote_other.
Qed.

End Other.

(** X27: an exported function (or method of an exported type) and an exported
    type declaration of the files are in the result of [pkgDecls] under their
    identifier, the function without its body and the type spec in a block of
    its own, when no other declaration of the files has that identifier. *)
Theorem pkgDecls_keeps_exported (files : list (list Decl)) (m : gmap string Decl)
    (ds1 ds2 : list Decl) :
  pkgDecls files = Ok m ->
  (forall Recv Fname ft body recv id,
     concat files = ds1 ++ FuncDecl Recv Fname ft body :: ds2 ->
     funcId Recv Fname = Ok (recv, id) ->
     IsExported (Name Fname) && (String.eqb recv "" || IsExported recv) = true ->
     id ∉ (ds1 ++ ds2) ≫= declIds ->
     m !! id = Some (FuncDecl Recv Fname ft None)) /\
  (forall Tok ss1 nm ty ss2,
     concat files = ds1 ++ GenDecl Tok (ss1 ++ TypeSpec nm ty :: ss2) :: ds2 ->
     IsExported (Name nm) = true ->
     Name nm ∉ specIds (ss1 ++ ss2) ->
     Name nm ∉ (ds1 ++ ds2) ≫= declIds ->
     m !! Name nm = Some (GenDecl Tok [TypeSpec nm ty])).
Proof.
  intros Hpkg. unfold pkgDecls in Hpkg.
  destruct (scanFiles files (mkScan ∅ ∅ [])) as [st| | |] eqn:Hscan;
    simpl in Hpkg; try discriminate.
  injection Hpkg as <-. rewrite scanFiles_concat in Hscan.
  assert (forall id : string, id ∉ (ds1 ++ ds2) ≫= declIds ->
            (id ∉ ds1 ≫= declIds) /\ (id ∉ ds2 ≫= declIds)) as Hsplit.
  { intros id Hid. rewrite bind_app in Hid. split; intros H; apply Hid, elem_of_app; auto. }
  split.
  - intros Recv Fname ft body recv id Hfiles Hid Hpub Hother.
    destruct (Hsplit id Hother) as [H1 H2].
    rewrite Hfiles in Hscan.
    apply scanDecls_split in Hscan as (st1 & st2 & Hs1 & Hd & Hs2).
    simpl in Hd. rewrite Hid in Hd. simpl in Hd. rewrite Hpub in Hd.
    injection Hd as <-.
    rewrite promoteAll_other.
    + rewrite (scanDecls_decls_other _ _ _ _ Hs2 H2). simpl. apply lookup_insert_eq.
    + rewrite (scanDecls_priv_other _ _ _ _ Hs2 H2). simpl.
      rewrite (scanDecls_priv_other _ _ _ _ Hs1 H1). apply lookup_empty.
  - intros Tok ss1 nm ty ss2 Hfiles Hexp Hspecs Hother.
    destruct (Hsplit _ Hother) as [H1 H2].
    assert ((Name nm ∉ specIds ss1) /\ (Name nm ∉ specIds ss2)) as [Hss1 Hss2].
    { unfold specIds in *. rewrite bind_app in Hspecs.
      split; intros H; apply Hspecs, elem_of_app; auto. }
    rewrite Hfiles in Hscan.
    apply scanDecls_split in Hscan as (st1 & st2 & Hs1 & Hd & Hs2).
    simpl in Hd. injection Hd as <-.
    rewrite promoteAll_other.
    + rewrite (scanDecls_decls_other _ _ _ _ Hs2 H2).
      rewrite scanSpecs_app. simpl.
      rewrite scanSpecs_decls_other by done.
      unfold store. rewrite Hexp. simpl. apply lookup_insert_eq.
    + rewrite (scanDecls_priv_other _ _ _ _ Hs2 H2).
      rewrite scanSpecs_app. simpl.
      rewrite scanSpecs_priv_other by done.
      unfold store. rewrite Hexp. simpl.
      rewrite scanSpecs_priv_other by done.
      rewrite (scanDecls_priv_other _ _ _ _ Hs1 H1). apply lookup_empty.
Qed.

End KeepExtra.

(** *** Further properties: the driver *)

Section DriverExtra.
Context {ext : External}.

Lemma compareBefore_elem d n pkgName bpkg apkg l : forall changes changes',
  compareBefore d n pkgName bpkg apkg l changes = Ok changes' ->
  forall ch, ch ∈ changes' <->
    ch ∈ changes \/
    exists id bDecl, (id, bDecl) ∈ l /\
      ((pkg_decls apkg !! id = None /\
        ch = mkChange pkgName id "declaration removed" Breaking
                      (pos (pkg_fset bpkg) bDecl) (Some bDecl) None) \/
       (exists aDecl change,
          pkg_decls apkg !! id = Some aDecl /\
          Check d n bDecl aDecl = Ok change /\ Change change <> None_ /\
          ch = mkChange pkgName id (Msg change) (Change change)
                        (pos (pkg_fset apkg) aDecl) (Some bDecl) (Some aDecl))).
Proof.
  induction l as [|[id bDecl] l IH]; intros changes changes' Hrun ch; simpl in Hrun.
  - injection Hrun as <-. split; [by left|].
    intros [H|(? & ? & H & _)]; [done|by apply elem_of_nil in H].
  - destruct (pkg_decls apkg !! id) as [aDecl|] eqn:Ea.
    + destruct (Check d n bDecl aDecl) as [change| | |] eqn:EC; try discriminate.
      destruct (String.eqb (Change change) None_) eqn:En.
      * apply String.eqb_eq in En.
        rewrite (IH _ _ Hrun). split.
        -- intros [H|(id' & b' & Hin & H)]; [by left|].
           right. exists id', b'. split; [by right|done].
        -- intros [H|(id' & b' & Hin & H)]; [by left|].
           apply elem_of_cons in Hin as [[= -> ->]|Hin].
           ++ destruct H as [[H _]|(a' & c' & Ha' & Hc' & Hne & _)]; [congruence|].
              rewrite Ea in Ha'. injection Ha' as <-. rewrite EC in Hc'.
              injection Hc' as <-. done.
           ++ right. by exists id', b'.
      * apply String.eqb_neq in En.
        rewrite (IH _ _ Hrun). rewrite elem_of_app, list_elem_of_singleton. split.
        -- intros [[H| ->]|(id' & b' & Hin & H)]; [by left| |].
           ++ right. exists id, bDecl. split; [by left|]. right. by exists aDecl, change.
           ++ right. exists id', b'. split; [by right|done].
        -- intros [H|(id' & b' & Hin & H)]; [by left; left|].
           apply elem_of_cons in Hin as [[= -> ->]|Hin].
           ++ destruct H as [[H _]|(a' & c' & Ha' & Hc' & Hne & ->)]; [congruence|].
              rewrite Ea in Ha'. injection Ha' as <-. rewrite EC in Hc'.
              injection Hc' as <-. left. by right.
           ++ right. by exists id', b'.
    + rewrite (IH _ _ Hrun). rewrite elem_of_app, list_elem_of_singleton. split.
      * intros [[H| ->]|(id' & b' & Hin & H)]; [by left| |].
        -- right. exists id, bDecl. split; [by left|]. by left.
        -- right. exists id', b'. split; [by right|done].
      * intros [H|(id' & b' & Hin & H)]; [by left; left|].
        apply elem_of_cons in Hin as [[= -> ->]|Hin].
        -- destruct H as [[_ ->]|(a' & c' & Ha' & _)]; [left; by right|congruence].
        -- right. by exists id', b'.
Qed.

Lemma compareAfter_elem pkgName bpkg apkg l : forall changes ch,
  ch ∈ compareAfter pkgName bpkg apkg l changes <->
    ch ∈ changes \/
    exists id aDecl, (id, aDecl) ∈ l /\ pkg_decls bpkg !! id = None /\
      ch = mkChange pkgName id "declaration added" NonBreaking
                    (pos (pkg_fset apkg) aDecl) None (Some aDecl).
Proof.
  induction l as [|[id aDecl] l IH]; intros changes ch; simpl.
  - split; [by left|]. intros [H|(? & ? & H & _)]; [done|by apply elem_of_nil in H].
  - destruct (pkg_decls bpkg !! id) as [bDecl|] eqn:Eb; rewrite IH.
    + split.
      * intros [H|(id' & a' & Hin & H)]; [by left|].
        right. exists id', a'. split; [by right|done].
      * intros [H|(id' & a' & Hin & Hb & H)]; [by left|].
        apply elem_of_cons in Hin as [[= -> ->]|Hin]; [congruence|].
        right. by exists id', a'.
    + rewrite elem_of_app, list_elem_of_singleton. split.
      * intros [[H| ->]|(id' & a' & Hin & H)]; [by left| |].
        -- right. exists id, aDecl. split; [by left|done].
        -- right. exists id', a'. split; [by right|done].
      * intros [H|(id' & a' & Hin & Hb & ->)]; [by left; left|].
        apply elem_of_cons in Hin as [[= -> ->]|Hin]; [left; by right|].
        right. by exists id', a'.
Qed.

Lemma comparePkgs_elem n a l : forall changes changes',
  comparePkgs n a l changes = Ok changes' ->
  forall ch, ch ∈ changes' <->
    ch ∈ changes \/
    exists pkgName bpkg, (pkgName, bpkg) ∈ l /\ reportedIn n a pkgName bpkg ch.
Proof.
  induction l as [|[pkgName bpkg] l IH]; intros changes changes' Hrun ch; simpl in Hrun.
  - injection Hrun as <-. split; [by left|].
    intros [H|(? & ? & H & _)]; [done|by apply elem_of_nil in H].
  - assert (forall P : Prop,
      (P \/ exists pn bp, (pn, bp) ∈ l /\ reportedIn n a pn bp ch) \/
        reportedIn n a pkgName bpkg ch <->
      P \/ exists pn bp, (pn, bp) ∈ (pkgName, bpkg) :: l /\ reportedIn n a pn bp ch)
      as Hshape.
    { intros P. split.
      - intros [[H|(pn & bp & Hin & H)]|H]; [by left| |].
        + right. exists pn, bp. split; [by right|done].
        + right. exists pkgName, bpkg. split; [by left|done].
      - intros [H|(pn & bp & Hin & H)]; [by left; left|].
        apply elem_of_cons in Hin as [[= -> ->]|Hin]; [by right|].
        left. right. by exists pn, bp. }
    destruct (a !! pkgName) as [apkg|] eqn:Ea.
    + destruct (compareBefore _ n pkgName bpkg apkg _ changes) as [cs| | |] eqn:EB;
        simpl in Hrun; try discriminate.
      rewrite (IH _ _ Hrun), <-Hshape.
      rewrite compareAfter_elem, (compareBefore_elem _ _ _ _ _ _ _ _ EB).
      split.
      * intros [[[H|(id & bDecl & Hin & H)]|(id & aDecl & Hin & Hb & ->)]|H];
          [by left; left| | |by left; right].
        -- right. apply elem_of_map_to_list in Hin.
           destruct H as [[Hn ->]|(aDecl & change & Hs & HC & Hne & ->)].
           ++ by eapply reported_declaration_removed.
           ++ by eapply reported_declaration_changed.
        -- right. apply elem_of_map_to_list in Hin.
           by eapply reported_declaration_added.
      * intros [[H|H]|H]; [by left; left; left|by right|].
        left. inversion H as [Hn|apkg' id bDecl Ha' Hb Hn|
                              apkg' id bDecl aDecl change Ha' Hb Hs HC Hne|
                              apkg' id aDecl Ha' Hs Hn]; subst;
          try congruence; rewrite Ea in Ha'; injection Ha' as <-.
        -- left. right. exists id, bDecl. split; [by apply elem_of_map_to_list|].
           by left.
        -- left. right. exists id, bDecl. split; [by apply elem_of_map_to_list|].
           right. by exists aDecl, change.
        -- right. exists id, aDecl. split; [by apply elem_of_map_to_list|done].
    + rewrite (IH _ _ Hrun), <-Hshape.
      rewrite elem_of_app, list_elem_of_singleton. split.
      * intros [[H| ->]|H]; [by left; left| |by left; right].
        right. by apply reported_package_removed.
      * intros [[H|H]|H]; [by left; left|by right|].
        inversion H; subst; try congruence. left. by right.
Qed.

(** X23: when [compareDecls] returns, its changes are exactly the reported
    ones: a removed package, a removed declaration, a declaration whose
    classification is not [None_], an added declaration. *)
Theorem compareDecls_reports (c : Checker) (n : nat) (changes : list Change_)
    (ch : Change_) :
  compareDecls c n = Ok changes ->
  ch ∈ changes <-> reported c n ch.
Proof.
  unfold compareDecls, reported. intros Hrun.
  rewrite (comparePkgs_elem _ _ _ _ _ Hrun). split.
  - intros [H|(pn & bp & Hin & H)]; [by apply elem_of_nil in H|].
    exists pn, bp. split; [by apply elem_of_map_to_list|done].
  - intros (pn & bp & Hin & H). right. exists pn, bp.
    split; [by apply elem_of_map_to_list|done].
Qed.

(** X24: [compareDecls] never returns a change classified as no change, nor
    a change of a package that the before revision lacks; a change without
    declarations is a removed package and has no identifier; a non-breaking
    change without a before-declaration carries a declaration of the after
    revision. *)
Theorem compareDecls_never_reports (c : Checker) (n : nat) (changes : list Change_)
    (ch : Change_) :
  compareDecls c n = Ok changes -> ch ∈ changes ->
  Change_Change ch <> None_ /\
  is_Some (Checker_b c !! Change_Pkg ch) /\
  (Change_Before ch = None -> Change_After ch = None -> Change_ID ch = "") /\
  (Change_Change ch = NonBreaking -> Change_Before ch = None ->
     exists apkg, Checker_a c !! Change_Pkg ch = Some apkg /\
       pkg_decls apkg !! Change_ID ch = Change_After ch).
Proof.
  unfold compareDecls. intros Hrun Hin.
  apply (comparePkgs_elem _ _ _ _ _ Hrun) in Hin
    as [Hin|(pkgName & bpkg & Hb & H)]; [by apply elem_of_nil in Hin|].
  apply elem_of_map_to_list in Hb.
  inversion H as [Hn|apkg id bDecl Ha Hbd Hn|
                  apkg id bDecl aDecl change Ha Hbd Had HC Hne|
                  apkg id aDecl Ha Had Hn]; subst; simpl; split_and!; try done.
  intros _ _. by exists apkg.
Qed.

End DriverExtra.

(** *** The field-diff partition, against the words of the specification *)

Section PartitionFacts.
Context {ext : External}.











End PartitionFacts.

(** *** The variadic exception, on the parameters of two functions *)

Section VariadicFacts.
Context {ext : External}.





End VariadicFacts.

(** *** Closed instances *)

(** Case analysis on membership in an explicit list. *)
Ltac elem_cases H :=
  repeat (apply elem_of_cons in H as [H|H]; [simplify_eq; try reflexivity|]);
  try (by apply elem_of_nil in H).

Lemma C1_witness :
  exists msg,
    msg ∈ ["changed declaration"; "changed spec"; "changed type of value spec"] /\
    forall (c : DeclChecker) (n : nat),
      Check c n (GenDecl VAR [ValueSpec [Toy.ident "X"] None []])
                (FuncDecl None (Toy.ident "X") (mkFuncType [] None) None)
        = Ok (breaking msg) /\
      Change (breaking msg) = Breaking.
Proof.
  apply (C1_kind_change_is_breaking _ _ KValue KFunction); [reflexivity..|discriminate].
Defined.

Lemma C10_witness :
  Check Toy.checker 0
    (GenDecl TYPE [TypeSpec (Toy.ident "T") (MapType (Toy.tIdent "string") (Toy.tIdent "int"))])
    (GenDecl TYPE [TypeSpec (Toy.ident "T") (MapType (Toy.tIdent "string") (Toy.tIdent "bool"))])
  = Ok none.
Proof.
  apply C10_other_underlying_types_none; [reflexivity|].
  simpl. intros Hin. repeat (apply elem_of_cons in Hin as [Hin|Hin]; [discriminate|]).
  by apply elem_of_nil in Hin.
Defined.





Lemma C7_witness :
  exists m, pkgDecls [[GenDecl VAR [ValueSpec [Toy.ident "A"; Toy.ident "B"]
                                      (Some (Toy.tIdent "int")) []]]] = Ok m /\
            m !! "A" = None /\ is_Some (m !! "B").
Proof.
  eexists. split; [apply (C7_only_last_name_kept VAR [Toy.ident "A"] (Toy.ident "B"))|].
  simpl. split; [done|]. rewrite lookup_singleton_eq. by eexists.
Defined.

(** C2: the code panics on a struct whose embedded field changes its type.
    [struct { A int; io.Reader }] against [struct { A int; io.Writer }]: the
    embedded fields share the key "1", their types differ, the pair is
    modified, and [RemoveUnexported] indexes the empty list of names of the
    before-field. *)
Theorem C2_embedded_field_change_panics :
  let io s := SelectorExpr (Toy.tIdent "io") (Toy.ident s) in
  let A := Toy.field "A" Example.int in
  forall n,
    Check Toy.checker (S n) (structDecl (Toy.ident "S") [A; mkField [] (io "Reader")])
                            (structDecl (Toy.ident "S") [A; mkField [] (io "Writer")])
    = Panic "index out of range".
Proof. intros io A n. reflexivity. Qed.

(** A struct whose only change is the type of an unexported, named field. *)
Example unexported_field_insulation :
  Check Toy.checker 1
    (structDecl (Toy.ident "S") [Toy.field "A" Example.int; Toy.field "b" Example.int])
    (structDecl (Toy.ident "S") [Toy.field "A" Example.int; Toy.field "b" (Toy.tIdent "string")])
  = Ok none.
Proof. reflexivity. Qed.

(** C9: a failure to resolve an interface inside a nested function type is
    dropped.  For [func F(x interface{A()})] against
    [func F(x interface{A(); B()})] the interface written in place cannot be
    resolved and [compareDecls] returns the tagged error.  For
    [func F(cb func(x interface{A()}))] against
    [func F(cb func(x interface{A(); B()}))] the same failure occurs while the
    parameter types are compared; [exprEqual] discards it, takes the two
    function types for equal, and [compareDecls] reports no change. *)
Theorem C9_nested_failure_dropped :
  let c inner := mkChecker (Example.revision (inner Example.ifaceA))
                           (Example.revision (inner Example.ifaceAB)) in
  forall n,
    compareDecls (c Example.direct) (S n)
      = Err (mkDiffError "unknown interface type" "p"
               (Example.direct Example.ifaceA) (Example.direct Example.ifaceAB)) /\
    checkFunc (exprEqual Toy.checker (S n)) Toy.checker
        (mkFuncType [Toy.field "x" Example.ifaceA] None)
        (mkFuncType [Toy.field "x" Example.ifaceAB] None)
      = Err "unknown interface type" /\
    Check Toy.checker (S (S n)) (Example.nested Example.ifaceA)
                                (Example.nested Example.ifaceAB) = Ok none /\
    compareDecls (c Example.nested) (S (S n)) = Ok [].
Proof. intros c n. split_and!; vm_compute; reflexivity. Qed.

(** C6: the verdict of [checkChan] is lost on the way up.  A send-only channel
    widened to a bidirectional one is answered by [checkChan] with
    non-breaking "removed channel's direction"; [exprEqual], its only caller,
    keeps of this answer that it is not breaking and takes the two channel
    types for equal.  So [func F(c chan<- int)] against [func F(c chan int)],
    and the same change in the field of a struct, are answered by "no
    change", and [compareDecls] reports nothing; the narrowing, the other
    way round, is reported as breaking. *)
Theorem C6_channel_verdict_lost :
  let int := Toy.tIdent "int" in
  let send := mkChanType SEND int in
  let both := mkChanType (Z.lor SEND RECV) int in
  let F t := FuncDecl None (Toy.ident "F")
               (mkFuncType [Toy.field "c" (ChanTypeE t)] None) None in
  let St t := structDecl (Toy.ident "S") [Toy.field "C" (ChanTypeE t)] in
  forall n,
    checkChan (exprEqual Toy.checker (S n)) send both
      = Ok (nonBreaking "removed channel's direction") /\
    exprEqual Toy.checker (S (S n)) (ChanTypeE send) (ChanTypeE both) = Ok true /\
    Check Toy.checker (S (S n)) (F send) (F both) = Ok none /\
    Check Toy.checker (S (S n)) (St send) (St both) = Ok none /\
    compareDecls (mkChecker (Example.revision (F send)) (Example.revision (F both)))
                 (S (S n)) = Ok [] /\
    Check Toy.checker (S (S n)) (F both) (F send)
      = Ok (breaking "parameter types changed").
Proof. intros int send both F St n. split_and!; vm_compute; reflexivity. Qed.

(** C3: a method whose signature changes is not always reported.  A method
    [M()] that gains results is answered by "no change", whatever the
    resolver.  A method [M(a int)] that becomes [M(a ...int)] is answered by
    "no change" too, while the same change of a function [M] is reported as
    non-breaking "change parameter to variadic": [exprEqual] keeps of the
    answer of [checkFunc] that it is not breaking.  And next to an embedded
    interface, which is keyed by its position, the removal of a method is
    answered by breaking "members added". *)
Theorem C3_method_change_unreported :
  let int := Toy.tIdent "int" in
  let M ft := mkField [Toy.ident "M"] (FuncTypeE ft) in
  let I ms := interfaceDecl (Toy.ident "I") ms in
  (forall (c : DeclChecker) (n : nat) (results : list Field),
     Check c (S n) (I [M (mkFuncType [] None)]) (I [M (mkFuncType [] (Some results))])
     = Ok none) /\
  (forall n,
     Check Toy.checker (S (S n))
       (I [M (mkFuncType [Toy.field "a" int] None)])
       (I [M (mkFuncType [Toy.field "a" (Ellipsis int)] None)]) = Ok none /\
     Check Toy.checker (S (S n))
       (FuncDecl None (Toy.ident "M") (mkFuncType [Toy.field "a" int] None) None)
       (FuncDecl None (Toy.ident "M") (mkFuncType [Toy.field "a" (Ellipsis int)] None) None)
     = Ok (nonBreaking "change parameter to variadic")) /\
  (forall (c : DeclChecker) (n : nat) (A embedded : Expr),
     Check c n (I [Toy.field "A" A; mkField [] embedded]) (I [mkField [] embedded])
     = Ok (breaking "members added")).
Proof.
  intros int M I. split_and!.
  - intros c n results. vm_compute. reflexivity.
  - intros n. split; vm_compute; reflexivity.
  - intros c n A embedded. vm_compute. reflexivity.
Qed.

(** C5: the promoted declaration of a struct is compared field by field,
    and of a field that declares several names only the first is seen.  The
    unexported [type foo struct { x, y int }], returned by the exported
    [New], is kept by the extractor in both revisions; against
    [struct { x int }], which has lost [y], the answer is "no change" and
    [compareDecls] reports nothing, and so is the answer the other way round,
    [y] being added.  Next to an embedded field, which is keyed by its
    position, the addition of a field in front is answered by breaking
    "members removed".  With [x] and [y] declared one by one, the removal is
    breaking and the addition non-breaking. *)
Theorem C5_field_of_a_group_unreported :
  let x := Toy.ident "x" in
  let y := Toy.ident "y" in
  let reader := SelectorExpr (Toy.tIdent "io") (Toy.ident "Reader") in
  let revision fields : gmap string pkg :=
    match pkgDecls [Example.file fields] with
    | Ok decls => {[ "p" := mkPkg (fun _ => "p.go:1") decls Toy.info ]}
    | _ => ∅
    end in
  let decls fields : gmap string Decl :=
    {[ "foo" := Example.fooStruct fields;
       "New" := dropBody Example.New;
       "foo.Bar" := dropBody Example.Bar ]} in
  forall n,
    pkgDecls [Example.file [mkField [x; y] Example.int]]
      = Ok (decls [mkField [x; y] Example.int]) /\
    pkgDecls [Example.file [mkField [x] Example.int]]
      = Ok (decls [mkField [x] Example.int]) /\
    Check Toy.checker (S n) (Example.fooStruct [mkField [x; y] Example.int])
                            (Example.fooStruct [mkField [x] Example.int]) = Ok none /\
    compareDecls (mkChecker (revision [mkField [x; y] Example.int])
                            (revision [mkField [x] Example.int])) (S n) = Ok [] /\
    Check Toy.checker (S n) (Example.fooStruct [mkField [x] Example.int])
                            (Example.fooStruct [mkField [x; y] Example.int]) = Ok none /\
    Check Toy.checker (S n) (Example.fooStruct [mkField [] reader])
                            (Example.fooStruct [mkField [x] Example.int; mkField [] reader])
      = Ok (breaking "members removed") /\
    Check Toy.checker (S n)
      (Example.fooStruct [mkField [x] Example.int; mkField [y] Example.int])
      (Example.fooStruct [mkField [x] Example.int]) = Ok (breaking "members removed") /\
    Check Toy.checker (S n)
      (Example.fooStruct [mkField [x] Example.int])
      (Example.fooStruct [mkField [x] Example.int; mkField [y] Example.int])
      = Ok (nonBreaking "members added").
Proof. intros x y reader revision decls n. split_and!; vm_compute; reflexivity. Qed.

(** *** Closed instances of the further properties *)

Lemma diffFields_reports_inputs_witness :
  let A t := Toy.field "A" (Toy.tIdent t) in
  let B := Toy.field "B" (Toy.tIdent "int") in
  let C := Toy.field "C" (Toy.tIdent "int") in
  let eq := exprEqual Toy.checker 1 in
  let r := mkDiffResult [C] [B] [(A "int", A "string")] in
  diffFields eq [A "int"; B] [A "string"; C] = Ok r /\
  removed r `sublist_of` [A "int"; B] /\
  (modified r).*1 `sublist_of` [A "int"; B] /\
  (forall b a, (b, a) ∈ modified r ->
     a ∈ [A "string"; C] /\ eq (Field_Type b) (Field_Type a) = Ok false) /\
  (forall f, f ∈ added r -> f ∈ [A "string"; C]) /\
  length (removed r) + length (modified r) <= length [A "int"; B].
Proof.
  intros A B C eq r. split; [vm_compute; reflexivity|].
  apply (diffFields_reports_inputs eq [A "int"; B] [A "string"; C] r).
  vm_compute. reflexivity.
Defined.

Lemma diffFields_added_iff_witness :
  let A := Toy.field "A" (Toy.tIdent "int") in
  let C := Toy.field "C" (Toy.tIdent "int") in
  let r := mkDiffResult [C] [] [] in
  diffFields (exprEqual Toy.checker 1) [A] [A; C] = Ok r /\
  (Added r = true <-> exists k, k ∈ fieldKeys [A; C] /\ k ∉ fieldKeys [A]).
Proof.
  intros A C r. split; [vm_compute; reflexivity|].
  apply (diffFields_added_iff (exprEqual Toy.checker 1)).
  vm_compute. reflexivity.
Defined.

Lemma diffFields_repeated_key_removed_witness :
  let blank := Toy.field "_" (Toy.tIdent "int") in
  let r := mkDiffResult [] [blank] [] in
  diffFields (exprEqual Toy.checker 1) [blank; blank] [blank; blank] = Ok r /\
  blank ∈ removed r /\ Changed r = true.
Proof.
  intros blank r. split; [vm_compute; reflexivity|].
  apply (diffFields_repeated_key_removed (exprEqual Toy.checker 1)
           [blank; blank] [blank; blank] r 0 1 blank blank);
    [vm_compute; reflexivity|reflexivity|reflexivity|lia|reflexivity].
Defined.

Lemma diffFields_shadowed_after_field_witness :
  let f := Toy.field "_" (Toy.tIdent "int") in
  let g := Toy.field "_" (Toy.tIdent "string") in
  let r := mkDiffResult [g] [] [] in
  diffFields (exprEqual Toy.checker 1) [] [f; g] = Ok r /\
  (f ∉ added r) /\ forall b, (b, f) ∉ modified r.
Proof.
  intros f g r. split; [vm_compute; reflexivity|].
  apply (diffFields_shadowed_after_field (exprEqual Toy.checker 1) [] [f; g] r 0 1 f g);
    [vm_compute; reflexivity|reflexivity|reflexivity|lia|reflexivity|].
  intros [|[|i']] Hi'; [done|discriminate|discriminate].
Defined.

Lemma diffFields_positional_witness :
  let int := mkField [Toy.ident "a"] (Toy.tIdent "int") in
  let str := mkField [Toy.ident "b"] (Toy.tIdent "string") in
  let eq := exprEqual Toy.checker 1 in
  let r := mkDiffResult [] (stripNames [str]) [(mkField [] (Toy.tIdent "int"),
                                                mkField [] (Toy.tIdent "string"))] in
  diffFields eq (stripNames [int; str]) (stripNames [str]) = Ok r /\
  removed r = drop (length [str]) (stripNames [int; str]) /\
  added r ≡ₚ drop (length [int; str]) (stripNames [str]) /\
  modified r = differing (answer eq) (stripNames [int; str]) (stripNames [str]) /\
  (Changed r = false <->
   length [int; str] = length [str] /\
   forall j bf af, [int; str] !! j = Some bf -> [str] !! j = Some af ->
     eq (Field_Type bf) (Field_Type af) = Ok true).
Proof.
  intros int str eq r. split; [vm_compute; reflexivity|].
  apply (diffFields_positional eq [int; str] [str] r).
  vm_compute. reflexivity.
Defined.

Lemma Check_same_fields_none_witness :
  let fs := [Toy.field "A" (Toy.tIdent "int"); Toy.field "b" (Toy.fn [Toy.tIdent "int"] None)] in
  NoDup (fieldKeys fs) /\
  Check Toy.checker 2 (interfaceDecl (Toy.ident "T") fs) (interfaceDecl (Toy.ident "T") fs)
    = Ok none /\
  Check Toy.checker 2 (structDecl (Toy.ident "T") fs) (structDecl (Toy.ident "T") fs)
    = Ok none.
Proof.
  intros fs.
  assert (NoDup (fieldKeys fs)) as Hnd by (apply (bool_decide_unpack _); by vm_compute).
  split; [exact Hnd|].
  apply (Check_same_fields_none Toy.checker 2 (Toy.ident "T") (Toy.ident "T") fs Hnd).
  intros f Hin. elem_cases Hin.
Defined.

Lemma Check_repeated_key_never_none_witness :
  let blank := Toy.field "_" (Toy.tIdent "int") in
  let S := structDecl (Toy.ident "S") [blank; blank] in
  let I := interfaceDecl (Toy.ident "I") [blank; blank] in
  fieldKey blank 0 = fieldKey blank 1 /\
  Check Toy.checker 1 S S = Ok (breaking "members removed") /\
  Check Toy.checker 1 I I <> Ok none /\
  (forall ch, Check Toy.checker 1 S S = Ok ch -> ch = breaking "members removed").
Proof.
  intros blank S I. split; [reflexivity|]. split; [vm_compute; reflexivity|].
  apply (Check_repeated_key_never_none Toy.checker 1 (Toy.ident "S") (Toy.ident "S")
           [blank; blank] [blank; blank] 0 1 blank blank);
    [reflexivity|reflexivity|lia|reflexivity].
Defined.

Lemma RemoveInterfaceCompatible_filter_witness :
  let narrowed := (mkField [] (Parsed.io "ReadCloser"), mkField [] (Parsed.io "Reader")) in
  let other := (mkField [] (Toy.tIdent "int"), mkField [] (Toy.tIdent "string")) in
  let eq := exprEqual Parsed.checker 2 in
  (forall md, md ∈ [narrowed; other] -> exists x, compatiblePair eq Parsed.checker md = Ok x) /\
  RemoveInterfaceCompatible eq Parsed.checker (mkDiffResult [] [] [narrowed; other])
  = Ok (mkDiffResult [] [] [other], "compatible interface change").
Proof.
  intros narrowed other eq.
  assert (forall md, md ∈ [narrowed; other] ->
            exists x, compatiblePair eq Parsed.checker md = Ok x) as Hall.
  { intros md Hin.
    apply elem_of_cons in Hin as [->|Hin]; [exists true; vm_compute; reflexivity|].
    apply elem_of_cons in Hin as [->|Hin]; [exists false; vm_compute; reflexivity|].
    by apply elem_of_nil in Hin. }
  split; [exact Hall|].
  rewrite (RemoveInterfaceCompatible_filter eq Parsed.checker
             (mkDiffResult [] [] [narrowed; other]) Hall).
  vm_compute. reflexivity.
Defined.

Lemma RemoveInterfaceCompatible_first_error_witness :
  let other := (mkField [] (Toy.tIdent "int"), mkField [] (Toy.tIdent "string")) in
  let unknown := (mkField [] (Toy.tIdent "interfaceA"), mkField [] (Toy.tIdent "interfaceB")) in
  let eq := exprEqual Toy.checker 1 in
  compatiblePair eq Toy.checker unknown = Err "could not find interface in uses" /\
  RemoveInterfaceCompatible eq Toy.checker (mkDiffResult [] [] [other; unknown])
  = Err "could not find interface in uses".
Proof.
  intros other unknown eq. split; [vm_compute; reflexivity|].
  apply (RemoveInterfaceCompatible_first_error eq Toy.checker
           (mkDiffResult [] [] [other; unknown]) [other] [] unknown);
    [reflexivity| |vm_compute; reflexivity].
  intros md Hin.
  apply elem_of_cons in Hin as [->|Hin]; [exists false; vm_compute; reflexivity|].
  by apply elem_of_nil in Hin.
Defined.

Lemma checkFunc_results_edges_witness :
  let T := Toy.tIdent "T" in
  let eq := exprEqual Toy.checker 1 in
  let bp := [Toy.field "a" T] in
  let ap := [Toy.field "a" T; Toy.field "b" (Ellipsis T)] in
  let ch := nonBreaking "added a variadic parameter" in
  checkFunc eq Toy.checker (mkFuncType bp None) (mkFuncType ap None) = Ok ch /\
  checkFunc eq Toy.checker (mkFuncType bp None) (mkFuncType ap (Some [mkField [] T])) = Ok ch /\
  checkFunc eq Toy.checker (mkFuncType bp (Some [])) (mkFuncType ap (Some [mkField [] T]))
    = Ok ch /\
  checkFunc eq Toy.checker (mkFuncType bp (Some [])) (mkFuncType ap None)
    = Ok (breaking "removed return parameter").
Proof.
  intros T eq bp ap ch.
  assert (checkFunc eq Toy.checker (mkFuncType bp None) (mkFuncType ap None) = Ok ch)
    as Hp by (vm_compute; reflexivity).
  destruct (checkFunc_results_edges eq Toy.checker bp ap ch Hp) as (H1 & H2 & _ & H4).
  split; [exact Hp|]. split; [apply H1|]. split; [apply H2|].
  apply H4. discriminate.
Defined.

Lemma checkFunc_results_positional_witness :
  let T := Toy.tIdent "T" in
  let eq := exprEqual Toy.checker 1 in
  let error := mkField [Toy.ident "err"] (Toy.tIdent "error") in
  let before := mkFuncType [] (Some [mkField [] T]) in
  let after := mkFuncType [] (Some [mkField [] T; error]) in
  checkFunc eq Toy.checker (mkFuncType [] None) (mkFuncType [] None) = Ok none /\
  checkFunc eq Toy.checker before after = Ok (breaking "return parameters changed") /\
  checkFunc eq Toy.checker before before = Ok none.
Proof.
  intros T eq error before after.
  assert (checkFunc eq Toy.checker (mkFuncType [] None) (mkFuncType [] None) = Ok none)
    as Hp by (vm_compute; reflexivity).
  split; [exact Hp|]. split.
  - eapply (checkFunc_results_positional eq Toy.checker [] [] [mkField [] T]
              [mkField [] T; error] none);
      [exact Hp|discriminate|discriminate|vm_compute; reflexivity|].
    intros [Hlen _]. discriminate.
  - eapply (checkFunc_results_positional eq Toy.checker [] [] [mkField [] T]
              [mkField [] T] none);
      [exact Hp|discriminate|discriminate|vm_compute; reflexivity|].
    split; [reflexivity|].
    intros [|j] bf af [= <-] [= <-]. vm_compute. reflexivity.
Defined.

Lemma exprInterfaceType_strips_package_witness :
  let obj := Parsed.readerObj in
  let rest := "Reader " +:+ Parsed.readerText in
  Object_String obj = "type " +:+ "io" +:+ "." +:+ rest /\
  exprInterfaceType (fun _ => Some obj) (Parsed.io "Reader")
  = exprInterfaceType (fun _ => Some (unqualified obj ("type " +:+ rest)))
      (Parsed.io "Reader") /\
  exprInterfaceType (fun _ => Some obj) (Parsed.io "Reader")
  = Ok (mkInterfaceType [Parsed.Read]).
Proof.
  intros obj rest. split; [reflexivity|]. split; [|vm_compute; reflexivity].
  apply (exprInterfaceType_strips_package obj "io" rest); reflexivity.
Defined.

Lemma Check_error_sources_witness :
  let x t := Toy.field "x" t in
  Check Toy.checker 1 (Example.direct Example.ifaceA) (Example.direct Example.ifaceAB)
    = Err "unknown interface type" /\
  x Example.ifaceA ∈ FuncType_Params (mkFuncType [x Example.ifaceA] None) /\
  exprInterfaceType (Uses (binfo Toy.checker)) (Field_Type (x Example.ifaceA))
    = Err "unknown interface type" /\
  ((Example.direct Example.ifaceA = BadDecl /\ Example.direct Example.ifaceAB = BadDecl /\
    "unknown interface type" = "unknown declaration type: *ast.BadDecl") \/
   (exists bRecv bName bType bBody aRecv aName aType aBody bf af,
      Example.direct Example.ifaceA = FuncDecl bRecv bName bType bBody /\
      Example.direct Example.ifaceAB = FuncDecl aRecv aName aType aBody /\
      bf ∈ FuncType_Params bType /\ af ∈ FuncType_Params aType /\
      (exprInterfaceType (Uses (binfo Toy.checker)) (Field_Type bf)
         = Err "unknown interface type" \/
       exprInterfaceType (Uses (ainfo Toy.checker)) (Field_Type af)
         = Err "unknown interface type"))).
Proof.
  intros x. split; [vm_compute; reflexivity|]. split; [by left|].
  split; [vm_compute; reflexivity|].
  apply (proj2 (Check_error_sources Toy.checker 1)). vm_compute. reflexivity.
Defined.

Lemma pkgDecls_flattened_witness :
  let x := Toy.field "x" Example.int in
  let files := [Example.file [x]] in
  let New := FuncDecl None (Toy.ident "New")
               (mkFuncType [] (Some [mkField [] (StarExpr (Toy.tIdent "foo"))])) None in
  let Bar := FuncDecl (Some [mkField [Toy.ident "f"] (StarExpr (Toy.tIdent "foo"))])
               (Toy.ident "Bar") (mkFuncType [] None) None in
  let m : gmap string Decl :=
    {[ "foo" := Example.fooStruct [x]; "New" := New; "foo.Bar" := Bar ]} in
  pkgDecls files = Ok m /\ m !! "foo.Bar" = Some Bar /\
  flattened Bar = true /\ exists d0, d0 ∈ concat files /\ "foo.Bar" ∈ declIds d0.
Proof.
  intros x files New Bar m.
  assert (pkgDecls files = Ok m) as Hpkg by (vm_compute; reflexivity).
  assert (m !! "foo.Bar" = Some Bar) as Hk by (vm_compute; reflexivity).
  split; [exact Hpkg|]. split; [exact Hk|].
  exact (pkgDecls_flattened files m "foo.Bar" Bar Hpkg Hk).
Defined.

Lemma pkgDecls_provenance_witness :
  let x := Toy.field "x" Example.int in
  let files := [Example.file [x]] in
  let New := FuncDecl None (Toy.ident "New")
               (mkFuncType [] (Some [mkField [] (StarExpr (Toy.tIdent "foo"))])) None in
  let Bar := FuncDecl (Some [mkField [Toy.ident "f"] (StarExpr (Toy.tIdent "foo"))])
               (Toy.ident "Bar") (mkFuncType [] None) None in
  let m : gmap string Decl :=
    {[ "foo" := Example.fooStruct [x]; "New" := New; "foo.Bar" := Bar ]} in
  pkgDecls files = Ok m /\ m !! "foo" = Some (Example.fooStruct [x]) /\
  (storedPublic "foo" (Example.fooStruct [x]) \/
   exists t d0, d0 ∈ concat files /\ returnedBy d0 t /\ ("foo" = t \/ promotedBy t "foo")).
Proof.
  intros x files New Bar m.
  assert (pkgDecls files = Ok m) as Hpkg by (vm_compute; reflexivity).
  assert (m !! "foo" = Some (Example.fooStruct [x])) as Hk by (vm_compute; reflexivity).
  split; [exact Hpkg|]. split; [exact Hk|].
  exact (pkgDecls_provenance files m "foo" (Example.fooStruct [x]) Hpkg Hk).
Defined.

Lemma pkgDecls_promotes_any_separator_witness :
  let fooXBar body := FuncDecl None (Toy.ident "fooXBar") (mkFuncType [] None) body in
  let files := [[Example.fooStruct []; Example.New; fooXBar (Some [])]] in
  let New := FuncDecl None (Toy.ident "New")
               (mkFuncType [] (Some [mkField [] (StarExpr (Toy.tIdent "foo"))])) None in
  let m : gmap string Decl :=
    {[ "foo" := Example.fooStruct []; "New" := New; "fooXBar" := fooXBar None ]} in
  pkgDecls files = Ok m /\
  returnedBy Example.New "foo" /\
  m !! "fooXBar" = Some (fooXBar None).
Proof.
  intros fooXBar files New m.
  assert (pkgDecls files = Ok m) as Hpkg by (vm_compute; reflexivity).
  assert (returnedBy Example.New "foo") as Hret.
  { exists None, (Toy.ident "New"),
      (mkFuncType [] (Some [mkField [] (StarExpr (Toy.tIdent "foo"))])),
      (Some ["return &foo{}"]), "", "New",
      [mkField [] (StarExpr (Toy.tIdent "foo"))],
      (mkField [] (StarExpr (Toy.tIdent "foo"))), (Toy.ident "foo").
    split_and!; try reflexivity; [by left|by right]. }
  split; [exact Hpkg|]. split; [exact Hret|].
  apply (pkgDecls_promotes_any_separator files m [Example.fooStruct []; Example.New] []
           (Toy.ident "fooXBar") (mkFuncType [] None) (Some []) "foo" "Bar" "X"%char
           Example.New);
    [exact Hpkg|reflexivity|reflexivity|discriminate|reflexivity|reflexivity| |exact Hret|].
  - apply elem_of_cons. right. by left.
  - by intros ?%elem_of_nil.
Defined.

Lemma Check_embedded_field_panics_witness :
  let io s := SelectorExpr (Toy.tIdent "io") (Toy.ident s) in
  let A := Toy.field "A" Example.int in
  let eqb b a := answer (exprEqual Toy.checker 1) b a in
  let before := [A; mkField [] (io "Reader")] in
  let after := [A; mkField [] (io "Writer")] in
  (mkField [] (io "Reader"), Some (mkField [] (io "Writer"))) ∈ matches before after /\
  Check Toy.checker 1 (structDecl (Toy.ident "S") before) (structDecl (Toy.ident "S") after)
  = Panic "index out of range".
Proof.
  intros io A eqb before after.
  assert ((mkField [] (io "Reader"), Some (mkField [] (io "Writer")))
            ∈ matches before after) as Hin.
  { vm_compute. apply elem_of_cons. right. by left. }
  split; [exact Hin|].
  apply (Check_embedded_field_panics Toy.checker 1 (Toy.ident "S") (Toy.ident "S") eqb
           before after (mkField [] (io "Reader")) (mkField [] (io "Writer")));
    [|exact Hin|reflexivity|reflexivity].
  intros bf af Hm. vm_compute in Hm. elem_cases Hm.
Defined.

Lemma compareDecls_error_tagged_witness :
  let c := mkChecker (Example.revision (Example.direct Example.ifaceA))
                     (Example.revision (Example.direct Example.ifaceAB)) in
  let de := mkDiffError "unknown interface type" "p"
              (Example.direct Example.ifaceA) (Example.direct Example.ifaceAB) in
  compareDecls c 1 = Err de /\
  exists bpkg apkg id,
    Checker_b c !! diffError_pkg de = Some bpkg /\
    Checker_a c !! diffError_pkg de = Some apkg /\
    pkg_decls bpkg !! id = Some (diffError_bdecl de) /\
    pkg_decls apkg !! id = Some (diffError_adecl de) /\
    Check (NewDeclChecker (pkg_info bpkg) (pkg_info apkg)) 1
          (diffError_bdecl de) (diffError_adecl de) = Err (diffError_err de).
Proof.
  intros c de. split; [vm_compute; reflexivity|].
  apply (compareDecls_error_tagged c 1 de). vm_compute. reflexivity.
Defined.

Lemma compareDecls_classifies_all_witness :
  let b := FuncDecl None (Toy.ident "F") (mkFuncType [Toy.field "x" Example.int] None) None in
  let a := FuncDecl None (Toy.ident "F")
             (mkFuncType [Toy.field "x" (Toy.tIdent "string")] None) None in
  let c := mkChecker (Example.revision b) (Example.revision a) in
  (exists changes, compareDecls c 1 = Ok changes) /\
  exists change, Check (NewDeclChecker Toy.info Toy.info) 1 b a = Ok change.
Proof.
  intros b a c. split; [eexists; vm_compute; reflexivity|].
  apply (compareDecls_classifies_all c 1
           [mkChange "p" "F" "parameter types changed" Breaking "p.go:1" (Some b) (Some a)]
           "p" "F" (mkPkg (fun _ => "p.go:1") {[ "F" := b ]} Toy.info)
           (mkPkg (fun _ => "p.go:1") {[ "F" := a ]} Toy.info) b a);
    vm_compute; reflexivity.
Defined.

Lemma compareDecls_reports_witness :
  let b := FuncDecl None (Toy.ident "F") (mkFuncType [Toy.field "x" Example.int] None) None in
  let a := FuncDecl None (Toy.ident "F")
             (mkFuncType [Toy.field "x" (Toy.tIdent "string")] None) None in
  let c := mkChecker (Example.revision b) (Example.revision a) in
  let ch := mkChange "p" "F" "parameter types changed" Breaking "p.go:1" (Some b) (Some a) in
  compareDecls c 1 = Ok [ch] /\ (ch ∈ [ch] <-> reported c 1 ch).
Proof.
  intros b a c ch. split; [vm_compute; reflexivity|].
  apply (compareDecls_reports c 1 [ch] ch). vm_compute. reflexivity.
Defined.

Lemma compareDecls_never_reports_witness :
  let b := FuncDecl None (Toy.ident "F") (mkFuncType [Toy.field "x" Example.int] None) None in
  let c := mkChecker (Example.revision b) ∅ in
  let ch := mkChange "p" "" "package removed" Breaking "" None None in
  compareDecls c 1 = Ok [ch] /\
  Change_Change ch <> None_ /\
  is_Some (Checker_b c !! Change_Pkg ch) /\
  (Change_Before ch = None -> Change_After ch = None -> Change_ID ch = "") /\
  (Change_Change ch = NonBreaking -> Change_Before ch = None ->
     exists apkg, Checker_a c !! Change_Pkg ch = Some apkg /\
       pkg_decls apkg !! Change_ID ch = Change_After ch).
Proof.
  intros b c ch. split; [vm_compute; reflexivity|].
  apply (compareDecls_never_reports c 1 [ch] ch); [vm_compute; reflexivity|by left].
Defined.

Lemma pkgDecls_keeps_exported_witness :
  let x := Toy.field "x" Example.int in
  let T := GenDecl TYPE [TypeSpec (Toy.ident "T") (StructTypeE (mkStructType [x]))] in
  let files := [[T]; [Example.New]] in
  let New := FuncDecl None (Toy.ident "New")
               (mkFuncType [] (Some [mkField [] (StarExpr (Toy.tIdent "foo"))])) None in
  let m : gmap string Decl := {[ "T" := T; "New" := New ]} in
  pkgDecls files = Ok m /\ m !! "New" = Some New /\ m !! "T" = Some T.
Proof.
  intros x T files New m.
  assert (pkgDecls files = Ok m) as Hpkg by (vm_compute; reflexivity).
  split; [exact Hpkg|]. split.
  - destruct (pkgDecls_keeps_exported files m [T] [] Hpkg) as [Hfunc _].
    apply (Hfunc None (Toy.ident "New")
             (mkFuncType [] (Some [mkField [] (StarExpr (Toy.tIdent "foo"))]))
             (Some ["return &foo{}"]) "" "New"); [reflexivity..|].
    clear. intros Hin. vm_compute in Hin.
    apply elem_of_cons in Hin as [Hin|Hin]; [discriminate|by apply elem_of_nil in Hin].
  - destruct (pkgDecls_keeps_exported files m [] [Example.New] Hpkg) as [_ Htype].
    apply (Htype TYPE [] (Toy.ident "T") (StructTypeE (mkStructType [x])) []);
      [reflexivity|reflexivity|by intros ?%elem_of_nil|].
    clear. intros Hin. vm_compute in Hin.
    apply elem_of_cons in Hin as [Hin|Hin]; [discriminate|by apply elem_of_nil in Hin].
Defined.

Lemma unexported_result_type_promoted_witness :
  let x := Toy.field "x" Example.int in
  let m : gmap string Decl :=
    {[ "foo" := Example.fooStruct [x];
       "New" := dropBody Example.New;
       "foo.Bar" := dropBody Example.Bar ]} in
  pkgDecls [Example.file [x]] = Ok m /\
  m !! "foo" = Some (Example.fooStruct [x]) /\
  m !! "foo.Bar" = Some (dropBody Example.Bar).
Proof.
  intros x m.
  assert (pkgDecls [Example.file [x]] = Ok m) as Hpkg by (vm_compute; reflexivity).
  split; [exact Hpkg|].
  destruct (unexported_result_type_promoted [Example.file [x]] m
              None (Toy.ident "New")
              (mkFuncType [] (Some [mkField [] (StarExpr (Toy.tIdent "foo"))]))
              (Some ["return &foo{}"]) "" "New"
              [mkField [] (StarExpr (Toy.tIdent "foo"))]
              (mkField [] (StarExpr (Toy.tIdent "foo"))) (Toy.ident "foo"))
    as (Htype & Hmeth).
  - exact Hpkg.
  - apply elem_of_cons. right. apply elem_of_cons. by left.
  - reflexivity.
  - reflexivity.
  - by left.
  - reflexivity.
  - by apply list_elem_of_singleton.
  - by right.
  - reflexivity.
  - split.
    + apply (Htype [] TYPE [] (Toy.ident "foo")
               (StructTypeE (mkStructType [x])) [] [Example.New; Example.Bar]);
        [reflexivity|reflexivity|by intros ?%elem_of_nil|].
      clear. intros Hin. vm_compute in Hin. elem_cases Hin.
    + apply (Hmeth [Example.fooStruct [x]; Example.New]
               (Some [mkField [Toy.ident "f"] (StarExpr (Toy.tIdent "foo"))])
               (Toy.ident "Bar") (mkFuncType [] None) (Some []) []);
        [reflexivity|reflexivity|reflexivity|discriminate|discriminate|].
      by intros ?%elem_of_nil.
Defined.

Lemma Check_interface_members_witness :
  let A t := Toy.field "A" (Toy.fn [Toy.tIdent t] None) in
  let B := Toy.field "B" (Toy.fn [] None) in
  let I ms := interfaceDecl (Toy.ident "I") ms in
  Check Toy.checker 3 (I [A "int"]) (I [A "int"; B]) = Ok (breaking "members added") /\
  Check Toy.checker 3 (I [A "int"; B]) (I [A "int"]) = Ok (nonBreaking "members removed") /\
  exprEqual Toy.checker 3 (Field_Type (A "int")) (Field_Type (A "string")) = Ok false /\
  exists msg, Check Toy.checker 3 (I [A "int"]) (I [A "string"]) = Ok (breaking msg).
Proof.
  intros A B I. split_and!.
  - destruct (Check_interface_members Toy.checker 3 (Toy.ident "I") (Toy.ident "I")
                [A "int"] [A "int"; B] (fun _ _ => true)) as (Hadd & _).
    + intros bf af Hin. vm_compute in Hin. elem_cases Hin.
    + apply Hadd. exists "B". split.
      * apply elem_of_cons. right. by apply list_elem_of_singleton.
      * intros Hin. vm_compute in Hin. elem_cases Hin.
  - destruct (Check_interface_members Toy.checker 3 (Toy.ident "I") (Toy.ident "I")
                [A "int"; B] [A "int"] (fun _ _ => true)) as (_ & _ & Hrest & _).
    + intros bf af Hin. vm_compute in Hin. elem_cases Hin.
    + apply Hrest.
      * intros k Hin. vm_compute in Hin. elem_cases Hin. by left.
      * done.
      * exists B. vm_compute. apply elem_of_cons. right. by left.
  - vm_compute. reflexivity.
  - destruct (Check_interface_members Toy.checker 3 (Toy.ident "I") (Toy.ident "I")
                [A "int"] [A "string"] (fun _ _ => false)) as (_ & Hmod & _).
    + intros bf af Hin. vm_compute in Hin. elem_cases Hin.
    + apply Hmod. exists (A "int"), (A "string"). split; [|done].
      vm_compute. by left.
Defined.

Lemma checkChan_verdicts_witness :
  let int := Toy.tIdent "int" in
  let string := Toy.tIdent "string" in
  (* element type changed *)
  checkChan (exprEqual Toy.checker 1) (mkChanType SEND int) (mkChanType SEND string)
    = Ok (breaking "changed channel's type") /\
  (* send-only widened to bidirectional *)
  checkChan (exprEqual Toy.checker 1) (mkChanType SEND int) (mkChanType (Z.lor SEND RECV) int)
    = Ok (nonBreaking "removed channel's direction") /\
  (* bidirectional narrowed to send-only, send-only to receive-only *)
  checkChan (exprEqual Toy.checker 1) (mkChanType (Z.lor SEND RECV) int) (mkChanType SEND int)
    = Ok (breaking "changed channel's direction") /\
  checkChan (exprEqual Toy.checker 1) (mkChanType SEND int) (mkChanType RECV int)
    = Ok (breaking "changed channel's direction").
Proof.
  intros int string. split_and!.
  - apply (checkChan_verdicts Toy.checker 1
             (mkChanType SEND int) (mkChanType SEND string)). reflexivity.
  - apply (checkChan_verdicts Toy.checker 1
             (mkChanType SEND int) (mkChanType (Z.lor SEND RECV) int));
      [reflexivity|discriminate|reflexivity].
  - apply (checkChan_verdicts Toy.checker 1
             (mkChanType (Z.lor SEND RECV) int) (mkChanType SEND int));
      [reflexivity|discriminate|by left].
  - apply (checkChan_verdicts Toy.checker 1
             (mkChanType SEND int) (mkChanType RECV int));
      [reflexivity|discriminate|by right].
Defined.
